(** * dd-multi: a shallow embedding of [dd-multi.go] and its specification

    The development follows the source file top-down: the mode parser
    ([parseConvOflag]), the block-size parser ([parseBlockSize]), the copy
    loop ([dd]), the source and sink openers ([inFile], [outFile]), the
    configuration loop of [run] and the renderer ([printAll],
    [computeETA]).  Go's [int64] is a [Z] with the wrap-around written
    out; Go strings are [string]s; the [io] readers a transfer can be given
    are an inductive type with Go's [Read] methods. *)

From Stdlib Require Import ZArith List String Ascii Bool Lia DecimalString.
From Stdlib Require Import Floats.SpecFloat.
Import ListNotations.

Local Open Scope string_scope.
Local Open Scope list_scope.
Local Open Scope Z_scope.

(** ** Machine integers *)

Definition MaxInt64 : Z := 2 ^ 63 - 1.
Definition MinInt64 : Z := - 2 ^ 63.

(** Two's-complement reduction of a mathematical integer to [int64]. *)
Definition wrap64 (z : Z) : Z := (z + 2 ^ 63) mod 2 ^ 64 - 2 ^ 63.

Definition in_int64 (z : Z) : Prop := MinInt64 <= z <= MaxInt64.

Definition mul64 (a b : Z) : Z := wrap64 (a * b).
Definition add64 (a b : Z) : Z := wrap64 (a + b).
Definition sub64 (a b : Z) : Z := wrap64 (a - b).

(** ** Errors

    [EOF] is the sentinel [io.EOF], compared by identity in [dd];
    [Errorf] is an error made of a message only; [Wrap] is
    [fmt.Errorf("<msg>: %w", err)]. *)

Inductive error : Type :=
| EOF
| Errorf (msg : string)
| Wrap (msg : string) (inner : error).

Fixpoint error_text (e : error) : string :=
  match e with
  | EOF => "EOF"
  | Errorf m => m
  | Wrap m inner => (m ++ ": " ++ error_text inner)%string
  end.

Definition is_EOF (e : error) : bool :=
  match e with EOF => true | _ => false end.

Inductive result (A : Type) : Type :=
| Ok (a : A)
| Err (e : error).
Arguments Ok {A} a.
Arguments Err {A} e.

(** ** Platform constants

    [os.O_WRONLY], [os.O_CREATE], [os.O_TRUNC] and [os.O_SYNC] come from
    Go's [syscall] package and differ between the platforms the program
    builds on, so they are a parameter of the development. *)

Class OsConsts : Type := {
  O_WRONLY : Z;
  O_CREATE : Z;
  O_TRUNC : Z;
  O_SYNC : Z
}.

(** The values of [syscall] on linux/amd64. *)
Definition linux_amd64 : OsConsts :=
  {| O_WRONLY := 1; O_CREATE := 64; O_TRUNC := 512; O_SYNC := 1052672 |}.

(** The values of [syscall] on freebsd/amd64. *)
Definition freebsd_amd64 : OsConsts :=
  {| O_WRONLY := 1; O_CREATE := 512; O_TRUNC := 1024; O_SYNC := 128 |}.

(** What the claims about the truncate bit need of a platform: the
    truncate flag is a bit of its own. *)
Definition trunc_bit_separate (os : OsConsts) : Prop :=
  O_TRUNC <> 0 /\
  Z.land O_SYNC O_TRUNC = 0 /\
  Z.land O_CREATE O_TRUNC = 0 /\
  Z.land O_WRONLY O_TRUNC = 0.

(** ** Strings *)

(** [strings.Split(s, sep)] for a one-byte separator: n separators give
    n+1 pieces, and the empty string gives one empty piece. *)
Fixpoint strings_Split (sep : ascii) (s : string) : list string :=
  match s with
  | EmptyString => [EmptyString]
  | String c rest =>
      if Ascii.eqb c sep then EmptyString :: strings_Split sep rest
      else match strings_Split sep rest with
           | [] => [String c EmptyString]
           | h :: t => String c h :: t
           end
  end.

Definition comma : ascii := ","%char.

(** ** ModeFlags: [parseConvOflag] *)

Record bitClearAndSet : Type := { clear : Z; set : Z }.

Section ModeFlags.
Context {os : OsConsts}.

Definition convMap : list (string * bitClearAndSet) :=
  [ ("notrunc", {| clear := O_TRUNC; set := 0 |}) ].

Definition flagMap : list (string * bitClearAndSet) :=
  [ ("sync", {| clear := 0; set := O_SYNC |}) ].

Definition allowedFlags : Z := Z.lor O_TRUNC O_SYNC.

(** A map index [m[k]] with the comma-ok form. *)
Fixpoint map_lookup (m : list (string * bitClearAndSet)) (k : string)
  : option bitClearAndSet :=
  match m with
  | [] => None
  | (k', v) :: m' => if String.eqb k k' then Some v else map_lookup m' k
  end.

(** One of the two [for ... range strings.Split(...)] loops: [what] is
    the text of the error ("unknown conv=" or "unknown oflag="). *)
Fixpoint apply_tokens (m : list (string * bitClearAndSet)) (what : string)
         (toks : list string) (flags : Z) : result Z :=
  match toks with
  | [] => Ok flags
  | c :: rest =>
      match map_lookup m c with
      | Some v =>
          apply_tokens m what rest
            (Z.lor (Z.land flags (Z.lnot (clear v))) (set v))
      | None => Err (Errorf (what ++ c)%string)
      end
  end.

Definition parseConvOflag (convStr oflagStr : string) : result Z :=
  let flags := 0 in
  match (if String.eqb convStr "none" then Ok flags
         else apply_tokens convMap "unknown conv="
                (strings_Split comma convStr) flags) with
  | Err e => Err e
  | Ok flags =>
      if String.eqb oflagStr "none" then Ok flags
      else apply_tokens flagMap "unknown oflag="
             (strings_Split comma oflagStr) flags
  end.

(** The open mode [outFile] passes to [os.OpenFile]. *)
Definition outFile_perm (flags : Z) : Z :=
  Z.lor (Z.lor O_CREATE O_WRONLY) (Z.land flags allowedFlags).

End ModeFlags.

(** ** BlockSizeParser: [parseBlockSize] *)

(** What a function that may call [log.Fatalf] hands back: a value, or the
    message the process logs before it exits with status 1. *)
Inductive fatal_or (A : Type) : Type :=
| Value (a : A)
| Fatal (msg : string).
Arguments Value {A} a.
Arguments Fatal {A} msg.

Definition is_digit (c : ascii) : bool :=
  let n := Z.of_N (N_of_ascii c) in (48 <=? n) && (n <=? 57).

Definition digit_value (c : ascii) : Z := Z.of_N (N_of_ascii c) - 48.

(** The unsigned digit loop of [strconv.ParseUint] in base 10: [None]
    is a syntax error (a byte that is not a decimal digit). *)
Fixpoint parse_digits (s : string) (acc : Z) : option Z :=
  match s with
  | EmptyString => Some acc
  | String c rest =>
      if is_digit c then parse_digits rest (10 * acc + digit_value c)
      else None
  end.

Definition ErrSyntax : error := Errorf "invalid syntax".
Definition ErrRange : error := Errorf "value out of range".

(** [strconv.ParseUint(s, 10, 64)] as [ParseInt] uses it: one or more
    decimal digits.  The value is not cut at [uint64]: [ParseInt] turns
    every value from 2^63 on into a range error. *)
Definition ParseUint (s : string) : result Z :=
  match s with
  | EmptyString => Err ErrSyntax
  | _ =>
      match parse_digits s 0 with
      | None => Err ErrSyntax
      | Some un => Ok un
      end
  end.

(** The end of [strconv.ParseInt], once the sign is taken off. *)
Definition ParseInt_signed (neg : bool) (body : string) : result Z :=
  match ParseUint body with
  | Err err => Err err
  | Ok un =>
      if negb neg && (un >=? 2 ^ 63) then Err ErrRange
      else if neg && (un >? 2 ^ 63) then Err ErrRange
      else Ok (if neg then - un else un)
  end.

(** [strconv.ParseInt(s, 10, 64)]: an optional sign, then one or more
    decimal digits; a value outside [int64] is a range error. *)
Definition ParseInt (s : string) : result Z :=
  match s with
  | EmptyString => Err ErrSyntax
  | String c rest =>
      if Ascii.eqb c "+"%char then ParseInt_signed false rest
      else if Ascii.eqb c "-"%char then ParseInt_signed true rest
      else ParseInt_signed false s
  end.

(** [sizeStr[len(sizeStr)-1]] together with [sizeStr[:len(sizeStr)-1]];
    [None] on the empty string. *)
Fixpoint split_last (s : string) : option (string * ascii) :=
  match s with
  | EmptyString => None
  | String c rest =>
      match split_last rest with
      | None => Some (EmptyString, c)
      | Some (init, l) => Some (String c init, l)
      end
  end.

(** The [switch lastChar] of [parseBlockSize]: the multiplier of a unit
    byte, [None] for the default branch. *)
Definition unit_multiplier (lastChar : ascii) : option Z :=
  if Ascii.eqb lastChar "k"%char || Ascii.eqb lastChar "K"%char then Some 1024
  else if Ascii.eqb lastChar "M"%char then Some (1024 * 1024)
  else if Ascii.eqb lastChar "G"%char then Some (1024 * 1024 * 1024)
  else if Ascii.eqb lastChar "b"%char || Ascii.eqb lastChar "B"%char then Some 512
  else None.

Definition parseBlockSize (sizeStr : string) (defaultSize : Z) : fatal_or Z :=
  match split_last sizeStr with
  | None => Value defaultSize
  | Some (init, lastChar) =>
      let '(multiplier, sizeStr) :=
        match unit_multiplier lastChar with
        | Some m => (m, init)
        | None => (1, sizeStr)
        end in
      match ParseInt sizeStr with
      | Err _ => Fatal ("Invalid block size: " ++ sizeStr)%string
      | Ok val => Value (mul64 val multiplier)
      end
  end.

(** ** Byte streams: the readers and writers a transfer is given

    Sizes are Go [int]s, so they are [Z]s; a list is cut with [take] and
    [drop]. *)

Definition byte : Type := Byte.byte.

Definition len (d : list byte) : Z := Z.of_nat (List.length d).
Definition take (k : Z) (d : list byte) : list byte := firstn (Z.to_nat k) d.
Definition drop (k : Z) (d : list byte) : list byte := skipn (Z.to_nat k) d.

(** A sequential source (standard input, a pipe, a device) is the list of
    the answers it has in store: each is some bytes and the error that
    comes with their last byte, if any.  A [Read] with a buffer shorter
    than the next answer takes a part of it and leaves the rest; an
    exhausted source answers [EOF].  An answer of no bytes and no error
    is a legal empty read. *)
Definition answer : Type := (list byte * option error)%type.
Definition stream : Type := list answer.

Definition stream_Read (s : stream) (k : Z)
  : list byte * option error * stream :=
  match s with
  | [] => ([], Some EOF, [])
  | (d, e) :: rest =>
      if len d <=? k then (d, e, rest)
      else (take k d, None, (drop k d, e) :: rest)
  end.

(** [File.Read] of package [os] on a regular file of content [c], at position
    [pos]. *)
Definition file_Read (c : list byte) (pos k : Z)
  : list byte * option error * Z :=
  if k =? 0 then ([], None, pos)
  else if len c <=? pos then ([], Some EOF, pos)
  else let d := take k (drop pos c) in (d, None, pos + len d).

(** [File.ReadAt] of package [os] on a regular file: as many of the [k] bytes at
    [off] as the file has, with [EOF] when they are fewer than [k]. *)
Definition file_ReadAt (c : list byte) (k off : Z)
  : list byte * option error :=
  if off <? 0 then ([], Some (Errorf "negative offset"))
  else let d := take k (drop off c) in
       (d, if len d <? k then Some EOF else None).

(** The [io.Reader]s that [inFile] returns. *)
Inductive reader : Type :=
| StreamReader (s : stream)
| FileReader (c : list byte) (pos : Z)
| LimitedReader (R : reader) (N : Z)
| SectionReader (c : list byte) (base off limit : Z).

(** [io.LimitReader]. *)
Definition LimitReader (r : reader) (n : Z) : reader := LimitedReader r n.

(** [io.NewSectionReader]: the limit is [off + n], or the largest offset
    when that sum leaves [int64]. *)
Definition NewSectionReader (c : list byte) (off n : Z) : reader :=
  let remaining :=
    if off <=? sub64 MaxInt64 n then add64 n off else MaxInt64 in
  SectionReader c off off remaining.

(** [r.Read(buf)] with [len(buf) = k]: the bytes put in the buffer, the
    error, and the reader afterwards. *)
Fixpoint Read (r : reader) (k : Z) : list byte * option error * reader :=
  match r with
  | StreamReader s =>
      let '(d, e, s') := stream_Read s k in (d, e, StreamReader s')
  | FileReader c pos =>
      let '(d, e, pos') := file_Read c pos k in (d, e, FileReader c pos')
  | LimitedReader R N =>
      if N <=? 0 then ([], Some EOF, r)
      else
        let k' := if k >? N then N else k in
        let '(d, e, R') := Read R k' in
        (d, e, LimitedReader R' (N - len d))
  | SectionReader c base off limit =>
      if off >=? limit then ([], Some EOF, r)
      else
        let max := limit - off in
        let k' := if k >? max then max else k in
        let '(d, e) := file_ReadAt c k' off in
        (d, e, SectionReader c base (off + len d) limit)
  end.

(** A sink: the bytes it has taken, its write position, and what it will
    answer to the coming [Write]s ([None]: takes all of the bytes;
    [Some (n, e)]: takes [n] of them and fails with [e]).  Once the list
    is used up every write succeeds. *)
Record writer : Type := {
  w_taken : list byte;
  w_pos : Z;
  w_script : list (option (Z * error))
}.

Definition Write (w : writer) (p : list byte) : Z * option error * writer :=
  match w_script w with
  | Some (n, e) :: rest =>
      (len (take n p), Some e,
       {| w_taken := w_taken w ++ take n p;
          w_pos := w_pos w + len (take n p);
          w_script := rest |})
  | _ =>
      (len p, None,
       {| w_taken := w_taken w ++ p;
          w_pos := w_pos w + len p;
          w_script := tl (w_script w) |})
  end.

(** ** CopyLoop: [dd] *)

(** What the loop does that can be seen from outside, in order. *)
Inductive event : Type :=
| EvRead (n : Z) (err : option error)      (* n, err := r.Read(buf) *)
| EvWrite (p : list byte) (err : option error) (* w.Write(buf[:n]) *)
| EvAdd (n : Z).                           (* bytesWritten += int64(n) *)

Inductive outcome : Type :=
| Running                       (* the loop has not ended yet *)
| Return (e : option error)     (* return nil / return err *)
| Panic (msg : string).

Record dd_config : Type := {
  rd : reader;
  wr : writer;
  bytesWritten : Z;
  trace : list event;
  status : outcome
}.

(** One turn of the [for] loop. *)
Definition dd_step (inBufSize : Z) (c : dd_config) : dd_config :=
  match status c with
  | Running =>
      let '(d, err, r') := Read (rd c) inBufSize in
      let n := len d in
      let after_read := trace c ++ [EvRead n err] in
      let on_err (w : writer) (bw : Z) (tr : list event) : dd_config :=
        match err with
        | Some e =>
            if is_EOF e then
              {| rd := r'; wr := w; bytesWritten := bw; trace := tr;
                 status := Return None |}
            else
              {| rd := r'; wr := w; bytesWritten := bw; trace := tr;
                 status := Return (Some (Wrap "error reading" e)) |}
        | None =>
            {| rd := r'; wr := w; bytesWritten := bw; trace := tr;
               status := Running |}
        end in
      if n >? 0 then
        let '(_, writeErr, w') := Write (wr c) d in
        match writeErr with
        | Some we =>
            {| rd := r'; wr := w'; bytesWritten := bytesWritten c;
               trace := after_read ++ [EvWrite d (Some we)];
               status := Return (Some (Wrap "error writing" we)) |}
        | None =>
            on_err w' (add64 (bytesWritten c) n)
                   (after_read ++ [EvWrite d None; EvAdd n])
        end
      else on_err (wr c) (bytesWritten c) after_read
  | _ => c
  end.

(** The loop, for at most [fuel] turns. *)
Definition dd_loop (fuel : nat) (inBufSize : Z) (c : dd_config) : dd_config :=
  Nat.iter fuel (dd_step inBufSize) c.

Definition dd_start (r : reader) (w : writer) (bw : Z) (o : outcome)
  : dd_config :=
  {| rd := r; wr := w; bytesWritten := bw; trace := []; status := o |}.

(** [dd(r, w, inBufSize, &bytesWritten)]; [bw] is what the counter holds
    at the call.  [make] panics on a negative length. *)
Definition dd (fuel : nat) (r : reader) (w : writer) (inBufSize : Z) (bw : Z)
  : dd_config :=
  if inBufSize =? 0 then
    dd_start r w bw (Return (Some (Errorf "input buffer size is zero")))
  else if inBufSize <? 0 then
    dd_start r w bw (Panic "makeslice: len out of range")
  else dd_loop fuel inBufSize (dd_start r w bw Running).

(** The sizes of the writes that succeeded, summed. *)
Fixpoint written_sum (tr : list event) : Z :=
  match tr with
  | [] => 0
  | EvWrite p None :: tr' => len p + written_sum tr'
  | _ :: tr' => written_sum tr'
  end.


(** ** SourceOpener and SinkOpener: [inFile], [outFile] *)

(** [io.CopyN(io.Discard, r, n)] on a sequential source, before the
    final check of [CopyN]: [Discard] reads through a [LimitedReader] of
    [n] bytes until an error, and an [EOF] ends it without error.  The
    result is the count of bytes read, the error and the source
    afterwards. *)
Fixpoint stream_discard (s : stream) (n : Z) : Z * option error * stream :=
  match s with
  | [] => (0, None, [])
  | (d, e) :: rest =>
      if n <=? 0 then (0, None, s)
      else if len d <=? n then
        match e with
        | Some err => (len d, if is_EOF err then None else Some err, rest)
        | None =>
            let '(m, e', s') := stream_discard rest (n - len d) in
            (len d + m, e', s')
        end
      else (n, None, (drop n d, e) :: rest)
  end.

Definition CopyN_Discard (s : stream) (n : Z) : Z * option error * stream :=
  let '(written, err, s') := stream_discard s n in
  if written =? n then (n, None, s')
  else
    match err with
    | None => if written <? n then (written, Some EOF, s')
              else (written, None, s')
    | Some _ => (written, err, s')
    end.

(** What a path names: a regular file with its content, or something that
    is read in sequence only (a pipe, a character device). *)
Inductive node : Type :=
| Regular (c : list byte)
| Special (s : stream).

(** An open file: what it is, and the error of [Stat] if [Stat] fails. *)
Record os_file : Type := {
  f_node : node;
  f_stat_err : option error
}.

Definition EINVAL : error := Errorf "invalid argument".

(** The byte 34, the quote of the verb [%q]. *)
Definition dquote : string := String (ascii_of_nat 34) EmptyString.

(** [%q] of a name that needs no escape. *)
Definition quoted (name : string) : string :=
  (dquote ++ name ++ dquote)%string.

(** The end of [inFile] that standard input and the files that are not
    regular share: skip by reading, then bound by count or by size.
    [what] is the text of the skip error.  The second component is the
    value stored in [*totalOut], if one is stored. *)
Definition inFile_sequential (what : string) (r : stream)
           (bs size skip count : Z) : result reader * option Z :=
  let skipped :=
    if skip >? 0 then CopyN_Discard r (mul64 skip bs) else (0, None, r) in
  match skipped with
  | (_, Some err, _) => (Err (Wrap what err), None)
  | (_, None, r) =>
      if negb (count =? MaxInt64) then
        let totalOut := mul64 count bs in
        (Ok (LimitReader (StreamReader r) totalOut), Some totalOut)
      else if size >? 0 then
        let totalOut := size in
        (Ok (LimitReader (StreamReader r) size), Some totalOut)
      else (Ok (StreamReader r), None)
  end.

(** [inFile(stdin, name, bs, size, skip, count, &total)].  [open] is
    [os.Open].  The second component of the result is the value stored
    in [*totalOut]; it is [None] on the paths that leave the cell as it
    was. *)
Definition inFile (stdin : stream) (open : string -> result os_file)
           (name : string) (bs size skip count : Z)
  : result reader * option Z :=
  if String.eqb name "" then
    inFile_sequential "error skipping stdin" stdin bs size skip count
  else
    match open name with
    | Err err =>
        (Err (Wrap ("error opening input " ++ quoted name) err), None)
    | Ok f =>
        match f_stat_err f with
        | Some err =>
            (Err (Wrap ("error stating " ++ quoted name) err), None)
        | None =>
            match f_node f with
            | Regular c =>
                (* in.Seek(skip*bs, io.SeekStart) *)
                if mul64 skip bs <? 0 then
                  (Err (Wrap ("error seeking " ++ quoted name) EINVAL), None)
                else if negb (count =? MaxInt64) then
                  let totalOut := mul64 count bs in
                  (Ok (NewSectionReader c (mul64 skip bs) totalOut),
                   Some totalOut)
                else if size >? 0 then
                  let totalOut := size in
                  (Ok (NewSectionReader c (mul64 skip bs) size),
                   Some totalOut)
                else
                  let totalOut := sub64 (len c) (mul64 skip bs) in
                  (Ok (FileReader c (mul64 skip bs)), Some totalOut)
            | Special s =>
                inFile_sequential ("error skipping in " ++ quoted name)
                                  s bs size skip count
            end
        end
    end.

(** The cell [*totalOut] after a call that found [before] in it. *)
Definition stored (before : Z) (w : option Z) : Z :=
  match w with Some v => v | None => before end.

Section SinkOpener.
Context {os : OsConsts}.

(** [outFile(stdout, name, bs, seek, flags)].  [openFile name perm] is
    [os.OpenFile(name, perm, 0o666)]. *)
Definition outFile (stdout : writer) (openFile : string -> Z -> result writer)
           (name : string) (bs seek : Z) (flags : Z) : result writer :=
  if String.eqb name "" then Ok stdout
  else
    let perm := outFile_perm flags in
    match openFile name perm with
    | Err err => Err (Wrap ("error opening output " ++ quoted name) err)
    | Ok f =>
        if negb (mul64 seek bs =? 0) then
          (* f.Seek(seek*bs, io.SeekCurrent) *)
          if w_pos f + mul64 seek bs <? 0 then
            Err (Wrap ("error seeking " ++ quoted name) EINVAL)
          else
            Ok {| w_taken := w_taken f;
                  w_pos := w_pos f + mul64 seek bs;
                  w_script := w_script f |}
        else Ok f
    end.
End SinkOpener.

(** ** TransferState *)

Record Transfer : Type := {
  InputFilename : string;
  OutputFilename : string;
  Bs : Z;
  Count : Z;
  Size : Z;
  Skip : Z;
  Seek : Z;
  Conv : string;
  Oflag : Z;
  Total : Z;
  Transferred : Z;
  StartTime : Z;
  EndTime : Z;
  Finished : bool
}.

(** The fields of a [Transfer] that change after it is built, and the
    uses of its [Mutex]. *)
Inductive field : Type :=
| FTotal | FTransferred | FStartTime | FEndTime | FFinished.

Inductive access : Type :=
| ALock
| AUnlock
| ARead (f : field)
| AWrite (f : field).

(** The fields the claims put under the guard. *)
Definition guarded_field (f : field) : bool :=
  match f with
  | FTransferred | FFinished | FEndTime => true
  | FTotal | FStartTime => false
  end.

(** Lock discipline of one thread: every access to a guarded field
    happens between a [Lock] and the next [Unlock]. *)
Fixpoint under_lock (held : bool) (l : list access) : bool :=
  match l with
  | [] => true
  | ALock :: l' => under_lock true l'
  | AUnlock :: l' => under_lock false l'
  | ARead f :: l' | AWrite f :: l' =>
      (held || negb (guarded_field f)) && under_lock held l'
  end.

(** The memory accesses behind the events of the copy loop:
    [*bytesWritten += int64(n)] reads and writes [tr.Transferred]. *)
Definition accesses_of_event (e : event) : list access :=
  match e with
  | EvAdd _ => [ARead FTransferred; AWrite FTransferred]
  | _ => []
  end.

(** The environment of a transfer. *)
Record world : Type := {
  w_stdin : stream;
  w_stdout : writer;
  w_open : string -> result os_file;
  w_openFile : string -> Z -> result writer
}.

Section Supervisor.
Context {os : OsConsts}.

Definition set_progress (t : Transfer) (total transferred : Z) : Transfer :=
  {| InputFilename := InputFilename t; OutputFilename := OutputFilename t;
     Bs := Bs t; Count := Count t; Size := Size t; Skip := Skip t;
     Seek := Seek t; Conv := Conv t; Oflag := Oflag t;
     Total := total; Transferred := transferred;
     StartTime := StartTime t; EndTime := EndTime t;
     Finished := Finished t |}.

Definition set_finished (t : Transfer) (now : Z) : Transfer :=
  {| InputFilename := InputFilename t; OutputFilename := OutputFilename t;
     Bs := Bs t; Count := Count t; Size := Size t; Skip := Skip t;
     Seek := Seek t; Conv := Conv t; Oflag := Oflag t;
     Total := Total t; Transferred := Transferred t;
     StartTime := StartTime t; EndTime := now;
     Finished := true |}.

(** [doOneTransfer(t, stdin)]: the transfer afterwards, what the call
    returns, the copy loop when it was reached, and the accesses of
    the call to the fields of [t] that change. *)
Definition doOneTransfer (fuel : nat) (w : world) (t : Transfer)
  : Transfer * outcome * option dd_config * list access :=
  let '(r, wtotal) :=
    inFile (w_stdin w) (w_open w) (InputFilename t)
           (Bs t) (Size t) (Skip t) (Count t) in
  let total := stored (Total t) wtotal in
  let acc_total :=
    match wtotal with Some _ => [AWrite FTotal] | None => [] end in
  match r with
  | Err err =>
      (set_progress t total (Transferred t), Return (Some err), None,
       acc_total)
  | Ok r =>
      match outFile (w_stdout w) (w_openFile w) (OutputFilename t)
                    (Bs t) (Seek t) (Oflag t) with
      | Err err =>
          (set_progress t total (Transferred t), Return (Some err), None,
           acc_total)
      | Ok wtr =>
          let c := dd fuel r wtr (Bs t) (Transferred t) in
          (set_progress t total (bytesWritten c), status c, Some c,
           acc_total ++ flat_map accesses_of_event (trace c))
      end
  end.

(** The body of the worker goroutine of [run]: the transfer, the log
    line of a failure, then the marking under the lock.  A worker
    whose loop is still running or has panicked has marked nothing. *)
Definition worker (fuel : nat) (w : world) (t : Transfer) (now : Z)
  : Transfer * list string * list access :=
  let '(t1, o, _, acc) := doOneTransfer fuel w t in
  match o with
  | Return err =>
      (set_finished t1 now,
       match err with
       | Some e =>
           [("Error in transfer " ++ InputFilename t ++ "->"
              ++ OutputFilename t ++ ": " ++ error_text e)%string]
       | None => []
       end,
       acc ++ [ALock; AWrite FFinished; AWrite FEndTime; AUnlock])
  | _ => (t1, [], acc)
  end.

(** The accesses of the renderer to one transfer in one tick of
    [startProgress]: the [done] test, then the snapshot of
    [printAll]. *)
Definition renderer_accesses : list access :=
  [ALock; ARead FFinished; AUnlock]
  ++ [ALock; ARead FTransferred; ARead FTotal; ARead FFinished;
      ARead FStartTime; ARead FEndTime; AUnlock].

(** The accesses of the signal handler to one transfer. *)
Definition signal_accesses : list access :=
  [ALock; AWrite FFinished; AWrite FEndTime; AUnlock].
End Supervisor.

(** ** Configuration: the first half of [run] *)

Definition MaxTransfers : Z := 50.

(** The values the [flag] package leaves in the slices of [run] for one
    index, after [f.Parse]. *)
Record TransferArgs : Type := {
  a_if : string;
  a_of : string;
  a_bs : string;
  a_conv : string;
  a_oflag : string;
  a_count : Z;
  a_skip : Z;
  a_seek : Z;
  a_size : Z
}.

(** The defaults of the flags of one index. *)
Definition default_args : TransferArgs :=
  {| a_if := ""; a_of := ""; a_bs := ""; a_conv := "none";
     a_oflag := "none"; a_count := MaxInt64; a_skip := 0; a_seek := 0;
     a_size := 0 |}.

(** The verb [%d]. *)
Definition itoa (z : Z) : string := NilZero.string_of_int (Z.to_int z).

(** How the configuration ends: the process has exited through
    [log.Fatal] or [log.Fatalf], or the transfers are built and their
    workers are started.  [logged] is what [log.Printf] has written
    until then. *)
Inductive config_result : Type :=
| Exited (logged : list string) (msg : string)
| Started (logged : list string) (transfers : list Transfer).

Definition usage_text : string :=
  "Multi-Transfer dd with up to 50 sets. Use -numTransfers=N to specify how many sets are actually used.".

Section Configuration.
Context {os : OsConsts}.

(** The [Transfer] literal of [run]; the fields it leaves out have
    their zero value. *)
Definition new_transfer (a : TransferArgs) (bsVal flags now : Z) : Transfer :=
  {| InputFilename := a_if a; OutputFilename := a_of a;
     Bs := bsVal; Count := a_count a; Size := a_size a;
     Skip := a_skip a; Seek := a_seek a; Conv := a_conv a;
     Oflag := flags;
     Total := 0; Transferred := 0;
     StartTime := now; EndTime := 0; Finished := false |}.

(** The loop [for i := 1; i <= *numTransfers; i++] over the indices
    [todo] that are left; [clock i] is [time.Now()] in turn [i]. *)
Fixpoint build_transfers (todo : list nat) (args : list TransferArgs)
         (clock : nat -> Z) (logged : list string)
         (transfers : list Transfer) : config_result :=
  match todo with
  | [] => Started logged transfers
  | i :: rest =>
      let a := nth (i - 1) args default_args in
      if String.eqb (a_if a) "" && String.eqb (a_of a) "" then
        build_transfers rest args clock logged transfers
      else
        match parseBlockSize (a_bs a) 512 with
        | Fatal msg => Exited logged msg
        | Value bsVal =>
            match parseConvOflag (a_conv a) (a_oflag a) with
            | Err err =>
                build_transfers rest args clock
                  (logged ++
                   [("Error parsing conv/oflag for transfer #"
                     ++ itoa (Z.of_nat i) ++ ": " ++ error_text err)%string])
                  transfers
            | Ok flags =>
                build_transfers rest args clock logged
                  (transfers ++ [new_transfer a bsVal flags (clock i)])
            end
        end
  end.

(** [run] up to the start of the workers. *)
Definition configure (numTransfers : Z) (args : list TransferArgs)
           (clock : nat -> Z) : config_result :=
  if (numTransfers <=? 0) || (numTransfers >? MaxTransfers) then
    Exited [] usage_text
  else
    match build_transfers (seq 1 (Z.to_nat numTransfers)) args clock [] []
    with
    | Started logged [] => Exited logged usage_text
    | r => r
    end.

(** The transfers with an unknown token in their lists. *)
Definition has_unknown_token (a : TransferArgs) : bool :=
  match parseConvOflag (a_conv a) (a_oflag a) with
  | Err _ => true
  | Ok _ => false
  end.

Definition is_skipped (a : TransferArgs) : bool :=
  String.eqb (a_if a) "" && String.eqb (a_of a) "".
End Configuration.

(** ** Words of the specification *)

(** A token made of decimal digits only. *)
Fixpoint all_digits (s : string) : bool :=
  match s with
  | EmptyString => true
  | String c rest => is_digit c && all_digits rest
  end.

(** The number a digit string writes, in positional notation. *)
Fixpoint digits_value (s : string) : Z :=
  match s with
  | EmptyString => 0
  | String c rest =>
      digit_value c * 10 ^ Z.of_nat (String.length rest) + digits_value rest
  end.


(** A token followed by one more byte. *)
Definition snoc (s : string) (c : ascii) : string :=
  (s ++ String c EmptyString)%string.

(** What a turn of the copy loop does after the read and the write went
    well, by the error of the read: go on, end well at end-of-stream,
    or abort. *)
Definition after_read (err : option error) : outcome :=
  match err with
  | None => Running
  | Some EOF => Return None
  | Some e => Return (Some (Wrap "error reading" e))
  end.


(** ** Scenarios of the specification *)

(** A source of 10 bytes of one value, read with a block size of 4. *)
Definition ten_bytes : list byte := repeat Byte.x41 10.

Definition fresh_writer : writer :=
  {| w_taken := []; w_pos := 0; w_script := [] |}.

(** A sink whose second write fails after one byte. *)
Definition failing_writer : writer :=
  {| w_taken := []; w_pos := 0;
     w_script := [None; Some (1, Errorf "no space left on device")] |}.

(** A world with nothing in it: an empty standard input, and no path that
    opens. *)
Definition ENOENT : error := Errorf "no such file or directory".

Definition empty_world : world :=
  {| w_stdin := []; w_stdout := fresh_writer;
     w_open := fun _ => Err ENOENT;
     w_openFile := fun _ _ => Err ENOENT |}.

(** A world whose standard input holds the 10 bytes. *)
Definition ten_byte_world : world :=
  {| w_stdin := [(ten_bytes, None)]; w_stdout := fresh_writer;
     w_open := fun _ => Err ENOENT;
     w_openFile := fun _ _ => Err ENOENT |}.

Definition is_add (e : event) : bool :=
  match e with EvAdd _ => true | _ => false end.

Definition is_lock_op (a : access) : bool :=
  match a with ALock | AUnlock => true | _ => false end.

(** The transfer of the 10-byte scenario, as [run] builds it. *)
Definition ten_byte_transfer : Transfer :=
  new_transfer
    {| a_if := ""; a_of := "out.img"; a_bs := "4"; a_conv := "none";
       a_oflag := "none"; a_count := MaxInt64; a_skip := 0; a_seek := 0;
       a_size := 0 |} 4 0 0.

(** The 10-byte world, with a destination that opens. *)
Definition ten_byte_file_world : world :=
  {| w_stdin := [(ten_bytes, None)]; w_stdout := fresh_writer;
     w_open := fun _ => Err ENOENT;
     w_openFile := fun _ _ => Ok fresh_writer |}.

Section ConfigurationWords.
Context {os : OsConsts}.

(** The log line of [run] for a transfer whose lists do not parse. *)
Definition conv_complaint (i : nat) (err : error) : string :=
  ("Error parsing conv/oflag for transfer #"
     ++ itoa (Z.of_nat i) ++ ": " ++ error_text err)%string.

(** The line logged for index [i], if its transfer is configured and
    its lists hold an unknown token. *)
Definition complaint_of (args : list TransferArgs) (i : nat) : list string :=
  let a := nth (i - 1) args default_args in
  if is_skipped a then []
  else match parseConvOflag (a_conv a) (a_oflag a) with
       | Err err => [conv_complaint i err]
       | Ok _ => []
       end.

(** The transfer accepted for index [i], if there is one. *)
Definition accepted_of (args : list TransferArgs) (clock : nat -> Z)
           (i : nat) : list Transfer :=
  let a := nth (i - 1) args default_args in
  if is_skipped a then []
  else match parseBlockSize (a_bs a) 512,
             parseConvOflag (a_conv a) (a_oflag a) with
       | Value bsVal, Ok flags => [new_transfer a bsVal flags (clock i)]
       | _, _ => []
       end.

(** The block size of every configured transfer among [l] parses. *)
Definition block_sizes_parse (args : list TransferArgs) (l : list nat) : Prop :=
  forall i, In i l ->
    let a := nth (i - 1) args default_args in
    is_skipped a = false -> exists bsVal, parseBlockSize (a_bs a) 512 = Value bsVal.

(** C4 as the specification words it: whenever the lists of some
    transfer among the first [numTransfers] hold an unknown token, the
    process exits during the configuration. *)
Definition unknown_token_is_fatal : Prop :=
  forall (numTransfers : Z) (args : list TransferArgs) (clock : nat -> Z),
    (exists i, In i (seq 1 (Z.to_nat numTransfers)) /\
               is_skipped (nth (i - 1) args default_args) = false /\
               has_unknown_token (nth (i - 1) args default_args) = true) ->
    exists logged msg, configure numTransfers args clock = Exited logged msg.

End ConfigurationWords.

(** A transfer from standard input with the block size [0]. *)
Definition zero_args : TransferArgs :=
  {| a_if := ""; a_of := "out.img"; a_bs := "0"; a_conv := "none";
     a_oflag := "none"; a_count := MaxInt64; a_skip := 0; a_seek := 0;
     a_size := 0 |}.

(** Two configured transfers, the first with the conversion [bogus]. *)
Definition bogus_args : TransferArgs :=
  {| a_if := "a.img"; a_of := "b.img"; a_bs := ""; a_conv := "bogus";
     a_oflag := "none"; a_count := MaxInt64; a_skip := 0; a_seek := 0;
     a_size := 0 |}.

Definition plain_args : TransferArgs :=
  {| a_if := "c.img"; a_of := "d.img"; a_bs := ""; a_conv := "none";
     a_oflag := "none"; a_count := MaxInt64; a_skip := 0; a_seek := 0;
     a_size := 0 |}.





Definition is_sequential (open : string -> result os_file) (name : string)
  : Prop :=
  name = "" \/ exists f s, open name = Ok f /\ f_node f = Special s.

(** The scenario of the specification: a regular file of 2048 bytes, of
    which two blocks of 512 are skipped. *)
Definition file_2048 : list byte := repeat Byte.x41 1024 ++ repeat Byte.x42 1024.

Definition open_2048 (name : string) : result os_file :=
  if String.eqb name "src.img"
  then Ok {| f_node := Regular file_2048; f_stat_err := None |}
  else Err ENOENT.



(** ** ProgressRenderer: the values [printAll] computes

    Go's [float64] is IEEE 754 binary64, with rounding to nearest even:
    the numbers and the operations of [SpecFloat] at 53 bits of
    precision.  [a > b] is [SFltb b a] and [a >= b] is [SFleb b a]. *)

Definition prec : Z := 53.
Definition emax : Z := 1024.
Definition float64 : Type := spec_float.

(** [float64(z)]. *)
Definition float64_of_int (z : Z) : float64 :=
  binary_normalize prec emax z 0 false.

(** Truncation toward zero and floor of a finite number. *)
Definition trunc_float (f : float64) : option Z :=
  match f with
  | S754_zero _ => Some 0
  | S754_finite s m e => Some (cond_Zopp s (Z.shiftl (Zpos m) e))
  | _ => None
  end.

Definition floor_float (f : float64) : option Z :=
  match f with
  | S754_zero _ => Some 0
  | S754_finite s m e => Some (Z.shiftl (cond_Zopp s (Zpos m)) e)
  | _ => None
  end.

(** [int(f)]: the fraction is dropped.  Go leaves the result open when
    the value does not fit; this is the result on amd64. *)
Definition int_of_float (f : float64) : Z :=
  match trunc_float f with
  | Some z => if (MinInt64 <=? z) && (z <=? MaxInt64) then z else MinInt64
  | None => MinInt64
  end.

Definition f_zero : float64 := S754_zero false.
Definition f100 : float64 := Eval cbv in float64_of_int 100.
Definition fMiB : float64 := Eval cbv in float64_of_int (1024 * 1024).
Definition f3600 : float64 := Eval cbv in float64_of_int 3600.
Definition f1e9 : float64 := Eval cbv in float64_of_int 1000000000.
Definition barWidth : Z := 50.
Definition f_barWidth : float64 := Eval cbv in float64_of_int barWidth.

(** [t.Sub(u)] on clock readings in nanoseconds: the difference, kept
    within [int64]. *)
Definition time_Sub (t u : Z) : Z := Z.max MinInt64 (Z.min MaxInt64 (t - u)).

(** [d.Seconds()]. *)
Definition Seconds (d : Z) : float64 :=
  SFadd prec emax
    (float64_of_int (Z.quot d 1000000000))
    (SFdiv prec emax (float64_of_int (Z.rem d 1000000000)) f1e9).

(** What [printAll] copies from a transfer under its lock. *)
Record snapshot : Type := {
  s_transferred : Z;
  s_total : Z;
  s_finished : bool;
  s_start : Z;
  s_end : Z
}.

Definition snapshot_of (t : Transfer) : snapshot :=
  {| s_transferred := Transferred t; s_total := Total t;
     s_finished := Finished t; s_start := StartTime t; s_end := EndTime t |}.

Definition elapsed_of (s : snapshot) (now : Z) : float64 :=
  if s_finished s then Seconds (time_Sub (s_end s) (s_start s))
  else Seconds (time_Sub now (s_start s)).

Definition rate_of (transferred : Z) (elapsed : float64) : float64 :=
  if SFltb f_zero elapsed then
    SFdiv prec emax (SFdiv prec emax (float64_of_int transferred) fMiB) elapsed
  else f_zero.

Definition pct_of (transferred total : Z) : float64 :=
  if total >? 0 then
    let pct :=
      SFmul prec emax
        (SFdiv prec emax (float64_of_int transferred) (float64_of_int total))
        f100 in
    if SFltb f100 pct then f100 else pct
  else f_zero.

(** The verb [%02d]. *)
Definition fmt_02d (z : Z) : string :=
  let s := itoa z in
  if (String.length s <? 2)%nat then ("0" ++ s)%string else s.

(** The three [int] conversions and the [Sprintf] that both timers
    share. *)
Definition hms (x : float64) : string :=
  let h := int_of_float (SFdiv prec emax x f3600) in
  let m := Z.quot (Z.rem (int_of_float x) 3600) 60 in
  let s := Z.rem (int_of_float x) 60 in
  (fmt_02d h ++ ":" ++ fmt_02d m ++ ":" ++ fmt_02d s)%string.

Definition placeholder : string := "??:??:??".

Definition remainSec_of (transferred total : Z) (rate : float64) : float64 :=
  let remainBytes := float64_of_int (sub64 total transferred) in
  let remainMB := SFdiv prec emax remainBytes fMiB in
  SFdiv prec emax remainMB rate.

Definition computeETA (transferred total : Z) (elapsed rate : float64)
  : string :=
  if SFleb rate f_zero || (total <=? 0)
     || SFleb (float64_of_int total) (float64_of_int transferred)
  then placeholder
  else
    let remainSec := remainSec_of transferred total rate in
    if SFltb remainSec f_zero then placeholder
    else hms remainSec.

Definition timer_of (isFinished : bool) (transferred total : Z)
           (elapsed rate pct : float64) : string :=
  if isFinished && SFleb f100 pct then hms elapsed
  else computeETA transferred total elapsed rate.

Definition filled_of (pct : float64) : Z :=
  let filled :=
    int_of_float (SFmul prec emax (SFdiv prec emax pct f100) f_barWidth) in
  if filled >? barWidth then barWidth else filled.

Record line_values : Type := {
  v_elapsed : float64;
  v_rate : float64;
  v_pct : float64;
  v_timer : string;
  v_filled : Z
}.

(** The body of the loop of [printAll] for one transfer, from the
    snapshot to the count of filled cells; [now] is the clock at
    [time.Since]. *)
Definition printAll_values (s : snapshot) (now : Z) : line_values :=
  let transferred := s_transferred s in
  let total := s_total s in
  let isFinished := s_finished s in
  let elapsed := elapsed_of s now in
  let rate := rate_of transferred elapsed in
  let pct := pct_of transferred total in
  let timerStr := timer_of isFinished transferred total elapsed rate pct in
  {| v_elapsed := elapsed; v_rate := rate; v_pct := pct;
     v_timer := timerStr; v_filled := filled_of pct |}.

(** *** Words of the specification about the renderer *)

(** [min(a, b)] on [float64]. *)
Definition fmin (a b : float64) : float64 := if SFltb b a then b else a.

(** The completion percentage as the specification writes it. *)
Definition pct_spec (transferred total : Z) : float64 :=
  if total >? 0 then
    fmin f100
         (SFmul prec emax
            (SFdiv prec emax (float64_of_int transferred)
                             (float64_of_int total))
            f100)
  else f_zero.



(** *** Rounding *)

(** The exponent of the last place of a binary64 number of magnitude
    [x]. *)
Definition fexp64 (x : Z) : Z := Z.max (x - 53) (-1074).

(** What a rounding with the sign [s] gives: never a NaN, the sign kept,
    at most 53 digits. *)
Inductive signed_as (s : bool) : float64 -> Prop :=
| sa_zero : signed_as s (S754_zero s)
| sa_finite m e : Zdigits2 (Zpos m) <= 53 -> signed_as s (S754_finite s m e)
| sa_inf : signed_as s (S754_infinity s).

(** A snapshot half way. *)
Definition half_snapshot : snapshot :=
  {| s_transferred := 29; s_total := 50; s_finished := false;
     s_start := 0; s_end := 0 |}.

(** ** What a transfer copies

    The vocabulary of the properties of the copy: the bytes a reader
    has yet to give, and the readers and sinks they are stated for. *)

(** The bytes a sequential source holds before its first error: those
    of its answers, in order, up to and with the first answer that
    carries an error. *)
Fixpoint stream_content (s : stream) : list byte :=
  match s with
  | [] => []
  | (d, None) :: rest => d ++ stream_content rest
  | (d, Some _) :: _ => d
  end.

(** The bytes a reader has yet to give. *)
Fixpoint content (r : reader) : list byte :=
  match r with
  | StreamReader s => stream_content s
  | FileReader c pos => drop pos c
  | LimitedReader R N => take N (content R)
  | SectionReader c base off limit => take (limit - off) (drop off c)
  end.

(** The offsets of a reader are offsets of a file: not negative. *)
Fixpoint positioned (r : reader) : Prop :=
  match r with
  | StreamReader _ => True
  | FileReader _ pos => 0 <= pos
  | LimitedReader R _ => positioned R
  | SectionReader _ _ off _ => 0 <= off
  end.

(** The first error of a sequential source, if it has one, is [EOF]. *)
Fixpoint stream_ends_well (s : stream) : bool :=
  match s with
  | [] => true
  | (_, None) :: rest => stream_ends_well rest
  | (_, Some e) :: _ => is_EOF e
  end.

Fixpoint ends_well (r : reader) : bool :=
  match r with
  | StreamReader s => stream_ends_well s
  | FileReader _ _ => true
  | LimitedReader R _ => ends_well R
  | SectionReader _ _ _ _ => true
  end.

(** A bound on the reads with a buffer that is not empty that a reader
    answers without an error. *)
Fixpoint stream_reads (s : stream) : nat :=
  match s with
  | [] => 0
  | (d, _) :: rest => S (List.length d) + stream_reads rest
  end.

Fixpoint reads_left (r : reader) : nat :=
  match r with
  | StreamReader s => stream_reads s
  | FileReader c pos => Z.to_nat (len c - pos)
  | LimitedReader R _ => reads_left R
  | SectionReader c _ off limit => Z.to_nat (Z.min limit (len c) - off)
  end.



(** A sequential source with no error in store: it ends by running
    out. *)
Definition clean (s : stream) : Prop := Forall (fun a => snd a = None) s.

(** What a transfer is to copy of a source that holds [data]: what is
    left of it once [skip] blocks are dropped, cut to [count] blocks
    when a count is given, else to [size] bytes when a size is. *)
Definition selected (bs size skip count : Z) (data : list byte) : list byte :=
  let rest := drop (mul64 skip bs) data in
  if negb (count =? MaxInt64) then take (mul64 count bs) rest
  else if size >? 0 then take size rest
  else rest.


(** The sequential source behind a name: standard input for the empty
    name, else the special file the name opens. *)
Definition sequential_source (stdin : stream) (open : string -> result os_file)
           (name : string) (s : stream) : Prop :=
  (name = "" /\ s = stdin) \/
  (name <> "" /\
   exists f, open name = Ok f /\ f_stat_err f = None /\ f_node f = Special s).

(** The regular file behind a name. *)
Definition regular_source (open : string -> result os_file)
           (name : string) (c : list byte) : Prop :=
  name <> "" /\
  exists f, open name = Ok f /\ f_stat_err f = None /\ f_node f = Regular c.


(** A transfer as the configuration leaves it: nothing resolved,
    nothing transferred, not finished. *)
Definition fresh (t : Transfer) : Prop :=
  Total t = 0 /\ Transferred t = 0 /\ Finished t = false /\ EndTime t = 0.

(** The number one. *)
Definition f_one : float64 := Eval cbv in float64_of_int 1.

(** ** Command line: [convertArgs] *)

(** [strings.SplitN(s, sep, 2)] for a separator of one byte: the text
    before the first separator and the text after it, if there is
    one. *)
Fixpoint cut_at (sep : ascii) (s : string) : option (string * string) :=
  match s with
  | EmptyString => None
  | String c rest =>
      if Ascii.eqb c sep then Some (EmptyString, rest)
      else match cut_at sep rest with
           | Some (before, after) => Some (String c before, after)
           | None => None
           end
  end.

Definition strings_SplitN2 (sep : ascii) (s : string) : list string :=
  match cut_at sep s with
  | Some (before, after) => [before; after]
  | None => [s]
  end.

Definition equals : ascii := "="%char.

(** The body of the loop of [convertArgs] for the argument [v]. *)
Definition convertArg (args : list string) (v : string) : list string :=
  let l := strings_SplitN2 equals v in
  let l := match l with
           | [l0; l1] => [("-" ++ l0)%string; l1]
           | _ => l
           end in
  args ++ l.

Definition convertArgs (osArgs : list string) : list string :=
  fold_left convertArg osArgs [].

(** The string holds the byte. *)
Fixpoint has_byte (c : ascii) (s : string) : bool :=
  match s with
  | EmptyString => false
  | String c' rest => Ascii.eqb c' c || has_byte c rest
  end.

(** ** Text layout: [stripANSI], [padLeft], [padRight], [centerText] *)

Definition ESC : ascii := ascii_of_nat 27.

(** [stripANSI]: the outer loop, at index [i], is [stripANSI] on the
    text from [i] on; the inner loop, at index [j], is [skip_code] on
    the text from [j] on. *)
Fixpoint stripANSI (s : string) : string :=
  match s with
  | EmptyString => EmptyString
  | String c rest =>
      if Ascii.eqb c ESC then
        match rest with
        | String c' rest' =>
            if Ascii.eqb c' "[" then skip_code rest'
            else String c (stripANSI rest)
        | EmptyString => String c (stripANSI rest)
        end
      else String c (stripANSI rest)
  end
with skip_code (s : string) : string :=
  match s with
  | EmptyString => EmptyString
  | String c rest =>
      if Ascii.eqb c "m" then stripANSI rest else skip_code rest
  end.

(** [len(s)] of a Go string. *)
Definition slen (s : string) : Z := Z.of_nat (String.length s).

Fixpoint repeat_string (s : string) (n : nat) : string :=
  match n with
  | O => EmptyString
  | S n' => (s ++ repeat_string s n')%string
  end.

(** [strings.Repeat(s, count)]; [None] is its panic on a negative
    count. *)
Definition strings_Repeat (s : string) (count : Z) : option string :=
  if count <? 0 then None else Some (repeat_string s (Z.to_nat count)).

Definition padLeft (s : string) (width : Z) : option string :=
  if slen s >=? width then Some s
  else match strings_Repeat " " (width - slen s) with
       | Some pad => Some (pad ++ s)%string
       | None => None
       end.

Definition padRight (s : string) (width : Z) : option string :=
  if slen s >=? width then Some s
  else match strings_Repeat " " (width - slen s) with
       | Some pad => Some (s ++ pad)%string
       | None => None
       end.

Definition centerText (s : string) (width : Z) : option string :=
  if slen s >=? width then Some s
  else
    let spaces := Z.quot (width - slen s) 2 in
    match strings_Repeat " " spaces with
    | Some pad => Some (pad ++ s)%string
    | None => None
    end.

(** A run of [n] spaces; text with no escape byte. *)
Definition blanks (n : Z) : string := repeat_string " " (Z.to_nat n).
Definition plain (s : string) : Prop := has_byte ESC s = false.

(** ** The progress line of [printAll] *)

Definition Reset : string := String ESC "[0m".
Definition DarkGreen : string := String ESC "[32m".
Definition LightGreen : string := String ESC "[92m".
Definition Grey : string := String ESC "[90m".

(** The line feed and the carriage return. *)
Definition LF : ascii := ascii_of_nat 10.
Definition CR : ascii := ascii_of_nat 13.

(** Sequencing of calls that may panic. *)
Definition and_then {A B : Type} (a : option A) (k : A -> option B) : option B :=
  match a with
  | Some x => k x
  | None => None
  end.

(** Lines 566 to 587 of [printAll]: the progress line of a transfer,
    from its timer, the text of its rate ([rateStr]), its count of
    filled cells and the width of the terminal.  [None] is a panic of
    [strings.Repeat]. *)
Definition render_line (timerStr rateStr : string) (filled TermCols : Z)
  : option string :=
  and_then (padRight timerStr 8) (fun timerPad =>
  let leftGrey := (Grey ++ timerPad ++ Reset)%string in
  and_then (strings_Repeat "-" filled) (fun filledRun =>
  let filledBar := (LightGreen ++ filledRun)%string in
  and_then (strings_Repeat "-" (barWidth - filled)) (fun unfilledRun =>
  let unfilledBar := (DarkGreen ++ unfilledRun ++ Reset)%string in
  let bar := (filledBar ++ unfilledBar)%string in
  and_then (padLeft rateStr 12) (fun ratePad =>
  let rateGrey := (Grey ++ ratePad ++ Reset)%string in
  let leftSide := (leftGrey ++ " " ++ bar ++ " ")%string in
  let line := (leftSide ++ rateGrey)%string in
  let totalUsed := slen (stripANSI leftSide) + slen (stripANSI rateGrey) in
  let extra := TermCols - totalUsed in
  if extra >? 0 then
    and_then (strings_Repeat " " extra) (fun fill => Some (line ++ fill)%string)
  else Some line)))).

(** The columns the progress line takes without the fill at its end. *)
Definition used_columns (timerStr rateStr : string) : Z :=
  Z.max (slen timerStr) 8 + 1 + barWidth + 1 + Z.max (slen rateStr) 12.

(** What the progress line shows. *)
Definition visible_line (timerStr rateStr : string) (TermCols : Z) : string :=
  (timerStr ++ blanks (8 - slen timerStr) ++ " "
   ++ repeat_string "-" (Z.to_nat barWidth) ++ " "
   ++ blanks (12 - slen rateStr) ++ rateStr
   ++ blanks (TermCols - used_columns timerStr rateStr))%string.

(** Every byte of the string passes the test. *)
Fixpoint all_bytes (p : ascii -> bool) (s : string) : bool :=
  match s with
  | EmptyString => true
  | String c rest => p c && all_bytes p rest
  end.

(** The bytes a timer is made of. *)
Definition timer_byte (c : ascii) : bool :=
  is_digit c || Ascii.eqb c "-" || Ascii.eqb c ":" || Ascii.eqb c "?".

(** How often the string holds the byte. *)
Fixpoint count_byte (c : ascii) (s : string) : Z :=
  match s with
  | EmptyString => 0
  | String c' rest => (if Ascii.eqb c' c then 1 else 0) + count_byte c rest
  end.

Section Printing.
(** [fmt.Sprintf("%.2f MB/s", rate)]. *)
Variable fmt_rate : float64 -> string.

(** The body of the loop of [printAll] for the transfer [t]: what it
    prints, the banner line and the progress line; [now] is the clock
    at [time.Since]. *)
Definition print_transfer (TermCols : Z) (t : Transfer) (now : Z)
  : option string :=
  let banner := (InputFilename t ++ " --> " ++ OutputFilename t)%string in
  and_then (centerText banner TermCols) (fun centered =>
  let v := printAll_values (snapshot_of t) now in
  let rateStr := fmt_rate (v_rate v) in
  and_then (render_line (v_timer v) rateStr (v_filled v) TermCols) (fun line =>
  Some (centered ++ String LF (String CR (line ++ String LF "")))%string)).

(** [mp.printAll]: [clock i] is the clock when the loop is at the
    transfer of index [i]. *)
Fixpoint printAll (TermCols : Z) (ts : list Transfer) (clock : nat -> Z)
         (i : nat) : option string :=
  match ts with
  | [] => Some EmptyString
  | t :: rest =>
      and_then (print_transfer TermCols t (clock i)) (fun out =>
      and_then (printAll TermCols rest clock (S i)) (fun outs =>
      Some (out ++ outs)%string))
  end.
End Printing.

(** [totalLines] of [startProgress]: two lines for each transfer. *)
Definition totalLines (ts : list Transfer) : Z := 2 * Z.of_nat (List.length ts).

(** The counts and the names of a transfer that the renderer can
    print. *)
Definition printable (t : Transfer) : Prop :=
  0 <= Transferred t <= MaxInt64 /\ Total t <= MaxInt64 /\
  has_byte LF (InputFilename t) = false /\
  has_byte LF (OutputFilename t) = false.

(** ** Scenarios of the properties *)

(** A pipe of 10 bytes in two answers. *)
Definition pipe_4_6 : stream :=
  [(repeat Byte.x41 4, None); (repeat Byte.x42 6, None)].




(** A rate text for the scenarios. *)
Definition zero_rate (r : float64) : string := "0.00 MB/s".


(** * Properties *)

(** ** Machine integers *)

Lemma wrap64_small (z : Z) : in_int64 z -> wrap64 z = z.
Proof.
  unfold in_int64, wrap64, MinInt64, MaxInt64. intros H.
  rewrite Z.mod_small; lia.
Qed.


(** ** ModeFlags *)

Section ModeFlagsFacts.
Context {os : OsConsts}.

Lemma convMap_lookup (c : string) (v : bitClearAndSet) :
  map_lookup convMap c = Some v -> v = {| clear := O_TRUNC; set := 0 |}.
Proof.
  simpl. destruct (String.eqb c "notrunc"); congruence.
Qed.

Lemma flagMap_lookup (c : string) (v : bitClearAndSet) :
  map_lookup flagMap c = Some v -> v = {| clear := 0; set := O_SYNC |}.
Proof.
  simpl. destruct (String.eqb c "sync"); congruence.
Qed.

(** The conversion tokens leave a zero accumulator at zero. *)
Lemma apply_conv_zero (what : string) (toks : list string) (f : Z) :
  apply_tokens convMap what toks 0 = Ok f -> f = 0.
Proof.
  induction toks as [|c toks IH]; cbn [apply_tokens].
  - congruence.
  - destruct (map_lookup convMap c) as [v|] eqn:E; [|congruence].
    apply convMap_lookup in E. subst v. cbn [clear set].
    rewrite Z.land_0_l, Z.lor_0_l. exact IH.
Qed.

(** The output tokens keep the accumulator in {0, O_SYNC}. *)
Lemma apply_oflag_sync (what : string) (toks : list string) (f0 f : Z) :
  f0 = 0 \/ f0 = O_SYNC ->
  apply_tokens flagMap what toks f0 = Ok f -> f = 0 \/ f = O_SYNC.
Proof.
  revert f0. induction toks as [|c toks IH]; cbn [apply_tokens]; intros f0 H0 H.
  - injection H as <-. exact H0.
  - destruct (map_lookup flagMap c) as [v|] eqn:E; [|congruence].
    apply flagMap_lookup in E. subst v. cbn [clear set] in H.
    eapply IH; [|exact H]. right.
    change (Z.lnot 0) with (-1). rewrite Z.land_m1_r.
    destruct H0 as [->| ->]; [apply Z.lor_0_l | apply Z.lor_diag].
Qed.

Lemma parseConvOflag_values (convStr oflagStr : string) (flags : Z) :
  parseConvOflag convStr oflagStr = Ok flags ->
  flags = 0 \/ flags = O_SYNC.
Proof.
  unfold parseConvOflag. intros H.
  destruct (String.eqb convStr "none").
  - destruct (String.eqb oflagStr "none").
    + injection H as <-. now left.
    + eapply apply_oflag_sync; [|exact H]. now left.
  - destruct (apply_tokens convMap _ _ 0) as [f1|] eqn:E1; [|congruence].
    apply apply_conv_zero in E1. subst f1.
    destruct (String.eqb oflagStr "none").
    + injection H as <-. now left.
    + eapply apply_oflag_sync; [|exact H]. now left.
Qed.

(** An accepted conversion list gives what [none] gives. *)
Lemma parseConvOflag_conv_irrelevant (convStr oflagStr : string) (flags : Z) :
  parseConvOflag convStr oflagStr = Ok flags ->
  parseConvOflag "none" oflagStr = Ok flags.
Proof.
  unfold parseConvOflag. simpl. intros H.
  destruct (String.eqb convStr "none"); [exact H|].
  destruct (apply_tokens convMap _ _ 0) as [f1|] eqn:E1; [|congruence].
  apply apply_conv_zero in E1. subst f1. exact H.
Qed.

Lemma outFile_perm_no_trunc (flags : Z) :
  trunc_bit_separate os ->
  flags = 0 \/ flags = O_SYNC ->
  Z.land (outFile_perm flags) O_TRUNC = 0.
Proof.
  intros (_ & Hs & Hc & Hw) Hf. unfold outFile_perm, allowedFlags.
  rewrite !Z.land_lor_distr_l, Hc, Hw. simpl.
  destruct Hf as [->| ->].
  - now rewrite Z.land_0_l.
  - rewrite <- Z.land_assoc, (Z.land_comm (Z.lor _ _)), Z.land_assoc, Hs.
    apply Z.land_0_l.
Qed.

(** C10.  Whatever token lists the mode parser accepts, the bitmask it
    returns is 0 or the synchronous-write bit alone, so it never holds
    the truncate bit; the open mode [outFile] builds from it never holds
    the truncate bit either, so the destination is opened without
    truncation; and [conv=notrunc], like every accepted conversion
    list, gives the bitmask of [conv=none]. *)
Theorem mode_never_truncates (convStr oflagStr : string) (flags : Z) :
  trunc_bit_separate os ->
  parseConvOflag convStr oflagStr = Ok flags ->
  Z.land flags O_TRUNC = 0 /\
  (flags = 0 \/ flags = O_SYNC) /\
  (oflagStr = "none" -> flags = 0) /\
  Z.land (outFile_perm flags) O_TRUNC = 0 /\
  parseConvOflag "none" oflagStr = Ok flags /\
  parseConvOflag "notrunc" oflagStr = parseConvOflag "none" oflagStr.
Proof.
  intros Hos H.
  pose proof (parseConvOflag_values _ _ _ H) as Hv.
  pose proof (parseConvOflag_conv_irrelevant _ _ _ H) as Hn.
  split; [|split; [|split; [|split; [|split]]]].
  - destruct Hos as (_ & Hs & _).
    destruct Hv as [->| ->]; [apply Z.land_0_l | exact Hs].
  - exact Hv.
  - intros ->. unfold parseConvOflag in Hn. simpl in Hn. congruence.
  - now apply outFile_perm_no_trunc.
  - exact Hn.
  - unfold parseConvOflag. simpl. reflexivity.
Qed.
End ModeFlagsFacts.

Lemma linux_trunc_bit_separate : trunc_bit_separate linux_amd64.
Proof. repeat split; simpl; try reflexivity. discriminate. Qed.

Lemma freebsd_trunc_bit_separate : trunc_bit_separate freebsd_amd64.
Proof. repeat split; simpl; try reflexivity. discriminate. Qed.

Lemma mode_never_truncates_witness :
  trunc_bit_separate linux_amd64 /\
  @parseConvOflag linux_amd64 "notrunc" "sync" = Ok 1052672 /\
  Z.land 1052672 (@O_TRUNC linux_amd64) = 0.
Proof.
  split; [exact linux_trunc_bit_separate|].
  split; [reflexivity|].
  exact (proj1 (@mode_never_truncates linux_amd64 "notrunc" "sync" 1052672
                  linux_trunc_bit_separate eq_refl)).
Defined.

(** ** BlockSizeParser *)

Lemma split_last_snoc (s : string) (c : ascii) :
  split_last (snoc s c) = Some (s, c).
Proof.
  unfold snoc. induction s as [|a s IH]; simpl.
  - reflexivity.
  - now rewrite IH.
Qed.


Lemma parse_digits_value (s : string) (acc : Z) :
  all_digits s = true ->
  parse_digits s acc
  = Some (acc * 10 ^ Z.of_nat (String.length s) + digits_value s).
Proof.
  revert acc. induction s as [|c s IH]; intros acc H.
  - cbn. f_equal. lia.
  - cbn [all_digits] in H. apply andb_prop in H as [Hc Hs].
    cbn [parse_digits digits_value String.length].
    rewrite Hc, IH by exact Hs.
    f_equal. rewrite Nat2Z.inj_succ, Z.pow_succ_r by lia. ring.
Qed.


Lemma digits_value_nonneg (s : string) :
  all_digits s = true -> 0 <= digits_value s.
Proof.
  induction s as [|c s IH]; simpl; intros H; [lia|].
  apply andb_prop in H as [Hc Hs]. specialize (IH Hs).
  unfold is_digit in Hc. apply andb_prop in Hc as [H1 H2].
  unfold digit_value.
  assert (0 <= 10 ^ Z.of_nat (String.length s)) by (apply Z.pow_nonneg; lia).
  nia.
Qed.


Lemma digit_not_unit (c : ascii) :
  is_digit c = true -> unit_multiplier c = None.
Proof.
  intros H. unfold unit_multiplier.
  repeat match goal with
         | |- context [Ascii.eqb c ?u] =>
             let E := fresh "E" in
             destruct (Ascii.eqb c u) eqn:E;
             [apply Ascii.eqb_eq in E; subst c; discriminate|]
         end.
  reflexivity.
Qed.




Lemma parseBlockSize_unit (ds : string) (u : ascii) (m d : Z) :
  unit_multiplier u = Some m ->
  parseBlockSize (snoc ds u) d
  = match ParseInt ds with
    | Err _ => Fatal ("Invalid block size: " ++ ds)
    | Ok val => Value (mul64 val m)
    end.
Proof.
  intros Hu. unfold parseBlockSize. now rewrite split_last_snoc, Hu.
Qed.

Lemma parseBlockSize_no_unit (tok : string) (d : Z) :
  tok <> "" ->
  (forall init l, split_last tok = Some (init, l) -> unit_multiplier l = None) ->
  parseBlockSize tok d
  = match ParseInt tok with
    | Err _ => Fatal ("Invalid block size: " ++ tok)
    | Ok val => Value (mul64 val 1)
    end.
Proof.
  intros Hne Hl. unfold parseBlockSize.
  destruct (split_last tok) as [[init l]|] eqn:E.
  - now rewrite (Hl _ _ eq_refl).
  - destruct tok as [|a tok]; [congruence|]. simpl in E.
    destruct (split_last tok) as [[? ?]|]; discriminate.
Qed.

Lemma split_last_digits (ds init : string) (l : ascii) :
  all_digits ds = true -> split_last ds = Some (init, l) -> is_digit l = true.
Proof.
  revert init. induction ds as [|c ds IH]; simpl; intros init H E; [discriminate|].
  apply andb_prop in H as [Hc Hs].
  destruct (split_last ds) as [[i' l']|] eqn:E'.
  - injection E as _ <-. eapply IH; eauto.
  - injection E as _ <-. exact Hc.
Qed.






(** ** Readers *)

Lemma len_nonneg (d : list byte) : 0 <= len d.
Proof. unfold len. lia. Qed.

Lemma len_app (a b : list byte) : len (a ++ b) = len a + len b.
Proof. unfold len. rewrite length_app. lia. Qed.

Lemma len_take (k : Z) (d : list byte) : len (take k d) = Z.min (Z.max 0 k) (len d).
Proof.
  unfold len, take. rewrite length_firstn. lia.
Qed.

Lemma len_drop (k : Z) (d : list byte) : len (drop k d) = len d - Z.min (Z.max 0 k) (len d).
Proof.
  unfold len, drop. rewrite length_skipn. lia.
Qed.


(** A read never gives more bytes than the buffer holds. *)
Lemma Read_len (r : reader) (k : Z) :
  0 <= k -> len (fst (fst (Read r k))) <= k.
Proof.
  revert k. induction r as [s|c pos|R IH N|c base off limit]; intros k Hk.
  - destruct s as [|[d e] rest]; cbn; [lia|].
    destruct (len d <=? k) eqn:E; cbn; [lia|]. rewrite len_take. lia.
  - cbn. unfold file_Read. destruct (k =? 0); cbn; [lia|].
    destruct (len c <=? pos); cbn; [lia|]. rewrite len_take. lia.
  - cbn [Read]. destruct (N <=? 0) eqn:EN; cbn; [lia|].
    specialize (IH (if k >? N then N else k)).
    destruct (Read R (if k >? N then N else k)) as [[d e] R']. cbn in *.
    destruct (k >? N) eqn:E; lia.
  - cbn [Read]. destruct (off >=? limit) eqn:EN; cbn; [lia|].
    unfold file_ReadAt.
    destruct (off <? 0); cbn; [lia|].
    rewrite len_take. destruct (k >? limit - off) eqn:E; lia.
Qed.

(** ** CopyLoop *)

Lemma written_sum_app (a b : list event) :
  written_sum (a ++ b) = written_sum a + written_sum b.
Proof.
  induction a as [|e a IH]; [reflexivity|].
  destruct e as [n err|p [err|]|n]; cbn [written_sum app]; rewrite ?IH; lia.
Qed.

Lemma written_sum_nonneg (tr : list event) : 0 <= written_sum tr.
Proof.
  induction tr as [|e a IH]; [reflexivity|].
  destruct e as [n err|p [err|]|n]; cbn [written_sum]; try assumption.
  pose proof (len_nonneg p). lia.
Qed.

Lemma dd_step_ended (bs : Z) (c : dd_config) :
  status c <> Running -> dd_step bs c = c.
Proof. unfold dd_step. destruct (status c); congruence. Qed.

(** One turn, spelled out: the read, then the write of exactly the bytes
    read, then the addition, then the test of the read error. *)
Lemma dd_step_turn (bs : Z) (c : dd_config) :
  status c = Running ->
  forall d err r', Read (rd c) bs = (d, err, r') ->
  let c' := dd_step bs c in
  rd c' = r' /\
  (0 < len d ->
     forall n' werr w', Write (wr c) d = (n', werr, w') ->
     wr c' = w' /\
     match werr with
     | Some we =>
         status c' = Return (Some (Wrap "error writing" we)) /\
         bytesWritten c' = bytesWritten c /\
         trace c' = trace c ++ [EvRead (len d) err; EvWrite d (Some we)]
     | None =>
         status c' = after_read err /\
         bytesWritten c' = add64 (bytesWritten c) (len d) /\
         trace c' = trace c ++ [EvRead (len d) err; EvWrite d None;
                                EvAdd (len d)]
     end) /\
  (len d = 0 ->
     wr c' = wr c /\
     status c' = after_read err /\
     bytesWritten c' = bytesWritten c /\
     trace c' = trace c ++ [EvRead 0 err]).
Proof.
  intros Hrun d err r' HR c'. subst c'. unfold dd_step. rewrite Hrun, HR.
  pose proof (len_nonneg d) as Hd.
  destruct (len d >? 0) eqn:En.
  - split; [|split].
    + destruct (Write (wr c) d) as [[n' werr] w'].
      destruct werr as [we|]; [reflexivity|].
      destruct err as [[| |]|]; reflexivity.
    + intros _ n' werr w' HW. rewrite HW.
      destruct werr as [we|].
      * repeat split. now rewrite <- app_assoc.
      * destruct err as [[| |]|]; cbn; repeat split; now rewrite <- app_assoc.
    + lia.
  - assert (len d = 0) as Hz by lia. split; [|split].
    + destruct err as [[| |]|]; reflexivity.
    + lia.
    + intros _. rewrite Hz.
      destruct err as [[| |]|]; cbn; repeat split.
Qed.

(** What one turn adds to the sum of the writes, and to the counter. *)
Lemma dd_step_delta (bs : Z) (c : dd_config) :
  exists delta,
    0 <= delta /\
    written_sum (trace (dd_step bs c)) = written_sum (trace c) + delta /\
    bytesWritten (dd_step bs c)
    = (if delta =? 0 then bytesWritten c else add64 (bytesWritten c) delta).
Proof.
  destruct (status c) eqn:Hs.
  2,3: exists 0; rewrite dd_step_ended by congruence; repeat split; lia.
  destruct (Read (rd c) bs) as [[d err] r'] eqn:HR.
  destruct (dd_step_turn bs c Hs d err r' HR) as (_ & Hpos & Hzero).
  pose proof (len_nonneg d) as Hd.
  destruct (Z.eq_dec (len d) 0) as [Hz|Hnz].
  - exists 0. destruct (Hzero Hz) as (_ & _ & Hb & Ht).
    rewrite Ht, Hb, written_sum_app. cbn. repeat split; lia.
  - destruct (Write (wr c) d) as [[n' werr] w'] eqn:HW.
    destruct (Hpos ltac:(lia) n' werr w' eq_refl) as (_ & H).
    destruct werr as [we|].
    + exists 0. destruct H as (_ & Hb & Ht).
      rewrite Ht, Hb, written_sum_app. cbn. repeat split; lia.
    + exists (len d). destruct H as (_ & Hb & Ht).
      rewrite Ht, Hb, written_sum_app. cbn.
      destruct (len d =? 0) eqn:E; [lia|]. repeat split; lia.
Qed.

Lemma dd_loop_S (k : nat) (bs : Z) (c : dd_config) :
  dd_loop (S k) bs c = dd_step bs (dd_loop k bs c).
Proof. reflexivity. Qed.

(** The sum of the writes only grows along the loop. *)
Lemma written_sum_mono (bs : Z) (c : dd_config) (i j : nat) :
  (i <= j)%nat ->
  written_sum (trace (dd_loop i bs c)) <= written_sum (trace (dd_loop j bs c)).
Proof.
  induction 1 as [|j Hij IH]; [lia|].
  rewrite dd_loop_S.
  destruct (dd_step_delta bs (dd_loop j bs c)) as (delta & Hd & Hs & _). lia.
Qed.

(** While the counter does not leave [int64], it is the counter at the
    start plus the sum of the writes that succeeded. *)
Lemma dd_loop_counter (bs : Z) (c : dd_config) (k : nat) :
  in_int64 (bytesWritten c) ->
  bytesWritten c + (written_sum (trace (dd_loop k bs c)) - written_sum (trace c))
    <= MaxInt64 ->
  forall j, (j <= k)%nat ->
    bytesWritten (dd_loop j bs c)
    = bytesWritten c
      + (written_sum (trace (dd_loop j bs c)) - written_sum (trace c)).
Proof.
  intros Hin Hmax j. induction j as [|j IH]; intros Hj.
  - cbn. lia.
  - specialize (IH ltac:(lia)).
    pose proof (written_sum_mono bs c (S j) k Hj) as Hm1.
    pose proof (written_sum_mono bs c 0 j ltac:(lia)) as Hm0. cbn in Hm0.
    rewrite dd_loop_S in *.
    destruct (dd_step_delta bs (dd_loop j bs c)) as (delta & Hd & Hs & Hb).
    rewrite Hb, Hs, IH.
    destruct (delta =? 0) eqn:E; [lia|].
    unfold add64. rewrite wrap64_small; [lia|].
    unfold in_int64 in *. lia.
Qed.

Lemma dd_positive (fuel : nat) (r : reader) (w : writer) (bs bw : Z) :
  0 < bs -> dd fuel r w bs bw = dd_loop fuel bs (dd_start r w bw Running).
Proof.
  intros H. unfold dd.
  destruct (bs =? 0) eqn:E0; [lia|]. destruct (bs <? 0) eqn:E1; [lia|].
  reflexivity.
Qed.

(** C2.  Along every run of the copy loop whose counter stays in
    [int64], the counter after any number of turns is the counter at the
    call plus the sum of the sizes of the writes that have succeeded so
    far, and it never decreases from one turn to a later one.  Each turn
    reads at most one block, writes exactly the bytes read and only then
    adds their count; a read of no bytes and no error goes on to the
    next turn with nothing changed; end-of-stream ends the loop with
    success; a write error, or a read error that is not end-of-stream,
    ends the loop with that error and leaves the counter at the sum of
    the writes that succeeded. *)
Theorem dd_counter_is_sum_of_writes
        (bs : Z) (r : reader) (w : writer) (bw : Z) (fuel : nat) :
  0 < bs ->
  in_int64 bw ->
  bw + written_sum (trace (dd fuel r w bs bw)) <= MaxInt64 ->
  (forall j, (j <= fuel)%nat ->
     bytesWritten (dd j r w bs bw)
     = bw + written_sum (trace (dd j r w bs bw))) /\
  (forall i j, (i <= j <= fuel)%nat ->
     bytesWritten (dd i r w bs bw) <= bytesWritten (dd j r w bs bw)) /\
  (forall c d err r',
     status c = Running -> Read (rd c) bs = (d, err, r') ->
     let c' := dd_step bs c in
     len d <= bs /\
     rd c' = r' /\
     (0 < len d ->
        forall n' werr w', Write (wr c) d = (n', werr, w') ->
        wr c' = w' /\
        match werr with
        | Some we =>
            status c' = Return (Some (Wrap "error writing" we)) /\
            bytesWritten c' = bytesWritten c /\
            trace c' = trace c ++ [EvRead (len d) err; EvWrite d (Some we)]
        | None =>
            status c' = after_read err /\
            bytesWritten c' = add64 (bytesWritten c) (len d) /\
            trace c' = trace c ++ [EvRead (len d) err; EvWrite d None;
                                   EvAdd (len d)]
        end) /\
     (len d = 0 ->
        wr c' = wr c /\
        status c' = after_read err /\
        bytesWritten c' = bytesWritten c /\
        trace c' = trace c ++ [EvRead 0 err])) /\
  after_read None = Running /\
  after_read (Some EOF) = Return None /\
  (forall e, e <> EOF ->
     after_read (Some e) = Return (Some (Wrap "error reading" e))).
Proof.
  intros Hbs Hin Hmax.
  assert (Hcount : forall j, (j <= fuel)%nat ->
            bytesWritten (dd j r w bs bw)
            = bw + written_sum (trace (dd j r w bs bw))).
  { intros j Hj. rewrite dd_positive in * by exact Hbs.
    pose proof (dd_loop_counter bs (dd_start r w bw Running) fuel) as H.
    cbn [dd_start bytesWritten trace written_sum] in H.
    rewrite H; [lia|exact Hin|lia|exact Hj]. }
  split; [exact Hcount|]. split; [|split; [|split; [|split]]].
  - intros i j [Hij Hj]. rewrite !Hcount by lia.
    rewrite !dd_positive by exact Hbs.
    pose proof (written_sum_mono bs (dd_start r w bw Running) i j Hij). lia.
  - intros c d err r' Hrun HR c'.
    split.
    + pose proof (Read_len (rd c) bs ltac:(lia)) as Hl. now rewrite HR in Hl.
    + exact (dd_step_turn bs c Hrun d err r' HR).
  - reflexivity.
  - reflexivity.
  - intros e He. destruct e; [congruence|reflexivity|reflexivity].
Qed.

(** The scenario of the specification: 10 bytes, blocks of 4. *)
Lemma dd_counter_is_sum_of_writes_witness :
  0 < 4 /\ in_int64 0 /\
  status (dd 4 (StreamReader [(ten_bytes, None)]) fresh_writer 4 0)
  = Return None /\
  bytesWritten (dd 4 (StreamReader [(ten_bytes, None)]) fresh_writer 4 0)
  = 0 + written_sum
          (trace (dd 4 (StreamReader [(ten_bytes, None)]) fresh_writer 4 0)).
Proof.
  assert (H4 : 0 < 4) by lia.
  assert (Hin : in_int64 0) by (unfold in_int64, MinInt64, MaxInt64; lia).
  split; [exact H4|]. split; [exact Hin|]. split; [reflexivity|].
  refine (proj1 (dd_counter_is_sum_of_writes 4
                   (StreamReader [(ten_bytes, None)]) fresh_writer 0 4
                   H4 Hin _) 4%nat (le_n 4)).
  vm_compute. discriminate.
Defined.

(** ** The lock of a transfer *)

Lemma under_lock_app_false (h : bool) (a b : list access) :
  under_lock h a = false -> under_lock h (a ++ b) = false.
Proof.
  revert h. induction a as [|x a IH]; intros h H; [discriminate|].
  destruct x; cbn [under_lock app] in *; auto.
  - apply andb_false_iff in H as [H|H]; apply andb_false_iff; auto.
  - apply andb_false_iff in H as [H|H]; apply andb_false_iff; auto.
Qed.

Lemma under_lock_app_unlocked (a b : list access) :
  forallb (fun x => negb (is_lock_op x)) a = true ->
  under_lock false b = false ->
  under_lock false (a ++ b) = false.
Proof.
  induction a as [|x a IH]; intros Ha Hb; [exact Hb|].
  cbn [forallb] in Ha. apply andb_prop in Ha as [Hx Ha].
  destruct x; try discriminate; cbn [under_lock app];
    apply andb_false_iff; right; auto.
Qed.

Lemma flat_map_accesses_unlocked (tr : list event) :
  forallb (fun x => negb (is_lock_op x)) (flat_map accesses_of_event tr) = true.
Proof.
  induction tr as [|e tr IH]; [reflexivity|].
  destruct e; cbn; auto.
Qed.

(** An addition in the trace is an access to the counter outside the
    lock. *)
Lemma add_breaks_lock (tr : list event) :
  existsb is_add tr = true ->
  under_lock false (flat_map accesses_of_event tr) = false.
Proof.
  induction tr as [|e tr IH]; intros H; [discriminate|].
  destruct e; cbn in *; auto.
Qed.

Lemma existsb_is_add_app (a b : list event) :
  existsb is_add (a ++ b) = existsb is_add a || existsb is_add b.
Proof. apply existsb_app. Qed.

(** A turn that changes the counter leaves an addition in the trace, and
    additions stay in the trace. *)
Lemma dd_step_add (bs : Z) (c : dd_config) :
  (existsb is_add (trace c) = true ->
   existsb is_add (trace (dd_step bs c)) = true) /\
  (bytesWritten (dd_step bs c) <> bytesWritten c ->
   existsb is_add (trace (dd_step bs c)) = true).
Proof.
  destruct (status c) eqn:Hs.
  2,3: rewrite dd_step_ended by congruence; split; [auto|congruence].
  destruct (Read (rd c) bs) as [[d err] r'] eqn:HR.
  destruct (dd_step_turn bs c Hs d err r' HR) as (_ & Hpos & Hzero).
  pose proof (len_nonneg d) as Hd.
  destruct (Z.eq_dec (len d) 0) as [Hz|Hnz].
  - destruct (Hzero Hz) as (_ & _ & Hb & Ht). rewrite Ht, Hb.
    rewrite existsb_is_add_app. split; [intros ->; reflexivity|congruence].
  - destruct (Write (wr c) d) as [[n' werr] w'] eqn:HW.
    destruct (Hpos ltac:(lia) n' werr w' eq_refl) as (_ & H).
    destruct werr as [we|]; destruct H as (_ & Hb & Ht);
      rewrite Ht, existsb_is_add_app.
    + rewrite Hb. split; [intros ->; reflexivity|congruence].
    + cbn. rewrite orb_true_r. split; reflexivity.
Qed.

Lemma dd_loop_add (bs : Z) (c : dd_config) (k : nat) :
  existsb is_add (trace c) = true
  \/ bytesWritten (dd_loop k bs c) <> bytesWritten c ->
  existsb is_add (trace (dd_loop k bs c)) = true.
Proof.
  induction k as [|k IH].
  - cbn. intros [H|H]; [exact H|congruence].
  - rewrite dd_loop_S. intros H.
    destruct (dd_step_add bs (dd_loop k bs c)) as [Hkeep Hnew].
    destruct (Z.eq_dec (bytesWritten (dd_step bs (dd_loop k bs c)))
                       (bytesWritten (dd_loop k bs c))) as [E|E].
    + apply Hkeep, IH. destruct H as [H|H]; [now left|right; congruence].
    + now apply Hnew.
Qed.

Lemma dd_add (fuel : nat) (r : reader) (w : writer) (bs bw : Z) :
  bytesWritten (dd fuel r w bs bw) <> bw ->
  existsb is_add (trace (dd fuel r w bs bw)) = true.
Proof.
  unfold dd. destruct (bs =? 0); [cbn; congruence|].
  destruct (bs <? 0); [cbn; congruence|].
  intros H. apply dd_loop_add. right. exact H.
Qed.

Section LockFacts.
Context {os : OsConsts}.

(** C9, on the code.  The renderer and the signal handler touch the
    guarded fields of a transfer only between [Lock] and [Unlock], and
    so does the worker when it marks the transfer finished; but every
    worker whose copy loop has changed the counter of bytes
    transferred has read and written that counter outside the lock. *)
Theorem worker_counter_outside_lock
        (fuel : nat) (w : world) (t : Transfer) (now : Z) :
  Transferred (fst (fst (worker fuel w t now))) <> Transferred t ->
  under_lock false (snd (worker fuel w t now)) = false /\
  under_lock false renderer_accesses = true /\
  under_lock false signal_accesses = true.
Proof.
  intros H. split; [|split; reflexivity].
  revert H. unfold worker, doOneTransfer.
  destruct (inFile _ _ _ _ _ _ _) as [[r|e] wtotal].
  - destruct (outFile _ _ _ _ _ _) as [wtr|e].
    + set (c := dd fuel r wtr (Bs t) (Transferred t)).
      assert (Hacc : bytesWritten c <> Transferred t ->
                under_lock false
                  (match wtotal with Some _ => [AWrite FTotal] | None => [] end
                   ++ flat_map accesses_of_event (trace c)) = false).
      { intros Hne. apply dd_add in Hne. apply add_breaks_lock in Hne.
        destruct wtotal; [|exact Hne]. cbn [app under_lock]. exact Hne. }
      destruct (status c); cbn; intros H.
      * apply Hacc. exact H.
      * apply under_lock_app_false, Hacc. exact H.
      * apply Hacc. exact H.
    + cbn. congruence.
  - cbn. congruence.
Qed.
End LockFacts.

(** The 10-byte scenario: the worker ends with 10 bytes transferred, and
    its accesses break the lock discipline. *)
Lemma worker_counter_outside_lock_witness :
  Transferred
    (fst (fst (@worker linux_amd64 4 ten_byte_file_world ten_byte_transfer 7)))
  = 10 /\
  under_lock false
    (snd (@worker linux_amd64 4 ten_byte_file_world ten_byte_transfer 7))
  = false.
Proof.
  split; [reflexivity|].
  refine (proj1 (@worker_counter_outside_lock linux_amd64 4
                   ten_byte_file_world ten_byte_transfer 7 _)).
  vm_compute. discriminate.
Defined.

(** ** Configuration *)

Section ConfigurationFacts.
Context {os : OsConsts}.

(** The error of the mode parser names a token of one of the lists that
    the matching table does not hold. *)
Lemma apply_tokens_error (m : list (string * bitClearAndSet))
      (what : string) (toks : list string) (f : Z) (e : error) :
  apply_tokens m what toks f = Err e ->
  exists tok, In tok toks /\ map_lookup m tok = None
              /\ e = Errorf (what ++ tok).
Proof.
  revert f. induction toks as [|c toks IH]; cbn [apply_tokens]; intros f H.
  - discriminate.
  - destruct (map_lookup m c) as [v|] eqn:E.
    + destruct (IH _ H) as (tok & Hin & Hl & He).
      exists tok. repeat split; auto. now right.
    + exists c. injection H as <-. repeat split; auto. now left.
Qed.

Lemma parseConvOflag_error (convStr oflagStr : string) (e : error) :
  parseConvOflag convStr oflagStr = Err e ->
  exists tok,
    (In tok (strings_Split comma convStr) /\ map_lookup convMap tok = None
     /\ e = Errorf ("unknown conv=" ++ tok))
    \/
    (In tok (strings_Split comma oflagStr) /\ map_lookup flagMap tok = None
     /\ e = Errorf ("unknown oflag=" ++ tok)).
Proof.
  unfold parseConvOflag. intros H.
  destruct (String.eqb convStr "none").
  - destruct (String.eqb oflagStr "none"); [discriminate|].
    apply apply_tokens_error in H as (tok & H). exists tok. now right.
  - destruct (apply_tokens convMap _ _ 0) as [f1|e1] eqn:E1.
    + destruct (String.eqb oflagStr "none"); [discriminate|].
      apply apply_tokens_error in H as (tok & H). exists tok. now right.
    + injection H as <-.
      apply apply_tokens_error in E1 as (tok & H). exists tok. now left.
Qed.

(** The configuration loop, when no block size is fatal: one line for
    each transfer with an unknown token, one transfer for each of the
    others, in the order of the indices. *)
Lemma build_transfers_spec (l : list nat) (args : list TransferArgs)
      (clock : nat -> Z) (logged : list string) (ts : list Transfer) :
  block_sizes_parse args l ->
  build_transfers l args clock logged ts
  = Started (logged ++ flat_map (complaint_of args) l)
            (ts ++ flat_map (accepted_of args clock) l).
Proof.
  revert logged ts. induction l as [|i l IH]; intros logged ts Hbs.
  - cbn. now rewrite !app_nil_r.
  - cbn [build_transfers flat_map].
    assert (Hl : block_sizes_parse args l)
      by (intros j Hj; apply Hbs; now right).
    specialize (Hbs i (or_introl eq_refl)). cbn zeta in Hbs.
    unfold complaint_of at 1, accepted_of at 1.
    fold (is_skipped (nth (i - 1) args default_args)).
    destruct (is_skipped (nth (i - 1) args default_args)) eqn:Hsk.
    + rewrite IH by exact Hl. reflexivity.
    + destruct (Hbs eq_refl) as (bsVal & ->).
      destruct (parseConvOflag _ _) as [flags|err] eqn:Hp.
      * rewrite IH by exact Hl. cbn [app]. now rewrite <- !app_assoc.
      * rewrite IH by exact Hl. cbn [app]. now rewrite <- !app_assoc.
Qed.

Lemma configure_spec (numTransfers : Z) (args : list TransferArgs)
      (clock : nat -> Z) :
  1 <= numTransfers <= MaxTransfers ->
  block_sizes_parse args (seq 1 (Z.to_nat numTransfers)) ->
  let l := seq 1 (Z.to_nat numTransfers) in
  configure numTransfers args clock
  = match flat_map (accepted_of args clock) l with
    | [] => Exited (flat_map (complaint_of args) l) usage_text
    | ts => Started (flat_map (complaint_of args) l) ts
    end.
Proof.
  intros Hn Hbs l. unfold configure.
  destruct (numTransfers <=? 0) eqn:E1; [lia|].
  destruct (numTransfers >? MaxTransfers) eqn:E2; [lia|].
  cbn [orb]. fold l. rewrite build_transfers_spec by exact Hbs.
  cbn [app]. destruct (flat_map (accepted_of args clock) l); reflexivity.
Qed.
End ConfigurationFacts.

Section UnknownTokens.
Context {os : OsConsts}.

(** C4, amended.  An unknown token in the lists of a configured
    transfer is not fatal to the process.  When no block size is
    fatal, the error names a token of the lists that the tables do not
    hold, its line is logged for that transfer, that transfer is left
    out, and the configuration ends with the workers of the accepted
    transfers started; the process exits there, with the usage text,
    only when no transfer at all is accepted. *)
Theorem unknown_token_skips_transfer
        (numTransfers : Z) (args : list TransferArgs) (clock : nat -> Z)
        (i : nat) (e : error) :
  1 <= numTransfers <= MaxTransfers ->
  block_sizes_parse args (seq 1 (Z.to_nat numTransfers)) ->
  In i (seq 1 (Z.to_nat numTransfers)) ->
  is_skipped (nth (i - 1) args default_args) = false ->
  parseConvOflag (a_conv (nth (i - 1) args default_args))
                 (a_oflag (nth (i - 1) args default_args)) = Err e ->
  let l := seq 1 (Z.to_nat numTransfers) in
  let a := nth (i - 1) args default_args in
  (exists tok,
     (In tok (strings_Split comma (a_conv a))
      /\ map_lookup convMap tok = None
      /\ e = Errorf ("unknown conv=" ++ tok))
     \/
     (In tok (strings_Split comma (a_oflag a))
      /\ map_lookup flagMap tok = None
      /\ e = Errorf ("unknown oflag=" ++ tok))) /\
  In (conv_complaint i e) (flat_map (complaint_of args) l) /\
  accepted_of args clock i = [] /\
  configure numTransfers args clock
  = match flat_map (accepted_of args clock) l with
    | [] => Exited (flat_map (complaint_of args) l) usage_text
    | ts => Started (flat_map (complaint_of args) l) ts
    end.
Proof.
  intros Hn Hbs Hi Hsk Hp l a. split; [|split; [|split]].
  - now apply parseConvOflag_error.
  - apply in_flat_map. exists i. split; [exact Hi|].
    unfold complaint_of. rewrite Hsk, Hp. now left.
  - unfold accepted_of. rewrite Hsk, Hp.
    destruct (parseBlockSize _ _); reflexivity.
  - now apply configure_spec.
Qed.

End UnknownTokens.

Lemma bogus_block_sizes_parse :
  @block_sizes_parse [bogus_args; plain_args] (seq 1 (Z.to_nat 2)).
Proof.
  intros i Hi a _. subst a. cbn in Hi.
  destruct Hi as [<-|[<-|[]]]; eexists; reflexivity.
Qed.

(** C4 fails on the code: with the conversion [bogus] on the first of two
    transfers, the configuration logs one line and starts the second. *)
Lemma unknown_token_not_fatal :
  has_unknown_token (os := linux_amd64) bogus_args = true /\
  configure (os := linux_amd64) 2 [bogus_args; plain_args] (fun _ => 0)
  = Started
      ["Error parsing conv/oflag for transfer #1: unknown conv=bogus"]
      [new_transfer plain_args 512 0 0] /\
  ~ unknown_token_is_fatal (os := linux_amd64).
Proof.
  split; [reflexivity|]. split; [reflexivity|].
  intros H.
  destruct (H 2 [bogus_args; plain_args] (fun _ => 0)) as (logged & msg & E).
  - exists 1%nat. repeat split. now left.
  - discriminate E.
Qed.

Lemma unknown_token_skips_transfer_witness :
  In (conv_complaint 1 (Errorf "unknown conv=bogus"))
     (flat_map (complaint_of (os := linux_amd64) [bogus_args; plain_args])
               (seq 1 (Z.to_nat 2))) /\
  accepted_of (os := linux_amd64) [bogus_args; plain_args] (fun _ => 0) 1 = [].
Proof.
  pose proof (@unknown_token_skips_transfer linux_amd64 2
                [bogus_args; plain_args] (fun _ => 0) 1
                (Errorf "unknown conv=bogus")
                ltac:(unfold MaxTransfers; lia)
                bogus_block_sizes_parse
                (or_introl eq_refl) eq_refl eq_refl) as H.
  cbv zeta in H. destruct H as (_ & Hin & Hacc & _).
  split; [exact Hin | exact Hacc].
Defined.


(** ** Zero block size *)


Section SupervisorFacts.
Context {os : OsConsts}.

End SupervisorFacts.




(** ** SourceOpener *)






Lemma inFile_sequential_source (stdin : stream) (open : string -> result os_file)
      (name : string) (bs size skip count : Z) :
  is_sequential open name ->
  exists what s,
    inFile stdin open name bs size skip count
    = match (if String.eqb name "" then None else Some (open name)) with
      | Some (Ok f) =>
          match f_stat_err f with
          | Some err => (Err (Wrap ("error stating " ++ quoted name) err), None)
          | None => inFile_sequential what s bs size skip count
          end
      | _ => inFile_sequential what s bs size skip count
      end.
Proof.
  intros [->|(f & s & Hopen & Hnode)].
  - exists "error skipping stdin", stdin. reflexivity.
  - unfold inFile. destruct (String.eqb name "").
    + exists "error skipping stdin", stdin. reflexivity.
    + exists ("error skipping in " ++ quoted name)%string, s.
      rewrite Hopen, Hnode. reflexivity.
Qed.





(** The limit is reached: on a regular file that holds them, one read
    with a buffer of [n] bytes or more gives exactly the [n] bytes at
    the offset. *)
Lemma NewSectionReader_exact (c : list byte) (off n k : Z) :
  0 <= off -> 0 < n <= k -> off + n <= len c -> off + n <= MaxInt64 ->
  fst (fst (Read (NewSectionReader c off n) k)) = take n (drop off c)
  /\ len (take n (drop off c)) = n.
Proof.
  intros Hoff Hn Hlen HM.
  assert (Hs : sub64 MaxInt64 n = MaxInt64 - n).
  { apply wrap64_small. unfold in_int64, MinInt64, MaxInt64 in *. lia. }
  assert (Ha : add64 n off = n + off).
  { apply wrap64_small. unfold in_int64, MinInt64, MaxInt64 in *. lia. }
  unfold NewSectionReader. rewrite Hs, Ha.
  destruct (off <=? MaxInt64 - n) eqn:E; [|lia].
  cbn [Read]. destruct (off >=? n + off) eqn:E1; [lia|].
  replace (n + off - off) with n by lia.
  assert (Hk : (if k >? n then n else k) = n) by (destruct (k >? n) eqn:E2; lia).
  rewrite Hk. unfold file_ReadAt. destruct (off <? 0) eqn:E3; [lia|].
  cbn [fst]. split; [reflexivity|].
  rewrite len_take, len_drop. lia.
Qed.




(** ** Binary64 *)

Lemma digits2_pos_log2 (p : positive) :
  Zpos (digits2_pos p) = Z.log2 (Zpos p) + 1.
Proof.
  induction p as [p IH|p IH|].
  - cbn [digits2_pos]. rewrite Pos2Z.inj_succ, IH.
    change (Zpos p~1) with (2 * Zpos p + 1).
    rewrite Z.log2_succ_double by lia. lia.
  - cbn [digits2_pos]. rewrite Pos2Z.inj_succ, IH.
    change (Zpos p~0) with (2 * Zpos p).
    rewrite Z.log2_double by lia. lia.
  - reflexivity.
Qed.

Lemma Zdigits2_log2 (m : Z) : 0 < m -> Zdigits2 m = Z.log2 m + 1.
Proof. destruct m; try lia. intros _. apply digits2_pos_log2. Qed.

Lemma Zdigits2_nonneg (m : Z) : 0 <= Zdigits2 m.
Proof. destruct m; cbn; lia. Qed.

Lemma Zdigits2_pos (m : Z) : 0 < m -> 0 < Zdigits2 m.
Proof. destruct m; cbn; lia. Qed.

Lemma Zdigits2_shiftr (m n : Z) :
  0 <= m -> 0 <= n -> Zdigits2 (Z.shiftr m n) = Z.max 0 (Zdigits2 m - n).
Proof.
  intros Hm Hn. destruct (Z.eq_dec m 0) as [->|Hm0].
  - rewrite Z.shiftr_0_l. cbn. lia.
  - destruct (Z.eq_dec (Z.shiftr m n) 0) as [E|E].
    + rewrite E. cbn. apply Z.shiftr_eq_0_iff in E as [E|[_ E]]; [lia|].
      rewrite Zdigits2_log2 by lia. lia.
    + assert (0 <= Z.shiftr m n) by (apply Z.shiftr_nonneg; lia).
      rewrite !Zdigits2_log2 by lia.
      rewrite Z.log2_shiftr by lia.
      assert (~ Z.log2 m < n).
      { intros Hlt. apply E. apply Z.shiftr_eq_0; lia. }
      lia.
Qed.

Lemma Zdigits2_shiftl (m n : Z) :
  0 < m -> 0 <= n -> Zdigits2 (Z.shiftl m n) = Zdigits2 m + n.
Proof.
  intros Hm Hn.
  assert (0 < Z.shiftl m n).
  { rewrite Z.shiftl_mul_pow2 by lia. apply Z.mul_pos_pos; [lia|].
    apply Z.pow_pos_nonneg; lia. }
  rewrite !Zdigits2_log2 by lia. rewrite Z.log2_shiftl by lia. lia.
Qed.

Lemma Zdigits2_le (a b : Z) : 0 <= a <= b -> Zdigits2 a <= Zdigits2 b.
Proof.
  intros [Ha Hab]. destruct (Z.eq_dec a 0) as [->|Ha0].
  - cbn. apply Zdigits2_nonneg.
  - rewrite !Zdigits2_log2 by lia.
    pose proof (Z.log2_le_mono a b Hab). lia.
Qed.

Lemma Zdigits2_mul (a b : Z) :
  0 < a -> 0 < b -> Zdigits2 (a * b) <= Zdigits2 a + Zdigits2 b.
Proof.
  intros Ha Hb. rewrite !Zdigits2_log2 by nia.
  pose proof (Z.log2_mul_above a b ltac:(lia) ltac:(lia)). lia.
Qed.

Lemma Zdigits2_succ (a : Z) : 0 <= a -> Zdigits2 (a + 1) <= Zdigits2 a + 1.
Proof.
  intros Ha. destruct (Z.eq_dec a 0) as [->|Ha0]; [cbn; lia|].
  rewrite !Zdigits2_log2 by lia.
  pose proof (Z.log2_succ_or a).
  change (Z.succ a) with (a + 1) in *.
  destruct H; lia.
Qed.

(** value bound *)
Lemma Zdigits2_bound (m : Z) : 0 <= m -> m < 2 ^ Zdigits2 m.
Proof.
  intros Hm. destruct (Z.eq_dec m 0) as [->|Hm0]; [cbn; lia|].
  rewrite Zdigits2_log2 by lia.
  pose proof (Z.log2_spec m ltac:(lia)). 
  replace (Z.log2 m + 1) with (Z.succ (Z.log2 m)) by lia. lia.
Qed.

(** shr *)
Lemma shr_1_m (mrs : shr_record) :
  0 <= shr_m mrs -> shr_m (shr_1 mrs) = Z.shiftr (shr_m mrs) 1.
Proof.
  destruct mrs as [m r s]. cbn [shr_m]. intros Hm.
  rewrite Z.shiftr_div_pow2 by lia. change (2 ^ 1) with 2.
  destruct m as [|[p|p|]|p]; cbn [shr_1 shr_m]; try lia;
    first [ reflexivity
          | apply Z.div_unique with 1; lia
          | apply Z.div_unique with 0; lia ].
Qed.

Lemma iter_pos_shr_1 (p : positive) (mrs : shr_record) :
  0 <= shr_m mrs ->
  shr_m (iter_pos shr_1 p mrs) = Z.shiftr (shr_m mrs) (Zpos p).
Proof.
  revert mrs. induction p as [p IH|p IH|]; intros mrs Hm; cbn [iter_pos].
  - assert (H1 : 0 <= shr_m (shr_1 mrs))
      by (rewrite shr_1_m by lia; apply Z.shiftr_nonneg; lia).
    assert (H2 : 0 <= shr_m (iter_pos shr_1 p (shr_1 mrs)))
      by (rewrite IH by lia; apply Z.shiftr_nonneg; lia).
    rewrite IH, IH, shr_1_m by lia.
    rewrite !Z.shiftr_shiftr by lia. f_equal. lia.
  - assert (H2 : 0 <= shr_m (iter_pos shr_1 p mrs))
      by (rewrite IH by lia; apply Z.shiftr_nonneg; lia).
    rewrite IH, IH by lia.
    rewrite !Z.shiftr_shiftr by lia. f_equal. lia.
  - now apply shr_1_m.
Qed.

Lemma shr_spec (mrs : shr_record) (e n : Z) :
  0 <= shr_m mrs ->
  shr_m (fst (shr mrs e n)) = Z.shiftr (shr_m mrs) (Z.max 0 n) /\
  snd (shr mrs e n) = e + Z.max 0 n.
Proof.
  intros Hm. destruct n as [|p|p]; cbn [shr fst snd].
  - rewrite Z.shiftr_0_r. split; lia.
  - rewrite iter_pos_shr_1 by lia. split; [f_equal; lia|lia].
  - rewrite Z.shiftr_0_r. split; lia.
Qed.

Lemma fexp_64 (x : Z) : fexp prec emax x = fexp64 x.
Proof. reflexivity. Qed.

Lemma shr_record_of_loc_m (m : Z) (l : location) :
  shr_m (shr_record_of_loc m l) = m.
Proof. destruct l as [|[| |]]; reflexivity. Qed.

Lemma shr_fexp_spec (m e : Z) (l : location) :
  0 <= m ->
  let n := Z.max 0 (fexp64 (Zdigits2 m + e) - e) in
  shr_m (fst (shr_fexp prec emax m e l)) = Z.shiftr m n /\
  snd (shr_fexp prec emax m e l) = e + n.
Proof.
  intros Hm n. unfold shr_fexp. rewrite fexp_64.
  pose proof (shr_spec (shr_record_of_loc m l) e
                (fexp64 (Zdigits2 m + e) - e)) as H.
  rewrite shr_record_of_loc_m in H. apply H. exact Hm.
Qed.

Lemma round_nearest_even_cases (m : Z) (l : location) :
  round_nearest_even m l = m \/ round_nearest_even m l = m + 1.
Proof.
  destruct l as [|[| |]]; cbn; auto. destruct (Z.even m); auto.
Qed.

(** The two shifts and the rounding of [binary_round_aux], on a mantissa
    that is not negative. *)
Lemma binary_round_aux_spec (s : bool) (m e : Z) (l : location) :
  0 <= m ->
  let n1 := Z.max 0 (fexp64 (Zdigits2 m + e) - e) in
  let m1 := Z.shiftr m n1 in
  let e1 := e + n1 in
  exists mr,
    (mr = m1 \/ mr = m1 + 1) /\
    let n2 := Z.max 0 (fexp64 (Zdigits2 mr + e1) - e1) in
    let m2 := Z.shiftr mr n2 in
    let e2 := e1 + n2 in
    0 <= m2 /\
    binary_round_aux prec emax s m e l
    = match m2 with
      | Z0 => S754_zero s
      | Zpos p => if e2 <=? 971 then S754_finite s p e2 else S754_infinity s
      | Zneg _ => S754_nan
      end.
Proof.
  intros Hm n1 m1 e1. unfold binary_round_aux.
  destruct (shr_fexp_spec m e l Hm) as [Hm1 He1].
  destruct (shr_fexp prec emax m e l) as [mrs' e'] eqn:E1.
  cbn [fst snd] in Hm1, He1. fold n1 in Hm1, He1. fold m1 in Hm1. fold e1 in He1.
  set (mr := round_nearest_even (shr_m mrs') (loc_of_shr_record mrs')).
  assert (Hm1' : 0 <= m1) by (apply Z.shiftr_nonneg; exact Hm).
  assert (Hmr : mr = m1 \/ mr = m1 + 1).
  { unfold mr. rewrite Hm1. apply round_nearest_even_cases. }
  assert (Hmr0 : 0 <= mr) by (destruct Hmr; lia).
  exists mr. split; [exact Hmr|]. cbv zeta.
  destruct (shr_fexp_spec mr e' loc_Exact Hmr0) as [Hm2 He2].
  destruct (shr_fexp prec emax mr e' loc_Exact) as [mrs'' e''] eqn:E2.
  cbn [fst snd] in Hm2, He2. subst e'.
  split; [apply Z.shiftr_nonneg; exact Hmr0|].
  rewrite Hm2, He2. reflexivity.
Qed.

Lemma digits_after_rounding (mr e1 : Z) :
  0 <= mr ->
  Zdigits2 (Z.shiftr mr (Z.max 0 (fexp64 (Zdigits2 mr + e1) - e1))) <= 53.
Proof.
  intros Hmr. rewrite Zdigits2_shiftr by lia.
  unfold fexp64 in *. lia.
Qed.

Lemma binary_round_aux_signed (s : bool) (m e : Z) (l : location) :
  0 <= m -> signed_as s (binary_round_aux prec emax s m e l).
Proof.
  intros Hm.
  destruct (binary_round_aux_spec s m e l Hm) as (mr & Hmr & H).
  cbv zeta in H. destruct H as [Hm2 ->].
  set (e1 := e + Z.max 0 (fexp64 (Zdigits2 m + e) - e)) in *.
  set (n2 := Z.max 0 (fexp64 (Zdigits2 mr + e1) - e1)) in *.
  assert (Hmr0 : 0 <= mr).
  { pose proof (Z.shiftr_nonneg m (Z.max 0 (fexp64 (Zdigits2 m + e) - e))).
    destruct Hmr; lia. }
  pose proof (digits_after_rounding mr e1 Hmr0) as Hd.
  fold n2 in Hd.
  destruct (Z.shiftr mr n2) as [|p|p] eqn:E; [constructor| |lia].
  destruct (e1 + n2 <=? 971); constructor. exact Hd.
Qed.

Lemma fexp64_succ (x : Z) : fexp64 (x + 1) <= fexp64 x + 1.
Proof. unfold fexp64. lia. Qed.

Lemma fexp64_mono (x y : Z) : x <= y -> fexp64 x <= fexp64 y.
Proof. unfold fexp64. lia. Qed.

(** A rounding that does not underflow or overflow gives a finite
    number, whose size is known. *)
Lemma binary_round_aux_finite (s : bool) (m e : Z) (l : location) :
  0 < m ->
  Z.max 0 (fexp64 (Zdigits2 m + e) - e) + 2 <= Zdigits2 m ->
  Z.max e (fexp64 (Zdigits2 m + e)) + 1 <= 971 ->
  exists m' e',
    binary_round_aux prec emax s m e l = S754_finite s m' e' /\
    Zdigits2 (Zpos m') <= 53 /\
    e' <= Z.max e (fexp64 (Zdigits2 m + e)) + 1 /\
    Zdigits2 (Zpos m') + e' <= Zdigits2 m + e + 1.
Proof.
  intros Hm Hd He.
  destruct (binary_round_aux_spec s m e l ltac:(lia)) as (mr & Hmr & H).
  cbv zeta in H. destruct H as [Hm2 ->].
  set (n1 := Z.max 0 (fexp64 (Zdigits2 m + e) - e)) in *.
  set (m1 := Z.shiftr m n1) in *. set (e1 := e + n1) in *.
  set (n2 := Z.max 0 (fexp64 (Zdigits2 mr + e1) - e1)) in *.
  assert (Hd1 : Zdigits2 m1 = Zdigits2 m - n1).
  { unfold m1. rewrite Zdigits2_shiftr by lia. lia. }
  assert (Hm1 : 0 < m1).
  { destruct (Z.eq_dec m1 0) as [E|E].
    - rewrite E in Hd1. cbn in Hd1. lia.
    - assert (0 <= m1) by (apply Z.shiftr_nonneg; lia). lia. }
  assert (Hmr0 : 0 < mr) by (destruct Hmr; lia).
  assert (Hdr : Zdigits2 m1 <= Zdigits2 mr <= Zdigits2 m1 + 1).
  { destruct Hmr as [->| ->]; [lia|]. split.
    - apply Zdigits2_le. lia.
    - apply Zdigits2_succ. lia. }
  assert (Hn2 : n2 <= 1).
  { unfold n2.
    pose proof (fexp64_mono (Zdigits2 mr + e1) (Zdigits2 m + e + 1)
                  ltac:(unfold e1; lia)).
    pose proof (fexp64_succ (Zdigits2 m + e)). unfold e1, n1 in *. lia. }
  assert (Hd2 : Zdigits2 (Z.shiftr mr n2) = Zdigits2 mr - n2).
  { rewrite Zdigits2_shiftr by lia. lia. }
  pose proof (digits_after_rounding mr e1 ltac:(lia)) as H53. fold n2 in H53.
  destruct (Z.shiftr mr n2) as [|p|p] eqn:E.
  - cbn in Hd2. lia.
  - exists p, (e1 + n2).
    assert (He2 : e1 + n2 <= Z.max e (fexp64 (Zdigits2 m + e)) + 1)
      by (unfold e1, n1; lia).
    destruct (e1 + n2 <=? 971) eqn:E9; [|lia].
    repeat split; try assumption. rewrite Hd2. unfold e1. lia.
  - lia.
Qed.

(** A rounding of a small enough value never overflows. *)
Lemma binary_round_aux_bounded (s : bool) (m e : Z) (l : location) :
  0 <= m ->
  Z.max e (fexp64 (Zdigits2 m + e)) + 1 <= 971 ->
  binary_round_aux prec emax s m e l = S754_zero s \/
  exists m' e',
    binary_round_aux prec emax s m e l = S754_finite s m' e' /\
    Zdigits2 (Zpos m') <= 53 /\
    e' <= Z.max e (fexp64 (Zdigits2 m + e)) + 1 /\
    Zdigits2 (Zpos m') + e' <= Z.max (Zdigits2 m + e) (-1074) + 1.
Proof.
  intros Hm He.
  destruct (binary_round_aux_spec s m e l Hm) as (mr & Hmr & H).
  cbv zeta in H. destruct H as [Hm2 ->].
  set (n1 := Z.max 0 (fexp64 (Zdigits2 m + e) - e)) in *.
  set (m1 := Z.shiftr m n1) in *. set (e1 := e + n1) in *.
  set (n2 := Z.max 0 (fexp64 (Zdigits2 mr + e1) - e1)) in *.
  assert (Hd1 : Zdigits2 m1 = Z.max 0 (Zdigits2 m - n1)).
  { unfold m1. rewrite Zdigits2_shiftr by lia. lia. }
  assert (Hm1 : 0 <= m1) by (apply Z.shiftr_nonneg; lia).
  assert (Hmr0 : 0 <= mr) by (destruct Hmr; lia).
  assert (Hdr : Zdigits2 mr <= Zdigits2 m1 + 1).
  { destruct Hmr as [->| ->]; [lia|]. apply Zdigits2_succ. lia. }
  pose proof (Zdigits2_nonneg m) as Hdm.
  assert (Hn2 : n2 <= 1).
  { unfold n2.
    assert (Zdigits2 mr + e1 <= Z.max (Zdigits2 m + e) e1 + 1)
      by (unfold e1 in *; lia).
    pose proof (fexp64_mono _ _ H).
    pose proof (fexp64_succ (Z.max (Zdigits2 m + e) e1)).
    assert (fexp64 (Z.max (Zdigits2 m + e) e1) <= e1).
    { unfold fexp64, e1, n1 in *. unfold fexp64. lia. }
    lia. }
  assert (Hd2 : Zdigits2 (Z.shiftr mr n2) = Z.max 0 (Zdigits2 mr - n2)).
  { rewrite Zdigits2_shiftr by lia. lia. }
  pose proof (digits_after_rounding mr e1 ltac:(lia)) as H53. fold n2 in H53.
  destruct (Z.shiftr mr n2) as [|p|p] eqn:E.
  - now left.
  - right. exists p, (e1 + n2).
    assert (He2 : e1 + n2 <= Z.max e (fexp64 (Zdigits2 m + e)) + 1)
      by (unfold e1, n1; lia).
    destruct (e1 + n2 <=? 971) eqn:E9; [|lia].
    repeat split; try assumption.
    assert (0 < Zdigits2 (Z.pos p)) by (apply Zdigits2_pos; lia).
    rewrite Hd2. unfold e1, n1, fexp64 in *. lia.
  - lia.
Qed.

Lemma Pos_iter_xO (p k : positive) :
  Zpos (Pos.iter xO p k) = Z.shiftl (Zpos p) (Zpos k).
Proof.
  rewrite Z.shiftl_mul_pow2 by lia.
  apply (Pos.iter_ind _ xO p (fun k a => Zpos a = Zpos p * 2 ^ Zpos k)).
  - rewrite Pos2Z.inj_xO. change (2 ^ 1) with 2. lia.
  - intros q a IH. rewrite Pos2Z.inj_xO, IH, Pos2Z.inj_succ.
    rewrite Z.pow_succ_r by lia. lia.
Qed.

Lemma shl_align_spec (mx : positive) (ex ex' : Z) :
  Zpos (fst (shl_align mx ex ex')) = Z.shiftl (Zpos mx) (Z.max 0 (ex - ex')) /\
  snd (shl_align mx ex ex') = Z.min ex ex'.
Proof.
  unfold shl_align. destruct (ex' - ex) as [|d|d] eqn:E; cbn [fst snd].
  - replace (Z.max 0 (ex - ex')) with 0 by lia. rewrite Z.shiftl_0_r. lia.
  - replace (Z.max 0 (ex - ex')) with 0 by lia. rewrite Z.shiftl_0_r. lia.
  - rewrite Pos_iter_xO. replace (Z.max 0 (ex - ex')) with (Zpos d) by lia.
    split; [reflexivity|lia].
Qed.

(** The conversion of an integer that is not negative is never NaN and
    never negative. *)
Lemma float64_of_int_signed (z : Z) :
  0 <= z -> signed_as false (float64_of_int z).
Proof.
  intros Hz. unfold float64_of_int, binary_normalize.
  destruct z as [|p|p]; [constructor| |lia].
  unfold binary_round.
  destruct (shl_align p 0 _) as [mz ez].
  apply binary_round_aux_signed. lia.
Qed.

(** The conversion of a positive [int64] is a finite number. *)
Lemma float64_of_int_finite (z : Z) :
  0 < z < 2 ^ 64 ->
  exists m e, float64_of_int z = S754_finite false m e /\
              Zdigits2 (Zpos m) <= 53.
Proof.
  intros Hz. unfold float64_of_int, binary_normalize.
  destruct z as [|p|p]; try lia.
  unfold binary_round. rewrite fexp_64.
  set (d := Zdigits2 (Zpos p)).
  assert (Hd : 1 <= d <= 64).
  { unfold d. rewrite Zdigits2_log2 by lia.
    pose proof (Z.log2_nonneg (Zpos p)).
    assert (Z.log2 (Zpos p) < 64) by (apply Z.log2_lt_pow2; lia). lia. }
  change (Z.pos (digits2_pos p)) with d.
  destruct (shl_align_spec p 0 (fexp64 (d + 0))) as [Hmz Hez].
  destruct (shl_align p 0 (fexp64 (d + 0))) as [mz ez].
  cbn [fst snd] in Hmz, Hez.
  assert (Hf : fexp64 (d + 0) = d - 53) by (unfold fexp64; lia).
  rewrite Hf in *.
  assert (Hdz : Zdigits2 (Zpos mz) = Z.max d 53).
  { rewrite Hmz, Zdigits2_shiftl by lia. fold d. lia. }
  destruct (binary_round_aux_finite false (Zpos mz) ez loc_Exact)
    as (m' & e' & -> & Hd' & _).
  - lia.
  - rewrite Hdz. unfold fexp64. lia.
  - rewrite Hdz. unfold fexp64. lia.
  - eauto.
Qed.

Lemma SFdiv_core_spec (m1 e1 m2 e2 : Z) :
  0 < m1 -> 0 < m2 ->
  let '(q, e', l) := SFdiv_core_binary prec emax m1 e1 m2 e2 in
  0 <= q /\ e' <= e1 - e2 /\ Zdigits2 q + e' <= Zdigits2 m1 + e1 - e2.
Proof.
  intros H1 H2. unfold SFdiv_core_binary.
  set (e' := Z.min _ _).
  assert (He' : e' <= e1 - e2) by (unfold e'; lia).
  remember (e1 - e2 - e') as s eqn:Es.
  assert (Hs : 0 <= s) by lia.
  set (m' := match s with Z.pos _ => Z.shiftl m1 s | Z0 => m1 | Z.neg _ => 0 end).
  assert (Hm' : m' = Z.shiftl m1 s).
  { unfold m'. destruct s as [|k|k]; [now rewrite Z.shiftl_0_r|reflexivity|lia]. }
  assert (Hm'0 : 0 < m').
  { rewrite Hm', Z.shiftl_mul_pow2 by lia.
    apply Z.mul_pos_pos; [lia|apply Z.pow_pos_nonneg; lia]. }
  pose proof (Z_div_mod m' m2 ltac:(lia)) as Hdm.
  destruct (Z.div_eucl m' m2) as [q r]. destruct Hdm as [Hq Hr].
  assert (Hq0 : 0 <= q) by nia.
  assert (Hqm : q <= m') by nia.
  split; [exact Hq0|]. split; [exact He'|].
  pose proof (Zdigits2_le q m' ltac:(lia)) as Hle.
  rewrite Hm', Zdigits2_shiftl in Hle by lia. lia.
Qed.

(** Division and multiplication by a finite positive number keep a number
    that is not negative so. *)
Lemma SFdiv_signed (a : spec_float) (m : positive) (e : Z) :
  signed_as false a ->
  signed_as false (SFdiv prec emax a (S754_finite false m e)).
Proof.
  intros Ha. destruct Ha as [|ma ea Hda|]; cbn [SFdiv xorb]; try constructor.
  pose proof (SFdiv_core_spec (Zpos ma) ea (Zpos m) e ltac:(lia) ltac:(lia)) as H.
  destruct (SFdiv_core_binary prec emax (Zpos ma) ea (Zpos m) e) as [[q e'] l].
  apply binary_round_aux_signed. lia.
Qed.

Lemma SFmul_signed (a : spec_float) (m : positive) (e : Z) :
  signed_as false a ->
  signed_as false (SFmul prec emax a (S754_finite false m e)).
Proof.
  intros Ha. destruct Ha as [|ma ea Hda|]; cbn [SFmul xorb]; try constructor.
  apply binary_round_aux_signed. lia.
Qed.

Lemma SFcompare_antisym (a b : spec_float) :
  SFcompare b a = option_map CompOpp (SFcompare a b).
Proof.
  destruct a as [sa|sa| |sa ma ea], b as [sb|sb| |sb mb eb];
    try destruct sa; try destruct sb; try reflexivity;
    cbn [SFcompare option_map];
    rewrite (Z.compare_antisym ea eb);
    destruct (ea ?= eb); cbn [CompOpp]; try reflexivity;
    rewrite (Pos.compare_cont_antisym ma mb Eq); reflexivity.
Qed.

Lemma SFltb_false_SFleb (a b : spec_float) :
  a <> S754_nan -> b <> S754_nan ->
  SFltb a b = false -> SFleb b a = true.
Proof.
  intros Ha Hb. unfold SFltb, SFleb. rewrite (SFcompare_antisym a b).
  destruct (SFcompare a b) as [[| |]|] eqn:E; cbn; try congruence.
  exfalso. destruct a, b; try congruence; cbn in E; discriminate.
Qed.

Lemma signed_as_not_nan (s : bool) (a : spec_float) :
  signed_as s a -> a <> S754_nan.
Proof. intros []; discriminate. Qed.

Lemma SFleb_zero_signed (a : spec_float) :
  signed_as false a -> SFleb (S754_zero false) a = true.
Proof. intros []; reflexivity. Qed.

Lemma shiftl_bound (m : positive) (e B : Z) :
  Zdigits2 (Zpos m) <= 53 -> Zdigits2 (Zpos m) + e <= B -> 53 <= B ->
  0 <= Z.shiftl (Zpos m) e < 2 ^ B.
Proof.
  intros Hd HB H53.
  pose proof (Zdigits2_bound (Zpos m) ltac:(lia)) as Hm.
  pose proof (Zdigits2_pos (Zpos m) ltac:(lia)) as Hp.
  destruct (Z_le_gt_dec 0 e) as [He|He].
  - rewrite Z.shiftl_mul_pow2 by lia. split; [nia|].
    apply Z.lt_le_trans with (2 ^ Zdigits2 (Zpos m) * 2 ^ e).
    + apply Z.mul_lt_mono_pos_r; [apply Z.pow_pos_nonneg; lia|lia].
    + rewrite <- Z.pow_add_r by lia. apply Z.pow_le_mono_r; lia.
  - rewrite <- (Z.opp_involutive e), Z.shiftl_opp_r.
    rewrite Z.shiftr_div_pow2 by lia.
    assert (0 < 2 ^ (- e)) by (apply Z.pow_pos_nonneg; lia).
    split; [apply Z.div_pos; lia|].
    apply Z.le_lt_trans with (Zpos m).
    + apply Z.div_le_upper_bound; [lia|]. nia.
    + apply Z.lt_le_trans with (2 ^ Zdigits2 (Zpos m)); [lia|].
      apply Z.pow_le_mono_r; lia.
Qed.

(** What [pct/100*50] can be for a percentage up to 100: zero or a finite
    number under 2^61 that is not negative. *)
Lemma bar_value_shape (pct : spec_float) :
  signed_as false pct -> SFltb f100 pct = false ->
  let x := SFmul prec emax (SFdiv prec emax pct f100) f_barWidth in
  x = S754_zero false \/
  exists mx ex, x = S754_finite false mx ex /\
                Zdigits2 (Zpos mx) <= 53 /\ Zdigits2 (Zpos mx) + ex <= 61.
Proof.
  intros Hp Hle x. subst x. destruct Hp as [|m e Hd|].
  - left. reflexivity.
  - assert (He : e <= -46).
    { unfold SFltb, f100 in Hle. cbn [SFcompare] in Hle.
      destruct (Z.compare_spec (-46) e); first [lia | discriminate]. }
    unfold f100. cbn [SFdiv xorb].
    pose proof (SFdiv_core_spec (Zpos m) e 7036874417766400 (-46)
                  ltac:(lia) ltac:(lia)) as Hc.
    destruct (SFdiv_core_binary prec emax (Zpos m) e 7036874417766400 (-46))
      as [[q e'] l].
    destruct Hc as (Hq & He' & Hm0).
    assert (Hc1 : Z.max e' (fexp64 (Zdigits2 q + e')) + 1 <= 971)
      by (unfold fexp64; lia).
    destruct (binary_round_aux_bounded false q e' l Hq Hc1)
      as [->|(m1 & e1 & -> & Hd1 & He1 & Hm1)].
    + left. reflexivity.
    + unfold f_barWidth. cbn [SFmul xorb].
      assert (Hprod : Zdigits2 (Zpos (m1 * 7036874417766400))
                      <= Zdigits2 (Zpos m1) + 53).
      { rewrite Pos2Z.inj_mul.
        pose proof (Zdigits2_mul (Zpos m1) 7036874417766400
                      ltac:(lia) ltac:(lia)) as H.
        change (Zdigits2 7036874417766400) with 53 in H. exact H. }
      unfold fexp64 in He1, Hm1.
      assert (Hc2 : Z.max (e1 + -47)
                      (fexp64 (Zdigits2 (Zpos (m1 * 7036874417766400))
                               + (e1 + -47))) + 1 <= 971)
        by (unfold fexp64; lia).
      destruct (binary_round_aux_bounded false (Zpos (m1 * 7036874417766400))
                  (e1 + -47) loc_Exact ltac:(lia) Hc2)
        as [->|(mx & ex & -> & Hdx & Hex & Hmx)].
      * left. reflexivity.
      * right. exists mx, ex. split; [reflexivity|]. split; [exact Hdx|].
        unfold fexp64 in *. lia.
  - discriminate.
Qed.

Lemma shiftr_mul_le (m n : Z) : 0 <= m -> 0 <= n -> Z.shiftr m n * 2 ^ n <= m.
Proof.
  intros Hm Hn. rewrite Z.shiftr_div_pow2 by lia.
  assert (0 < 2 ^ n) by (apply Z.pow_pos_nonneg; lia).
  rewrite Z.mul_comm. apply Z.mul_div_le. lia.
Qed.

(** The value of a rounded number is at most the value rounded plus one
    unit of the place the first shift reaches. *)
Lemma binary_round_aux_value (s : bool) (m e : Z) (l : location)
      (m' : positive) (e' : Z) :
  0 <= m ->
  binary_round_aux prec emax s m e l = S754_finite s m' e' ->
  let n1 := Z.max 0 (fexp64 (Zdigits2 m + e) - e) in
  exists k, n1 <= k /\ e' = e + k /\ Zpos m' * 2 ^ k <= m + 2 ^ n1.
Proof.
  intros Hm Hr n1.
  destruct (binary_round_aux_spec s m e l Hm) as (mr & Hmr & H).
  cbv zeta in H. destruct H as [Hm2 Heq]. rewrite Hr in Heq.
  fold n1 in Hmr, Hm2, Heq.
  set (m1 := Z.shiftr m n1) in *. set (e1 := e + n1) in *.
  set (n2 := Z.max 0 (fexp64 (Zdigits2 mr + e1) - e1)) in *.
  assert (Hm1 : 0 <= m1) by (apply Z.shiftr_nonneg; lia).
  assert (Hmr0 : 0 <= mr) by (destruct Hmr; lia).
  pose proof (shiftr_mul_le m n1 Hm ltac:(lia)) as H1. fold m1 in H1.
  pose proof (shiftr_mul_le mr n2 Hmr0 ltac:(lia)) as H2.
  destruct (Z.shiftr mr n2) as [|p|p] eqn:E; try discriminate.
  destruct (e1 + n2 <=? 971); try discriminate.
  injection Heq as Hp He'. subst m' e'.
  exists (n1 + n2). split; [lia|]. split; [unfold e1; lia|].
  rewrite Z.pow_add_r by lia.
  assert (0 < 2 ^ n1) by (apply Z.pow_pos_nonneg; lia).
  assert (0 < 2 ^ n2) by (apply Z.pow_pos_nonneg; lia).
  assert (Z.pos p * 2 ^ n2 <= m1 + 1) by (destruct Hmr; lia).
  nia.
Qed.

Lemma Zdigits2_below (q B : Z) : 0 <= q < 2 ^ B -> 0 <= B -> Zdigits2 q <= B.
Proof.
  intros [Hq Hlt] HB. destruct (Z.eq_dec q 0) as [->|Hq0]; [cbn; lia|].
  rewrite Zdigits2_log2 by lia.
  assert (Z.log2 q < B) by (apply Z.log2_lt_pow2; lia). lia.
Qed.

Lemma SFdiv_core_value (m1 e1 m2 e2 : Z) :
  0 < m1 -> 0 < m2 ->
  let '(q, e', l) := SFdiv_core_binary prec emax m1 e1 m2 e2 in
  0 <= q /\
  e' = Z.min (fexp64 (Zdigits2 m1 + e1 - (Zdigits2 m2 + e2))) (e1 - e2) /\
  q * m2 <= m1 * 2 ^ (e1 - e2 - e').
Proof.
  intros H1 H2. unfold SFdiv_core_binary. rewrite fexp_64.
  set (e' := Z.min _ _).
  assert (He' : e' <= e1 - e2) by (unfold e'; lia).
  remember (e1 - e2 - e') as s eqn:Es.
  assert (Hs : 0 <= s) by lia.
  set (m' := match s with Z.pos _ => Z.shiftl m1 s | Z0 => m1 | Z.neg _ => 0 end).
  assert (Hm' : m' = m1 * 2 ^ s).
  { unfold m'. destruct s as [|k|k]; [cbn; lia| |lia].
    rewrite Z.shiftl_mul_pow2 by lia. reflexivity. }
  assert (Hm'0 : 0 < m').
  { rewrite Hm'. apply Z.mul_pos_pos; [lia|apply Z.pow_pos_nonneg; lia]. }
  pose proof (Z_div_mod m' m2 ltac:(lia)) as Hdm.
  destruct (Z.div_eucl m' m2) as [q r]. destruct Hdm as [Hq Hr].
  split; [nia|]. split; [reflexivity|]. rewrite <- Es, <- Hm'. nia.
Qed.

(** A percentage up to 100 fills at most 50 cells: [pct/100*50], rounded
    twice, stays under 51. *)
Lemma bar_value_le (m : positive) (e : Z) :
  Zdigits2 (Zpos m) <= 53 ->
  SFltb f100 (S754_finite false m e) = false ->
  forall mx ex,
    SFmul prec emax (SFdiv prec emax (S754_finite false m e) f100) f_barWidth
    = S754_finite false mx ex ->
    Z.shiftl (Zpos mx) ex <= 50.
Proof.
  intros Hd Hle mx ex Hx.
  (* the percentage is at most 100 *)
  assert (Hpct : e <= -47 \/ (e = -46 /\ Zpos m <= 7036874417766400)).
  { unfold SFltb, f100 in Hle. cbn [SFcompare] in Hle.
    destruct (Z.compare_spec (-46) e) as [E|E|E]; [|discriminate|lia].
    right. split; [lia|].
    change (Pos.compare_cont Eq 7036874417766400 m)
      with (Pos.compare 7036874417766400 m) in Hle.
    rewrite Pos2Z.inj_compare in Hle.
    destruct (Z.compare_spec 7036874417766400 (Zpos m)); [lia|discriminate|lia]. }
  pose proof (Zdigits2_bound (Zpos m) ltac:(lia)) as Hm53.
  assert (Hm53' : Zpos m < 2 ^ 53).
  { eapply Z.lt_le_trans; [exact Hm53|]. apply Z.pow_le_mono_r; lia. }
  pose proof (Zdigits2_pos (Zpos m) ltac:(lia)) as Hdpos.
  (* the division *)
  unfold f100 in Hx. cbn [SFdiv xorb] in Hx.
  pose proof (SFdiv_core_value (Zpos m) e 7036874417766400 (-46)
                ltac:(lia) ltac:(lia)) as Hc.
  destruct (SFdiv_core_binary prec emax (Zpos m) e 7036874417766400 (-46))
    as [[q e'] l].
  destruct Hc as (Hq & He' & Hqm).
  change (Zdigits2 7036874417766400) with 53 in He'.
  set (E := - e').
  assert (HE : 53 <= E) by (unfold E, fexp64 in *; lia).
  assert (Hs : e - -46 - e' = e + 46 + E) by (unfold E; lia).
  rewrite Hs in Hqm.
  assert (HPE : 0 < 2 ^ E) by (apply Z.pow_pos_nonneg; lia).
  assert (Hq1 : q <= 2 ^ E).
  { destruct Hpct as [He|[He Hm]].
    - assert (2 ^ (e + 46 + E) * 2 <= 2 ^ E).
      { replace (2 ^ (e + 46 + E) * 2) with (2 ^ (e + 46 + E + 1))
          by (rewrite Z.pow_add_r by (unfold E, fexp64 in *; lia); lia).
        apply Z.pow_le_mono_r; lia. }
      assert (0 < 2 ^ (e + 46 + E))
        by (apply Z.pow_pos_nonneg; unfold E, fexp64 in *; lia).
      nia.
    - subst e. replace (-46 + 46 + E) with E in Hqm by lia. nia. }
  assert (Hdq : Zdigits2 q <= E + 1).
  { apply Zdigits2_below; [|lia]. split; [lia|].
    rewrite Z.pow_add_r by lia. lia. }
  (* the first rounding *)
  assert (Hc1 : Z.max e' (fexp64 (Zdigits2 q + e')) + 1 <= 971)
    by (unfold fexp64, E in *; lia).
  destruct (binary_round_aux_bounded false q e' l Hq Hc1)
    as [H0|(m1 & e1 & H1 & Hd1 & He1 & Hm1)].
  { rewrite H0 in Hx. discriminate. }
  pose proof (binary_round_aux_value false q e' l m1 e1 Hq H1) as Hv1.
  cbv zeta in Hv1. destruct Hv1 as (k1 & Hk1 & He1k & Hv1).
  rewrite H1 in Hx. unfold f_barWidth in Hx. cbn [SFmul xorb] in Hx.
  set (n1 := Z.max 0 (fexp64 (Zdigits2 q + e') - e')) in *.
  assert (Hn1 : n1 <= E - 52) by (unfold n1, fexp64, E in *; lia).
  set (P := 2 ^ (E - 52)).
  assert (HP : 0 < P) by (apply Z.pow_pos_nonneg; lia).
  assert (HE52 : 2 ^ E = P * 2 ^ 52).
  { unfold P. rewrite <- Z.pow_add_r by lia. f_equal. lia. }
  assert (Hpn1 : 2 ^ n1 <= P) by (apply Z.pow_le_mono_r; lia).
  assert (Hv1' : Zpos m1 * 2 ^ k1 <= P * 2 ^ 52 + P) by lia.
  assert (Hk1E : Zdigits2 (Zpos m1) + k1 <= E + 1).
  { assert (Hk0 : 0 <= k1) by (unfold n1 in *; lia).
    rewrite <- Zdigits2_shiftl by lia.
    apply Zdigits2_below; [|lia].
    rewrite Z.shiftl_mul_pow2 by lia. split; [nia|].
    replace (2 ^ (E + 1)) with (P * 2 ^ 53).
    - lia.
    - unfold P. rewrite <- Z.pow_add_r by lia. f_equal. lia. }
  pose proof (Zdigits2_pos (Zpos m1) ltac:(lia)) as Hd1pos.
  (* the multiplication and the second rounding *)
  assert (Hprod : Zdigits2 (Zpos (m1 * 7036874417766400))
                  <= Zdigits2 (Zpos m1) + 53).
  { rewrite Pos2Z.inj_mul.
    pose proof (Zdigits2_mul (Zpos m1) 7036874417766400
                  ltac:(lia) ltac:(lia)) as H.
    change (Zdigits2 7036874417766400) with 53 in H. exact H. }
  pose proof (binary_round_aux_value false (Zpos (m1 * 7036874417766400))
                (e1 + -47) loc_Exact mx ex ltac:(lia) Hx) as Hv2.
  cbv zeta in Hv2. destruct Hv2 as (k2 & Hk2 & Hexk & Hv2).
  set (n2 := Z.max 0 (fexp64 (Zdigits2 (Zpos (m1 * 7036874417766400))
                              + (e1 + -47)) - (e1 + -47))) in *.
  assert (Hn2 : n2 + k1 <= E + 1).
  { unfold n2, fexp64 in *. unfold E in *. lia. }
  assert (Hk1' : 0 <= k1) by (unfold n1 in *; lia).
  assert (Hk2' : 0 <= k2) by (unfold n2 in *; lia).
  assert (Hpn2 : 2 ^ n2 * 2 ^ k1 <= P * 2 ^ 53).
  { rewrite <- Z.pow_add_r by (unfold n2; lia).
    replace (P * 2 ^ 53) with (2 ^ (E + 1)).
    - apply Z.pow_le_mono_r; lia.
    - unfold P. rewrite <- Z.pow_add_r by lia. f_equal. lia. }
  rewrite Pos2Z.inj_mul in Hv2.
  assert (Hk1pos : 0 < 2 ^ k1) by (apply Z.pow_pos_nonneg; lia).
  assert (Hk2pos : 0 < 2 ^ k2) by (apply Z.pow_pos_nonneg; lia).
  assert (Hall : Zpos mx * 2 ^ (k1 + k2) < 51 * (P * 2 ^ 99)).
  { rewrite Z.pow_add_r by lia.
    assert (Zpos mx * 2 ^ k2 * 2 ^ k1
            <= (Zpos m1 * 2 ^ k1) * 7036874417766400 + 2 ^ n2 * 2 ^ k1) by nia.
    assert ((Zpos m1 * 2 ^ k1) * 7036874417766400
            <= (P * 2 ^ 52 + P) * 7036874417766400) by nia.
    change (2 ^ 99) with 633825300114114700748351602688.
    change (2 ^ 53) with 9007199254740992 in *.
    change (2 ^ 52) with 4503599627370496 in *.
    lia. }
  assert (HE99 : P * 2 ^ 99 = 2 ^ (E + 47)).
  { unfold P. rewrite <- Z.pow_add_r by lia. f_equal. lia. }
  rewrite HE99 in Hall.
  (* the count of cells *)
  assert (Hex : ex = k1 + k2 - (E + 47)) by (unfold E; lia).
  destruct (Z_le_gt_dec 0 ex) as [Hpos|Hneg].
  - rewrite Z.shiftl_mul_pow2 by lia.
    replace (k1 + k2) with (ex + (E + 47)) in Hall by lia.
    rewrite Z.pow_add_r in Hall by lia.
    assert (0 < 2 ^ (E + 47)) by (apply Z.pow_pos_nonneg; lia).
    nia.
  - rewrite <- (Z.opp_involutive ex), Z.shiftl_opp_r.
    rewrite Z.shiftr_div_pow2 by lia.
    replace (E + 47) with ((k1 + k2) + - ex) in Hall by lia.
    rewrite (Z.pow_add_r 2 (k1 + k2) (- ex)) in Hall by lia.
    assert (0 < 2 ^ (k1 + k2)) by (apply Z.pow_pos_nonneg; lia).
    assert (0 < 2 ^ (- ex)) by (apply Z.pow_pos_nonneg; lia).
    assert (Zpos mx < 51 * 2 ^ (- ex)) by nia.
    assert (Zpos mx / 2 ^ (- ex) < 51)
      by (apply Z.div_lt_upper_bound; lia).
    lia.
Qed.

Lemma bar_value (pct : spec_float) :
  signed_as false pct -> SFltb f100 pct = false ->
  let x := SFmul prec emax (SFdiv prec emax pct f100) f_barWidth in
  exists z, trunc_float x = Some z /\ floor_float x = Some z /\ 0 <= z <= 50.
Proof.
  intros Hp Hle x.
  destruct (bar_value_shape pct Hp Hle) as [E|(mx & ex & E & Hd & Hm)];
    fold x in E; rewrite E.
  - exists 0. cbn. repeat split; lia.
  - exists (Z.shiftl (Zpos mx) ex). cbn [trunc_float floor_float cond_Zopp].
    split; [reflexivity|]. split; [reflexivity|].
    split; [apply (shiftl_bound mx ex 61); [exact Hd|exact Hm|lia]|].
    destruct Hp as [|m e Hdm|].
    + discriminate E.
    + exact (bar_value_le m e Hdm Hle mx ex E).
    + discriminate Hle.
Qed.

Lemma SFcompare_f100_eq (p : spec_float) :
  SFcompare f100 p = Some Eq -> p = f100.
Proof.
  unfold f100. destruct p as [s|s| |s m e]; cbn [SFcompare]; try discriminate.
  - destruct s; discriminate.
  - destruct s; [discriminate|].
    destruct (Z.compare_spec (-46) e) as [<-| |]; try discriminate.
    intros H. injection H as H. apply Pos.compare_eq in H. now subst m.
Qed.

Lemma clamp_is_min (p : spec_float) :
  p <> S754_nan ->
  (if SFltb f100 p then f100 else p) = fmin f100 p.
Proof.
  intros Hp. unfold fmin, SFltb. rewrite (SFcompare_antisym f100 p).
  destruct (SFcompare f100 p) as [[| |]|] eqn:E; cbn; try reflexivity.
  - now apply SFcompare_f100_eq.
  - exfalso. unfold f100 in E. destruct p; try congruence; discriminate.
Qed.

Lemma ratio_signed (transferred total : Z) :
  0 <= transferred -> 0 < total < 2 ^ 64 ->
  signed_as false
    (SFmul prec emax
       (SFdiv prec emax (float64_of_int transferred) (float64_of_int total))
       f100).
Proof.
  intros Ht Htot.
  destruct (float64_of_int_finite total Htot) as (m & e & -> & _).
  unfold f100. apply SFmul_signed, SFdiv_signed.
  now apply float64_of_int_signed.
Qed.

Lemma pct_of_signed (transferred total : Z) :
  0 <= transferred -> total < 2 ^ 64 ->
  signed_as false (pct_of transferred total) /\
  SFltb f100 (pct_of transferred total) = false.
Proof.
  intros Ht Htot. unfold pct_of.
  destruct (total >? 0) eqn:E.
  - pose proof (ratio_signed transferred total Ht ltac:(lia)) as Hs.
    destruct (SFltb f100 _) eqn:E1.
    + split; [unfold f100; constructor; cbn; lia|reflexivity].
    + split; [exact Hs|exact E1].
  - split; [constructor|reflexivity].
Qed.

Lemma pct_and_fill (transferred total : Z) :
  0 <= transferred <= MaxInt64 -> total <= MaxInt64 ->
  let pct := pct_of transferred total in
  pct = pct_spec transferred total /\
  (total <= 0 -> pct = f_zero) /\
  SFleb f_zero pct = true /\
  SFleb pct f100 = true /\
  exists z,
    floor_float (SFmul prec emax (SFdiv prec emax pct f100) f_barWidth) = Some z /\
    filled_of pct = z /\
    0 <= z <= barWidth.
Proof.
  intros Ht Htot pct.
  assert (H64 : total < 2 ^ 64) by (unfold MaxInt64 in *; lia).
  destruct (pct_of_signed transferred total (proj1 Ht) H64) as [Hs Hle].
  fold pct in Hs, Hle.
  split; [|split; [|split; [|split]]].
  - unfold pct, pct_of, pct_spec. destruct (total >? 0) eqn:E; [|reflexivity].
    apply clamp_is_min. eapply signed_as_not_nan.
    apply ratio_signed; lia.
  - intros H0. unfold pct, pct_of. destruct (total >? 0) eqn:E; [lia|reflexivity].
  - now apply SFleb_zero_signed.
  - apply SFltb_false_SFleb; [discriminate|eapply signed_as_not_nan; eauto|exact Hle].
  - destruct (bar_value pct Hs Hle) as (z & Htr & Hfl & Hz).
    exists z. split; [exact Hfl|].
    split; [|unfold barWidth; lia].
    unfold filled_of, int_of_float. rewrite Htr.
    assert (Hr : (MinInt64 <=? z) && (z <=? MaxInt64) = true).
    { unfold MinInt64, MaxInt64. apply andb_true_intro. split; lia. }
    rewrite Hr. unfold barWidth. destruct (z >? 50) eqn:E; lia.
Qed.










(** ** ProgressRenderer *)





(** ** The content of a copy *)



Lemma drop_all (k : Z) (d : list byte) : len d <= k -> drop k d = [].
Proof.
  intros H. unfold drop, len in *. apply skipn_all2. lia.
Qed.















(** ** Sources with no error in store *)

Lemma clean_content_app (d : list byte) (s : stream) :
  stream_content ((d, None) :: s) = d ++ stream_content s.
Proof. reflexivity. Qed.

Lemma clean_ends_well (s : stream) : clean s -> stream_ends_well s = true.
Proof.
  induction 1 as [|[d e] s He _ IH]; [reflexivity|].
  cbn in He. subst e. exact IH.
Qed.

(** Discarding from a clean source: as many bytes as asked, if it has
    them. *)
Lemma stream_discard_clean (s : stream) :
  clean s ->
  forall n,
    exists s',
      stream_discard s n
      = (Z.min (Z.max 0 n) (len (stream_content s)), None, s') /\
      clean s' /\
      stream_content s' = drop n (stream_content s) /\
      (stream_reads s' <= stream_reads s)%nat.
Proof.
  induction 1 as [|[d e] s He Hs IH]; intros n.
  - exists []. cbn. repeat split; auto.
    + f_equal. f_equal. unfold len. cbn. lia.
    + constructor.
    + unfold drop. now rewrite skipn_nil.
  - cbn in He. subst e. cbn [stream_discard].
    pose proof (len_nonneg d) as Hd.
    pose proof (len_nonneg (stream_content s)) as Hc.
    destruct (n <=? 0) eqn:E0.
    + exists ((d, None) :: s). apply Z.leb_le in E0.
      split; [f_equal; f_equal; rewrite clean_content_app, len_app; lia|].
      split; [constructor; auto|].
      split; [|lia].
      unfold drop. replace (Z.to_nat n) with 0%nat by lia. reflexivity.
    + apply Z.leb_gt in E0.
      destruct (len d <=? n) eqn:E1.
      * apply Z.leb_le in E1.
        destruct (IH (n - len d)) as (s' & Hsd & Hcl & Hco & Hre).
        rewrite Hsd. exists s'.
        split; [f_equal; f_equal; rewrite clean_content_app, len_app; lia|].
        split; [exact Hcl|]. split; [|cbn [stream_reads]; lia].
        rewrite Hco, clean_content_app.
        unfold drop, len in *. rewrite skipn_app.
        rewrite (skipn_all2 d) by lia. cbn [app]. f_equal. lia.
      * apply Z.leb_gt in E1.
        exists ((drop n d, None) :: s).
        split; [f_equal; f_equal; rewrite clean_content_app, len_app; lia|].
        split; [constructor; auto|].
        split.
        -- rewrite !clean_content_app. unfold drop, len in *.
           rewrite skipn_app.
           replace (Z.to_nat n - List.length d)%nat with 0%nat by lia.
           reflexivity.
        -- cbn [stream_reads]. pose proof (len_drop n d) as Hl.
           unfold len in Hl. lia.
Qed.

Lemma CopyN_Discard_clean (s : stream) (n : Z) :
  clean s ->
  (n <= len (stream_content s) ->
   exists m s',
     CopyN_Discard s n = (m, None, s') /\ clean s' /\
     stream_content s' = drop n (stream_content s) /\
     (stream_reads s' <= stream_reads s)%nat) /\
  (len (stream_content s) < n ->
   exists m s', CopyN_Discard s n = (m, Some EOF, s')).
Proof.
  intros Hs. destruct (stream_discard_clean s Hs n) as (s' & Hd & Hcl & Hco & Hre).
  pose proof (len_nonneg (stream_content s)) as Hc.
  unfold CopyN_Discard. rewrite Hd. split; intros Hn.
  - destruct (_ =? n) eqn:E; [now exists n, s'|].
    apply Z.eqb_neq in E.
    destruct (_ <? n) eqn:E2; [apply Z.ltb_lt in E2; lia|].
    now eexists _, s'.
  - destruct (_ =? n) eqn:E; [apply Z.eqb_eq in E; lia|].
    destruct (_ <? n) eqn:E2; [|apply Z.ltb_ge in E2; lia].
    now eexists _, s'.
Qed.

Lemma inFile_sequential_clean (what : string) (s : stream)
      (bs size skip count : Z) :
  clean s -> 0 <= skip ->
  (mul64 skip bs <= len (stream_content s) ->
   exists r,
     fst (inFile_sequential what s bs size skip count) = Ok r /\
     positioned r /\ ends_well r = true /\
     content r = selected bs size skip count (stream_content s) /\
     (reads_left r <= stream_reads s)%nat) /\
  (len (stream_content s) < mul64 skip bs ->
   inFile_sequential what s bs size skip count = (Err (Wrap what EOF), None)).
Proof.
  intros Hs Hskip.
  assert (Hskipped :
    (mul64 skip bs <= len (stream_content s) ->
     exists m s',
       (if skip >? 0 then CopyN_Discard s (mul64 skip bs) else (0, None, s))
       = (m, None, s') /\ clean s' /\
       stream_content s' = drop (mul64 skip bs) (stream_content s) /\
       (stream_reads s' <= stream_reads s)%nat) /\
    (len (stream_content s) < mul64 skip bs ->
     exists m s',
       (if skip >? 0 then CopyN_Discard s (mul64 skip bs) else (0, None, s))
       = (m, Some EOF, s'))).
  { destruct (skip >? 0) eqn:E.
    - now apply CopyN_Discard_clean.
    - assert (skip = 0) by lia. subst skip.
      replace (mul64 0 bs) with 0 by reflexivity.
      pose proof (len_nonneg (stream_content s)).
      split; [|lia]. intros _. exists 0, s. repeat split; auto. }
  destruct Hskipped as (Hok & Hshort). split; intros Hn.
  - destruct (Hok Hn) as (m & s' & Heq & Hcl & Hco & Hre).
    unfold inFile_sequential. rewrite Heq. unfold selected, LimitReader.
    destruct (negb (count =? MaxInt64)).
    + eexists. split; [reflexivity|]. cbn [positioned content ends_well reads_left].
      rewrite Hco. repeat split; auto using clean_ends_well.
    + destruct (size >? 0).
      * eexists. split; [reflexivity|].
        cbn [positioned content ends_well reads_left].
        rewrite Hco. repeat split; auto using clean_ends_well.
      * eexists. split; [reflexivity|].
        cbn [positioned content ends_well reads_left].
        rewrite Hco. repeat split; auto using clean_ends_well.
  - destruct (Hshort Hn) as (m & s' & Heq).
    unfold inFile_sequential. rewrite Heq. reflexivity.
Qed.


(** ** What [inFile] selects *)

Lemma eqb_name (name : string) : name <> "" -> String.eqb name "" = false.
Proof. intros H. now apply String.eqb_neq. Qed.

Lemma inFile_of_sequential (stdin : stream) (open : string -> result os_file)
      (name : string) (bs size skip count : Z) (s : stream) :
  sequential_source stdin open name s ->
  exists what,
    inFile stdin open name bs size skip count
    = inFile_sequential what s bs size skip count.
Proof.
  intros [[-> ->]|(Hn & f & Ho & Hst & Hnode)]; unfold inFile.
  - eexists. reflexivity.
  - rewrite (eqb_name name Hn), Ho, Hst, Hnode. eexists. reflexivity.
Qed.


Lemma open_2048_regular : regular_source open_2048 "src.img" file_2048.
Proof.
  split; [discriminate|]. eexists. repeat split; reflexivity.
Qed.


(** X3.  On standard input or a special file, with a source that has no
    error in store and holds at least the [skip * bs] bytes to skip,
    [inFile] succeeds and returns a reader that gives exactly the
    selected bytes of the source: those after the skipped ones, cut to
    [count * bs] bytes when a count is given and else to [size] bytes
    when a size is. *)
Theorem inFile_selects_sequential
        (stdin : stream) (open : string -> result os_file) (name : string)
        (bs size skip count : Z) (s : stream) :
  sequential_source stdin open name s ->
  clean s -> 0 <= skip ->
  mul64 skip bs <= len (stream_content s) ->
  exists r,
    fst (inFile stdin open name bs size skip count) = Ok r /\
    positioned r /\ ends_well r = true /\
    content r = selected bs size skip count (stream_content s) /\
    (reads_left r <= stream_reads s)%nat.
Proof.
  intros Hsrc Hcl Hskip Hn.
  destruct (inFile_of_sequential stdin open name bs size skip count s Hsrc)
    as (what & ->).
  exact (proj1 (inFile_sequential_clean what s bs size skip count Hcl Hskip) Hn).
Qed.

Lemma pipe_4_6_clean : clean pipe_4_6.
Proof. repeat constructor. Qed.

Lemma inFile_selects_sequential_witness :
  exists r,
    fst (inFile pipe_4_6 (fun _ => Err ENOENT) "" 2 0 3 1) = Ok r /\
    positioned r /\ ends_well r = true /\
    content r = selected 2 0 3 1 (stream_content pipe_4_6) /\
    (reads_left r <= stream_reads pipe_4_6)%nat.
Proof.
  apply (inFile_selects_sequential pipe_4_6 (fun _ => Err ENOENT) "" 2 0 3 1
           pipe_4_6 (or_introl (conj eq_refl eq_refl)) pipe_4_6_clean).
  - lia.
  - vm_compute. discriminate.
Defined.

(** X4.  Skipping more than the source holds is an error on a
    sequential source and none on a regular file.  On standard input or
    a special file that runs out before [skip * bs] bytes, [inFile]
    fails with the skip error wrapping [EOF] and stores no total.  On a
    regular file with neither count nor size, an offset at or past the
    end is accepted: [inFile] returns the file at that offset, which has
    nothing left and answers every read with [EOF]. *)
Theorem skip_past_the_end
        (stdin : stream) (open : string -> result os_file) (name : string)
        (bs size skip count : Z) :
  0 <= skip ->
  (forall s,
     sequential_source stdin open name s -> clean s ->
     len (stream_content s) < mul64 skip bs ->
     exists what,
       inFile stdin open name bs size skip count
       = (Err (Wrap what EOF), None)) /\
  (forall c,
     regular_source open name c ->
     len c <= mul64 skip bs -> count = MaxInt64 -> size <= 0 ->
     inFile stdin open name bs size skip count
     = (Ok (FileReader c (mul64 skip bs)),
        Some (sub64 (len c) (mul64 skip bs))) /\
     content (FileReader c (mul64 skip bs)) = [] /\
     forall k, 0 < k ->
       Read (FileReader c (mul64 skip bs)) k
       = ([], Some EOF, FileReader c (mul64 skip bs))).
Proof.
  intros Hskip. split.
  - intros s Hsrc Hcl Hn.
    destruct (inFile_of_sequential stdin open name bs size skip count s Hsrc)
      as (what & ->).
    exists what.
    exact (proj2 (inFile_sequential_clean what s bs size skip count Hcl Hskip) Hn).
  - intros c (Hn & f & Ho & Hst & Hnode) Hlen -> Hsize.
    pose proof (len_nonneg c) as Hc.
    split; [|split].
    + unfold inFile. rewrite (eqb_name name Hn), Ho, Hst, Hnode.
      destruct (_ <? 0) eqn:E; [lia|].
      rewrite Z.eqb_refl. cbn [negb].
      destruct (size >? 0) eqn:Es; [lia|]. reflexivity.
    + cbn [content]. now apply drop_all.
    + intros k Hk. cbn [Read]. unfold file_Read.
      destruct (k =? 0) eqn:E0; [lia|].
      destruct (len c <=? mul64 skip bs) eqn:E; [reflexivity|lia].
Qed.

Lemma skip_past_the_end_witness :
  exists what,
    inFile pipe_4_6 (fun _ => Err ENOENT) "" 4 0 3 MaxInt64
    = (Err (Wrap what EOF), None).
Proof.
  apply (proj1 (skip_past_the_end pipe_4_6 (fun _ => Err ENOENT) "" 4 0 3
                  MaxInt64 ltac:(lia))
           pipe_4_6 (or_introl (conj eq_refl eq_refl)) pipe_4_6_clean).
  vm_compute. reflexivity.
Defined.

(** ** A transfer from its opening to its end *)


Section TransferFacts.
Context {os : OsConsts}.



End TransferFacts.

(** ** The quotient of a number by itself *)

Lemma SFdiv_core_same (m : positive) (e : Z) :
  SFdiv_core_binary prec emax (Zpos m) e (Zpos m) e = (2 ^ 53, -53, loc_Exact).
Proof.
  unfold SFdiv_core_binary.
  replace (Zdigits2 (Z.pos m) + e - (Zdigits2 (Z.pos m) + e)) with 0 by lia.
  replace (e - e) with 0 by lia.
  change (Z.min (fexp prec emax 0) 0) with (-53).
  change (0 - -53) with 53.
  cbv beta iota zeta.
  rewrite Z.shiftl_mul_pow2 by lia.
  pose proof (Z.div_eucl_eq (Z.pos m * 2 ^ 53) (Z.pos m) ltac:(lia)) as Heq.
  pose proof (Z.mod_pos_bound (Z.pos m * 2 ^ 53) (Z.pos m) ltac:(lia)) as Hb.
  unfold Z.modulo in Hb.
  destruct (Z.div_eucl (Z.pos m * 2 ^ 53) (Z.pos m)) as [q r].
  assert (Hq : q = 2 ^ 53) by nia.
  assert (Hr : r = 0) by nia.
  subst q r.
  f_equal. unfold new_location.
  destruct (Z.even (Z.pos m)); reflexivity.
Qed.

Lemma SFdiv_same (m : positive) (e : Z) :
  SFdiv prec emax (S754_finite false m e) (S754_finite false m e) = f_one.
Proof.
  unfold SFdiv. rewrite SFdiv_core_same. reflexivity.
Qed.

Lemma pct_at_total (total : Z) :
  0 < total <= MaxInt64 ->
  pct_of total total = f100 /\ filled_of (pct_of total total) = barWidth.
Proof.
  intros H.
  destruct (float64_of_int_finite total) as (m & e & Hf & _);
    [unfold MaxInt64 in H; lia|].
  assert (Hp : pct_of total total = f100).
  { unfold pct_of. destruct (total >? 0) eqn:E; [|lia].
    rewrite Hf, SFdiv_same. reflexivity. }
  rewrite Hp. split; reflexivity.
Qed.

(** ** Command line and text layout *)

Lemma length_append (a b : string) :
  String.length (a ++ b) = (String.length a + String.length b)%nat.
Proof. induction a as [|c a IH]; cbn; [reflexivity|now rewrite IH]. Qed.

Lemma slen_append (a b : string) : slen (a ++ b) = slen a + slen b.
Proof. unfold slen. rewrite length_append. lia. Qed.

Lemma slen_nonneg (s : string) : 0 <= slen s.
Proof. unfold slen. lia. Qed.

Lemma append_assoc (a b c : string) : ((a ++ b) ++ c = a ++ (b ++ c))%string.
Proof. induction a as [|x a IH]; cbn; [reflexivity|now rewrite IH]. Qed.

Lemma append_nil_r (a : string) : (a ++ "")%string = a.
Proof. induction a as [|x a IH]; cbn; [reflexivity|now rewrite IH]. Qed.

Lemma has_byte_append (c : ascii) (a b : string) :
  has_byte c (a ++ b) = has_byte c a || has_byte c b.
Proof.
  induction a as [|x a IH]; cbn; [reflexivity|].
  now rewrite IH, orb_assoc.
Qed.

(** *** [convertArgs] *)

Lemma cut_at_none (sep : ascii) (s : string) :
  has_byte sep s = false -> cut_at sep s = None.
Proof.
  induction s as [|c s IH]; cbn; [reflexivity|].
  intros H. apply orb_false_iff in H as (H1 & H2).
  now rewrite H1, IH.
Qed.

Lemma cut_at_first (sep : ascii) (k x : string) :
  has_byte sep k = false ->
  cut_at sep (k ++ String sep x) = Some (k, x).
Proof.
  induction k as [|c k IH]; cbn.
  - intros _. now rewrite Ascii.eqb_refl.
  - intros H. apply orb_false_iff in H as (H1 & H2).
    now rewrite H1, IH.
Qed.

Lemma cut_at_some (sep : ascii) (s before after : string) :
  cut_at sep s = Some (before, after) ->
  s = (before ++ String sep after)%string /\ has_byte sep before = false.
Proof.
  revert before. induction s as [|c s IH]; cbn; intros before H; [discriminate|].
  destruct (Ascii.eqb c sep) eqn:E.
  - injection H as <- <-. apply Ascii.eqb_eq in E. subst c. now split.
  - destruct (cut_at sep s) as [[b a]|]; [|discriminate].
    injection H as <- <-. destruct (IH b eq_refl) as (-> & Hb).
    cbn. rewrite E, Hb. now split.
Qed.

Lemma fold_convertArg (osArgs : list string) (acc : list string) :
  fold_left convertArg osArgs acc
  = acc ++ flat_map (convertArg []) osArgs.
Proof.
  revert acc. induction osArgs as [|v l IH]; intros acc; cbn.
  - now rewrite app_nil_r.
  - rewrite IH. unfold convertArg at 1 3. cbn [app].
    now rewrite <- app_assoc.
Qed.

Lemma convertArgs_flat_map (osArgs : list string) :
  convertArgs osArgs = flat_map (convertArg []) osArgs.
Proof. unfold convertArgs. now rewrite fold_convertArg. Qed.

(** X18.  [convertArgs] works argument by argument.  An argument
    without [=] is passed on as it is; an argument [k=x] becomes the
    two arguments [-k] and [x], cut at its first [=], so [x] keeps any
    later [=]; each argument gives two arguments or one, as it holds an
    [=] or not. *)
Theorem convertArgs_spec :
  (forall xs ys, convertArgs (xs ++ ys) = convertArgs xs ++ convertArgs ys) /\
  (forall v, has_byte equals v = false -> convertArgs [v] = [v]) /\
  (forall k x, has_byte equals k = false ->
     convertArgs [(k ++ String equals x)%string] = [("-" ++ k)%string; x]) /\
  (forall v, List.length (convertArgs [v]) = if has_byte equals v then 2%nat else 1%nat).
Proof.
  split; [|split; [|split]].
  - intros xs ys. now rewrite !convertArgs_flat_map, flat_map_app.
  - intros v H. unfold convertArgs, convertArg, strings_SplitN2. cbn.
    now rewrite cut_at_none.
  - intros k x H. unfold convertArgs, convertArg, strings_SplitN2. cbn.
    now rewrite cut_at_first.
  - intros v. unfold convertArgs, convertArg, strings_SplitN2. cbn.
    destruct (cut_at equals v) as [[b a]|] eqn:E.
    + destruct (cut_at_some _ _ _ _ E) as (-> & _).
      rewrite has_byte_append. cbn.
      now rewrite orb_true_r.
    + destruct (has_byte equals v) eqn:Hb; [|reflexivity].
      exfalso. clear -E Hb. induction v as [|c v IH]; [discriminate|].
      cbn in *. destruct (Ascii.eqb c equals); [discriminate|].
      destruct (cut_at equals v); [destruct p; discriminate|]. auto.
Qed.

(** *** [stripANSI] *)

Lemma stripANSI_plain_app (a b : string) :
  plain a -> stripANSI (a ++ b) = (a ++ stripANSI b)%string.
Proof.
  unfold plain. induction a as [|c a IH]; intros H; [reflexivity|].
  cbn [has_byte] in H. apply orb_false_iff in H as (H1 & H2).
  cbn [append stripANSI]. rewrite H1. now rewrite IH.
Qed.

Lemma stripANSI_plain (s : string) : plain s -> stripANSI s = s.
Proof.
  intros H. rewrite <- (append_nil_r s) at 1.
  rewrite stripANSI_plain_app by exact H. cbn. apply append_nil_r.
Qed.

Lemma skip_code_closed (body rest : string) :
  has_byte "m" body = false ->
  skip_code (body ++ String "m" rest) = stripANSI rest.
Proof.
  induction body as [|c body IH]; intros H.
  - reflexivity.
  - cbn [has_byte] in H. apply orb_false_iff in H as (H1 & H2).
    cbn [append skip_code]. rewrite H1. now apply IH.
Qed.

Lemma skip_code_open (body : string) :
  has_byte "m" body = false -> skip_code body = "".
Proof.
  induction body as [|c body IH]; intros H; [reflexivity|].
  cbn [has_byte] in H. apply orb_false_iff in H as (H1 & H2).
  cbn [skip_code]. rewrite H1. now apply IH.
Qed.

Lemma stripANSI_intro (s : string) :
  stripANSI (String ESC (String "[" s)) = skip_code s.
Proof. reflexivity. Qed.

Lemma strip_lengths (s : string) :
  (String.length (stripANSI s) <= String.length s)%nat /\
  (String.length (skip_code s) <= String.length s)%nat.
Proof.
  induction s as [|c s (IH1 & IH2)]; [split; reflexivity|].
  split.
  - cbn [stripANSI]. destruct (Ascii.eqb c ESC).
    + destruct s as [|c' s']; [cbn; lia|].
      destruct (Ascii.eqb c' "[") eqn:E.
      * apply Ascii.eqb_eq in E. subst c'. cbn [skip_code] in IH2.
        change (Ascii.eqb "[" "m") with false in IH2. cbv iota in IH2.
        cbn [String.length] in *. lia.
      * cbn [String.length] in *. lia.
    + cbn [String.length]. lia.
  - cbn [skip_code]. destruct (Ascii.eqb c "m"); cbn [String.length]; lia.
Qed.

(** X19.  [stripANSI] never makes a text longer, leaves a text with no
    escape byte as it is, passes over such a text at its start, and
    removes an escape byte followed by a bracket with everything up to
    and with the next [m]. *)
Theorem stripANSI_spec :
  (forall s, slen (stripANSI s) <= slen s) /\
  (forall a b, plain a -> stripANSI (a ++ b) = (a ++ stripANSI b)%string) /\
  (forall s, plain s -> stripANSI s = s) /\
  (forall body rest, has_byte "m" body = false ->
     stripANSI (String ESC (String "[" (body ++ String "m" rest)))
     = stripANSI rest).
Proof.
  split; [|split; [|split]].
  - intros s. unfold slen. pose proof (proj1 (strip_lengths s)). lia.
  - exact stripANSI_plain_app.
  - exact stripANSI_plain.
  - intros body rest H. rewrite stripANSI_intro. now apply skip_code_closed.
Qed.

(** X20.  An escape byte followed by a bracket with no [m] after it
    makes [stripANSI] drop everything from the escape byte to the end
    of the text. *)
Theorem stripANSI_unclosed (a rest : string) :
  plain a -> has_byte "m" rest = false ->
  stripANSI (a ++ String ESC (String "[" rest)) = a.
Proof.
  intros Ha Hr. rewrite stripANSI_plain_app by exact Ha.
  rewrite stripANSI_intro, skip_code_open by exact Hr. apply append_nil_r.
Qed.

Lemma stripANSI_unclosed_witness :
  stripANSI ("ab" ++ String ESC (String "[" "31;1 rest of the line")) = "ab".
Proof.
  exact (stripANSI_unclosed "ab" "31;1 rest of the line" eq_refl eq_refl).
Defined.

(** *** Padding *)

Lemma length_repeat_string (c : ascii) (n : nat) :
  String.length (repeat_string (String c "") n) = n.
Proof. induction n as [|n IH]; cbn; [reflexivity|now rewrite IH]. Qed.

Lemma slen_blanks (n : Z) : 0 <= n -> slen (blanks n) = n.
Proof.
  intros H. unfold slen, blanks. rewrite length_repeat_string. lia.
Qed.

Lemma plain_blanks (n : Z) : plain (blanks n).
Proof.
  unfold plain, blanks. induction (Z.to_nat n) as [|k IH]; [reflexivity|].
  cbn. exact IH.
Qed.

Lemma Repeat_blank (n : Z) : 0 <= n -> strings_Repeat " " n = Some (blanks n).
Proof.
  intros H. unfold strings_Repeat. destruct (n <? 0) eqn:E; [lia|reflexivity].
Qed.

Lemma padLeft_eq (s : string) (width : Z) :
  padLeft s width = Some (blanks (width - slen s) ++ s)%string.
Proof.
  unfold padLeft. destruct (slen s >=? width) eqn:E.
  - unfold blanks. replace (Z.to_nat (width - slen s)) with 0%nat by lia.
    reflexivity.
  - rewrite Repeat_blank by lia. reflexivity.
Qed.

Lemma padRight_eq (s : string) (width : Z) :
  padRight s width = Some (s ++ blanks (width - slen s))%string.
Proof.
  unfold padRight. destruct (slen s >=? width) eqn:E.
  - unfold blanks. replace (Z.to_nat (width - slen s)) with 0%nat by lia.
    cbn. now rewrite append_nil_r.
  - rewrite Repeat_blank by lia. reflexivity.
Qed.

Lemma slen_blanks_max (n : Z) : slen (blanks n) = Z.max 0 n.
Proof.
  destruct (Z.le_gt_cases 0 n) as [H|H].
  - rewrite slen_blanks by exact H. lia.
  - unfold blanks. replace (Z.to_nat n) with 0%nat by lia. cbn. lia.
Qed.

(** X21.  [padLeft] and [padRight] never panic.  They add
    [width - len(s)] spaces, before the text and after it, when the
    text is shorter than [width], and return it as it is otherwise, so
    the result is as long as the longer of the text and [width]. *)
Theorem pad_spec (s : string) (width : Z) :
  exists l r,
    padLeft s width = Some l /\ padRight s width = Some r /\
    l = (blanks (width - slen s) ++ s)%string /\
    r = (s ++ blanks (width - slen s))%string /\
    slen l = Z.max (slen s) width /\ slen r = Z.max (slen s) width /\
    (width <= slen s -> l = s /\ r = s).
Proof.
  eexists _, _. split; [apply padLeft_eq|]. split; [apply padRight_eq|].
  pose proof (slen_nonneg s) as Hs.
  repeat split.
  - rewrite slen_append, slen_blanks_max. lia.
  - rewrite slen_append, slen_blanks_max. lia.
  - unfold blanks. replace (Z.to_nat (width - slen s)) with 0%nat by lia.
    reflexivity.
  - unfold blanks. replace (Z.to_nat (width - slen s)) with 0%nat by lia.
    cbn. apply append_nil_r.
Qed.

(** X22.  [centerText] never panics and never cuts the text: it puts
    half the free columns, rounded down, before the text and nothing
    after it, so the margin it leaves on the right is the left margin
    or one column more. *)
Theorem centerText_spec (s : string) (width : Z) :
  let left := Z.max 0 ((width - slen s) / 2) in
  centerText s width = Some (blanks left ++ s)%string /\
  (slen s < width ->
   let right := width - slen s - left in
   left <= right <= left + 1).
Proof.
  pose proof (slen_nonneg s) as Hs. cbv zeta. split.
  - unfold centerText. destruct (slen s >=? width) eqn:E.
    + replace (Z.max 0 ((width - slen s) / 2)) with 0.
      * reflexivity.
      * assert ((width - slen s) / 2 <= 0)
          by (apply Z.div_le_upper_bound; lia). lia.
    + rewrite Z.quot_div_nonneg by lia.
      assert (0 <= (width - slen s) / 2) by (apply Z.div_pos; lia).
      rewrite Repeat_blank by lia. rewrite Z.max_r by lia. reflexivity.
  - intros Hlt.
    assert (0 <= (width - slen s) / 2) by (apply Z.div_pos; lia).
    rewrite Z.max_r by lia.
    pose proof (Z.div_mod (width - slen s) 2 ltac:(lia)).
    pose proof (Z.mod_pos_bound (width - slen s) 2 ltac:(lia)). lia.
Qed.

(** ** The progress line *)

Lemma repeat_string_add (s : string) (a b : nat) :
  (repeat_string s a ++ repeat_string s b)%string = repeat_string s (a + b).
Proof.
  induction a as [|a IH]; cbn; [reflexivity|].
  now rewrite append_assoc, IH.
Qed.

Lemma plain_dashes (n : nat) : plain (repeat_string "-" n).
Proof. induction n as [|n IH]; [reflexivity|exact IH]. Qed.

Lemma plain_append (a b : string) : plain a -> plain b -> plain (a ++ b).
Proof.
  unfold plain. intros Ha Hb. now rewrite has_byte_append, Ha, Hb.
Qed.

Lemma strip_Grey (s : string) : stripANSI (Grey ++ s) = stripANSI s.
Proof. reflexivity. Qed.
Lemma strip_Reset (s : string) : stripANSI (Reset ++ s) = stripANSI s.
Proof. reflexivity. Qed.
Lemma strip_LightGreen (s : string) : stripANSI (LightGreen ++ s) = stripANSI s.
Proof. reflexivity. Qed.
Lemma strip_DarkGreen (s : string) : stripANSI (DarkGreen ++ s) = stripANSI s.
Proof. reflexivity. Qed.

Lemma strip_space (s : string) : stripANSI (" " ++ s) = (" " ++ stripANSI s)%string.
Proof. reflexivity. Qed.

Lemma render_line_some (timerStr rateStr : string) (filled TermCols : Z) :
  0 <= filled <= barWidth ->
  render_line timerStr rateStr filled TermCols
  = let leftSide :=
      (Grey ++ (timerStr ++ blanks (8 - slen timerStr)) ++ Reset ++ " "
       ++ (LightGreen ++ repeat_string "-" (Z.to_nat filled))
       ++ (DarkGreen ++ repeat_string "-" (Z.to_nat (barWidth - filled))
           ++ Reset) ++ " ")%string in
    let rateGrey :=
      (Grey ++ (blanks (12 - slen rateStr) ++ rateStr) ++ Reset)%string in
    Some (leftSide ++ rateGrey
          ++ blanks (TermCols - (slen (stripANSI leftSide)
                                 + slen (stripANSI rateGrey))))%string.
Proof.
  intros Hf. unfold render_line.
  rewrite padRight_eq, padLeft_eq. unfold and_then at 1.
  unfold strings_Repeat at 1 2.
  destruct (filled <? 0) eqn:E1; [lia|].
  destruct (barWidth - filled <? 0) eqn:E2; [lia|].
  unfold and_then at 1 2 3. cbv zeta.
  rewrite ?append_assoc.
  match goal with |- context [?x >? 0] => set (extra := x) end.
  destruct (extra >? 0) eqn:E3.
  - rewrite Repeat_blank by lia. unfold and_then. f_equal.
    rewrite ?append_assoc. reflexivity.
  - unfold blanks at 5. replace (Z.to_nat extra) with 0%nat by lia.
    cbn [repeat_string]. rewrite ?append_assoc, ?append_nil_r. reflexivity.
Qed.

Lemma strip_leftSide (timerStr : string) (a b : nat) :
  plain timerStr ->
  stripANSI (Grey ++ (timerStr ++ blanks (8 - slen timerStr)) ++ Reset ++ " "
             ++ (LightGreen ++ repeat_string "-" a)
             ++ (DarkGreen ++ repeat_string "-" b ++ Reset) ++ " ")
  = (timerStr ++ blanks (8 - slen timerStr) ++ " "
     ++ repeat_string "-" (a + b) ++ " ")%string.
Proof.
  intros Ht. rewrite strip_Grey, ?append_assoc.
  rewrite stripANSI_plain_app by exact Ht.
  rewrite stripANSI_plain_app by apply plain_blanks.
  rewrite strip_Reset, strip_space, strip_LightGreen.
  rewrite stripANSI_plain_app by apply plain_dashes.
  rewrite strip_DarkGreen.
  rewrite stripANSI_plain_app by apply plain_dashes.
  rewrite strip_Reset. cbn [stripANSI append].
  rewrite <- repeat_string_add, ?append_assoc. reflexivity.
Qed.

Lemma strip_rateGrey (rateStr : string) :
  plain rateStr ->
  stripANSI (Grey ++ (blanks (12 - slen rateStr) ++ rateStr) ++ Reset)
  = (blanks (12 - slen rateStr) ++ rateStr)%string.
Proof.
  intros Hr. rewrite strip_Grey, ?append_assoc.
  rewrite stripANSI_plain_app by apply plain_blanks.
  rewrite stripANSI_plain_app by exact Hr.
  cbn. now rewrite append_nil_r.
Qed.

Lemma slen_dashes (n : nat) : slen (repeat_string "-" n) = Z.of_nat n.
Proof. unfold slen. now rewrite length_repeat_string. Qed.

Lemma render_line_visible (timerStr rateStr : string) (filled TermCols : Z) :
  plain timerStr -> plain rateStr -> 0 <= filled <= barWidth ->
  exists line,
    render_line timerStr rateStr filled TermCols = Some line /\
    stripANSI line = visible_line timerStr rateStr TermCols /\
    slen (stripANSI line)
    = Z.max TermCols (used_columns timerStr rateStr).
Proof.
  intros Ht Hr Hf. rewrite render_line_some by exact Hf. cbv zeta.
  eexists. split; [reflexivity|].
  rewrite (strip_leftSide timerStr _ _ Ht), (strip_rateGrey rateStr Hr).
  replace (Z.to_nat filled + Z.to_nat (barWidth - filled))%nat
    with (Z.to_nat barWidth) by lia.
  assert (Hused :
    slen (timerStr ++ blanks (8 - slen timerStr) ++ " "
          ++ repeat_string "-" (Z.to_nat barWidth) ++ " ")
    + slen (blanks (12 - slen rateStr) ++ rateStr)
    = used_columns timerStr rateStr).
  { unfold used_columns. rewrite !slen_append, !slen_blanks_max, slen_dashes.
    change (slen " ") with 1.
    unfold barWidth. pose proof (slen_nonneg timerStr).
    pose proof (slen_nonneg rateStr). lia. }
  rewrite Hused.
  assert (Hvis :
    stripANSI
      ((Grey ++ (timerStr ++ blanks (8 - slen timerStr)) ++ Reset ++ " "
        ++ (LightGreen ++ repeat_string "-" (Z.to_nat filled))
        ++ (DarkGreen ++ repeat_string "-" (Z.to_nat (barWidth - filled))
            ++ Reset) ++ " ")
       ++ (Grey ++ (blanks (12 - slen rateStr) ++ rateStr) ++ Reset)
       ++ blanks (TermCols - used_columns timerStr rateStr))
    = visible_line timerStr rateStr TermCols).
  { rewrite ?append_assoc. rewrite strip_Grey.
    rewrite stripANSI_plain_app by exact Ht.
    rewrite stripANSI_plain_app by apply plain_blanks.
    rewrite strip_Reset, strip_space, strip_LightGreen.
    rewrite stripANSI_plain_app by apply plain_dashes.
    rewrite strip_DarkGreen.
    rewrite stripANSI_plain_app by apply plain_dashes.
    rewrite strip_Reset, strip_space, strip_Grey.
    rewrite stripANSI_plain_app by apply plain_blanks.
    rewrite stripANSI_plain_app by exact Hr.
    rewrite strip_Reset.
    rewrite stripANSI_plain by apply plain_blanks.
    unfold visible_line.
    replace (Z.to_nat barWidth)
      with (Z.to_nat filled + Z.to_nat (barWidth - filled))%nat by lia.
    rewrite <- repeat_string_add, ?append_assoc. reflexivity. }
  split; [exact Hvis|].
  rewrite Hvis. unfold visible_line.
  rewrite !slen_append, !slen_blanks_max, slen_dashes.
  change (slen " ") with 1.
  unfold used_columns, barWidth.
  pose proof (slen_nonneg timerStr). pose proof (slen_nonneg rateStr). lia.
Qed.

(** X23.  For a timer and a rate text with no escape byte and a count
    of filled cells between 0 and 50, the progress line is printed
    without a panic.  Without its colour codes it is the timer padded
    to 8 columns, a space, 50 dashes, a space, the rate text padded to
    12 columns and the spaces that fill the terminal width; it is as
    wide as the terminal, or as these columns when they are more. *)
Theorem render_line_spec (timerStr rateStr : string) (filled TermCols : Z) :
  plain timerStr -> plain rateStr -> 0 <= filled <= barWidth ->
  exists line,
    render_line timerStr rateStr filled TermCols = Some line /\
    stripANSI line = visible_line timerStr rateStr TermCols /\
    slen (stripANSI line)
    = Z.max TermCols (used_columns timerStr rateStr).
Proof.
  intros Ht Hr Hf. rewrite render_line_some by exact Hf. cbv zeta.
  eexists. split; [reflexivity|].
  rewrite (strip_leftSide timerStr _ _ Ht), (strip_rateGrey rateStr Hr).
  replace (Z.to_nat filled + Z.to_nat (barWidth - filled))%nat
    with (Z.to_nat barWidth) by lia.
  assert (Hused :
    slen (timerStr ++ blanks (8 - slen timerStr) ++ " "
          ++ repeat_string "-" (Z.to_nat barWidth) ++ " ")
    + slen (blanks (12 - slen rateStr) ++ rateStr)
    = used_columns timerStr rateStr).
  { unfold used_columns. rewrite !slen_append, !slen_blanks_max, slen_dashes.
    change (slen " ") with 1.
    unfold barWidth. pose proof (slen_nonneg timerStr).
    pose proof (slen_nonneg rateStr). lia. }
  rewrite Hused.
  assert (Hvis :
    stripANSI
      ((Grey ++ (timerStr ++ blanks (8 - slen timerStr)) ++ Reset ++ " "
        ++ (LightGreen ++ repeat_string "-" (Z.to_nat filled))
        ++ (DarkGreen ++ repeat_string "-" (Z.to_nat (barWidth - filled))
            ++ Reset) ++ " ")
       ++ (Grey ++ (blanks (12 - slen rateStr) ++ rateStr) ++ Reset)
       ++ blanks (TermCols - used_columns timerStr rateStr))
    = visible_line timerStr rateStr TermCols).
  { rewrite ?append_assoc. rewrite strip_Grey.
    rewrite stripANSI_plain_app by exact Ht.
    rewrite stripANSI_plain_app by apply plain_blanks.
    rewrite strip_Reset, strip_space, strip_LightGreen.
    rewrite stripANSI_plain_app by apply plain_dashes.
    rewrite strip_DarkGreen.
    rewrite stripANSI_plain_app by apply plain_dashes.
    rewrite strip_Reset, strip_space, strip_Grey.
    rewrite stripANSI_plain_app by apply plain_blanks.
    rewrite stripANSI_plain_app by exact Hr.
    rewrite strip_Reset.
    rewrite stripANSI_plain by apply plain_blanks.
    unfold visible_line.
    replace (Z.to_nat barWidth)
      with (Z.to_nat filled + Z.to_nat (barWidth - filled))%nat by lia.
    rewrite <- repeat_string_add, ?append_assoc. reflexivity. }
  split; [exact Hvis|].
  rewrite Hvis. unfold visible_line.
  rewrite !slen_append, !slen_blanks_max, slen_dashes.
  change (slen " ") with 1.
  unfold used_columns, barWidth.
  pose proof (slen_nonneg timerStr). pose proof (slen_nonneg rateStr). lia.
Qed.

Lemma render_line_none (timerStr rateStr : string) (filled TermCols : Z) :
  filled < 0 \/ barWidth < filled ->
  render_line timerStr rateStr filled TermCols = None.
Proof.
  intros H. unfold render_line. rewrite padRight_eq. unfold and_then at 1.
  unfold strings_Repeat at 1 2.
  destruct (filled <? 0) eqn:E1; [reflexivity|].
  destruct (barWidth - filled <? 0) eqn:E2; [reflexivity|lia].
Qed.

(** X24.  The progress line panics, in [strings.Repeat], exactly when
    the count of filled cells is negative or above 50. *)
Theorem render_line_panics (timerStr rateStr : string) (filled TermCols : Z) :
  render_line timerStr rateStr filled TermCols = None
  <-> filled < 0 \/ barWidth < filled.
Proof.
  split.
  - intros H.
    destruct (Z_lt_dec filled 0) as [|H1]; [now left|].
    destruct (Z_lt_dec barWidth filled) as [|H2]; [now right|].
    rewrite render_line_some in H by lia. discriminate.
  - apply render_line_none.
Qed.

(** ** The bytes of a line *)

Lemma all_bytes_append (p : ascii -> bool) (a b : string) :
  all_bytes p (a ++ b) = all_bytes p a && all_bytes p b.
Proof.
  induction a as [|c a IH]; cbn; [reflexivity|].
  now rewrite IH, andb_assoc.
Qed.

Lemma all_bytes_has_byte (p : ascii -> bool) (c : ascii) (s : string) :
  all_bytes p s = true -> p c = false -> has_byte c s = false.
Proof.
  intros Hs Hc. induction s as [|x s IH]; [reflexivity|].
  cbn in *. apply andb_true_iff in Hs as (Hx & Hs).
  rewrite (IH Hs), orb_false_r.
  destruct (Ascii.eqb x c) eqn:E; [|reflexivity].
  apply Ascii.eqb_eq in E. congruence.
Qed.

Lemma string_of_uint_bytes (d : Decimal.uint) :
  all_bytes timer_byte (NilEmpty.string_of_uint d) = true.
Proof. induction d; cbn; auto. Qed.

Lemma itoa_bytes (z : Z) :
  all_bytes timer_byte (itoa z) = true /\ (1 <= String.length (itoa z))%nat.
Proof.
  unfold itoa. destruct (Z.to_int z) as [d|d]; cbn.
  - destruct d; cbn; (split; [|lia]); try reflexivity;
      apply string_of_uint_bytes.
  - split; [|lia]. destruct d; cbn; try reflexivity; apply string_of_uint_bytes.
Qed.

Lemma fmt_02d_bytes (z : Z) :
  all_bytes timer_byte (fmt_02d z) = true /\ (2 <= String.length (fmt_02d z))%nat.
Proof.
  destruct (itoa_bytes z) as (Hb & Hl). unfold fmt_02d.
  destruct (String.length (itoa z) <? 2)%nat eqn:E.
  - cbn. split; [exact Hb|lia].
  - apply Nat.ltb_ge in E. split; [exact Hb|exact E].
Qed.

Lemma hms_bytes (x : float64) :
  all_bytes timer_byte (hms x) = true /\ 8 <= slen (hms x).
Proof.
  unfold hms. cbv zeta.
  destruct (fmt_02d_bytes (int_of_float (SFdiv prec emax x f3600))) as (B1 & L1).
  destruct (fmt_02d_bytes (Z.quot (Z.rem (int_of_float x) 3600) 60)) as (B2 & L2).
  destruct (fmt_02d_bytes (Z.rem (int_of_float x) 60)) as (B3 & L3).
  split.
  - rewrite !all_bytes_append, B1, B2, B3. reflexivity.
  - unfold slen. rewrite !length_append. cbn [String.length]. lia.
Qed.

Lemma timer_bytes (s : snapshot) (now : Z) :
  all_bytes timer_byte (v_timer (printAll_values s now)) = true /\
  8 <= slen (v_timer (printAll_values s now)).
Proof.
  unfold printAll_values. cbn [v_timer]. unfold timer_of, computeETA.
  repeat match goal with
         | |- context [if ?b then _ else _] => destruct b
         end;
    try apply hms_bytes; split; try reflexivity; cbn; lia.
Qed.

Lemma timer_plain (s : snapshot) (now : Z) :
  plain (v_timer (printAll_values s now)).
Proof.
  apply (all_bytes_has_byte timer_byte); [apply timer_bytes|reflexivity].
Qed.

Lemma count_byte_append (c : ascii) (a b : string) :
  count_byte c (a ++ b) = count_byte c a + count_byte c b.
Proof. induction a as [|x a IH]; cbn; [reflexivity|]. rewrite IH. lia. Qed.

Lemma count_byte_absent (c : ascii) (s : string) :
  has_byte c s = false -> count_byte c s = 0.
Proof.
  induction s as [|x s IH]; cbn; [reflexivity|].
  intros H. apply orb_false_iff in H as (H1 & H2). rewrite H1, IH; auto.
Qed.

Lemma has_byte_blanks (c : ascii) (n : Z) :
  Ascii.eqb " " c = false -> has_byte c (blanks n) = false.
Proof.
  intros H. unfold blanks. induction (Z.to_nat n) as [|k IH]; [reflexivity|].
  cbn [repeat_string append has_byte]. now rewrite H, IH.
Qed.

Lemma has_byte_dashes (c : ascii) (n : nat) :
  Ascii.eqb "-" c = false -> has_byte c (repeat_string "-" n) = false.
Proof.
  intros H. induction n as [|k IH]; [reflexivity|].
  cbn [repeat_string append has_byte]. now rewrite H, IH.
Qed.

Lemma render_line_no_LF (timerStr rateStr : string) (filled TermCols : Z)
      (line : string) :
  has_byte LF timerStr = false -> has_byte LF rateStr = false ->
  render_line timerStr rateStr filled TermCols = Some line ->
  has_byte LF line = false.
Proof.
  intros Ht Hr H.
  destruct (Z_lt_dec filled 0) as [H1|H1];
    [rewrite render_line_none in H by (now left); discriminate|].
  destruct (Z_lt_dec barWidth filled) as [H2|H2];
    [rewrite render_line_none in H by (now right); discriminate|].
  rewrite render_line_some in H by lia. cbv zeta in H.
  apply (f_equal (fun o => match o with Some l => l | None => line end)) in H.
  cbv beta iota in H. subst line.
  rewrite ?append_assoc.
  change (has_byte LF (Grey ++ ?x)) with (has_byte LF x).
  rewrite !has_byte_append, Ht, Hr.
  rewrite !has_byte_blanks, !has_byte_dashes by reflexivity.
  reflexivity.
Qed.

(** ** The mode parser, once more *)

Section ModeParserFacts.
Context {os : OsConsts}.

Lemma strings_Split_not_nil (sep : ascii) (s : string) :
  strings_Split sep s <> [].
Proof.
  induction s as [|c s IH]; cbn; [discriminate|].
  destruct (Ascii.eqb c sep); [discriminate|].
  destruct (strings_Split sep s); discriminate.
Qed.

Lemma convMap_known (c : string) :
  map_lookup convMap c
  = if String.eqb c "notrunc" then Some {| clear := O_TRUNC; set := 0 |}
    else None.
Proof. reflexivity. Qed.

Lemma flagMap_known (c : string) :
  map_lookup flagMap c
  = if String.eqb c "sync" then Some {| clear := 0; set := O_SYNC |}
    else None.
Proof. reflexivity. Qed.

Lemma apply_conv_all (what : string) (toks : list string) :
  Forall (eq "notrunc") toks ->
  apply_tokens convMap what toks 0 = Ok 0.
Proof.
  induction 1 as [|c toks <- _ IH]; [reflexivity|].
  cbn [apply_tokens]. rewrite convMap_known. cbn [String.eqb Ascii.eqb].
  cbn -[apply_tokens convMap Z.lnot]. exact IH.
Qed.

Lemma apply_oflag_all (what : string) (toks : list string) (f0 : Z) :
  Forall (eq "sync") toks -> f0 = 0 \/ f0 = O_SYNC ->
  apply_tokens flagMap what toks f0
  = Ok (match toks with [] => f0 | _ => O_SYNC end).
Proof.
  intros H. revert f0. induction H as [|c toks <- Hrest IH]; intros f0 Hf0.
  - reflexivity.
  - cbn [apply_tokens]. rewrite flagMap_known.
    change (String.eqb "sync" "sync") with true. cbv iota. cbn [clear set].
    replace (Z.lor (Z.land f0 (Z.lnot 0)) O_SYNC) with O_SYNC.
    + rewrite IH by (now right). destruct toks; reflexivity.
    + change (Z.lnot 0) with (-1). rewrite Z.land_m1_r.
      destruct Hf0 as [->| ->]; [reflexivity|now rewrite Z.lor_diag].
Qed.

Lemma apply_tokens_first_unknown
      (m : list (string * bitClearAndSet)) (what : string)
      (pre post : list string) (tok : string) (f0 : Z) :
  Forall (fun c => map_lookup m c <> None) pre ->
  map_lookup m tok = None ->
  apply_tokens m what (pre ++ tok :: post) f0 = Err (Errorf (what ++ tok)).
Proof.
  intros Hpre Htok. revert f0.
  induction Hpre as [|c pre Hc _ IH]; intros f0; cbn [app apply_tokens].
  - now rewrite Htok.
  - destruct (map_lookup m c); [apply IH|congruence].
Qed.

Lemma apply_tokens_ok_all
      (m : list (string * bitClearAndSet)) (what : string)
      (toks : list string) (f0 f : Z) :
  apply_tokens m what toks f0 = Ok f ->
  Forall (fun c => map_lookup m c <> None) toks.
Proof.
  revert f0. induction toks as [|c toks IH]; intros f0 H; [constructor|].
  cbn [apply_tokens] in H. destruct (map_lookup m c) eqn:E; [|discriminate].
  constructor; [congruence|]. eapply IH; eauto.
Qed.

Lemma conv_known_iff (c : string) :
  map_lookup convMap c <> None <-> "notrunc" = c.
Proof.
  rewrite convMap_known. destruct (String.eqb c "notrunc") eqn:E.
  - apply String.eqb_eq in E. subst. split; [reflexivity|discriminate].
  - apply String.eqb_neq in E. split; [congruence|]. intros <-. congruence.
Qed.

Lemma flag_known_iff (c : string) :
  map_lookup flagMap c <> None <-> "sync" = c.
Proof.
  rewrite flagMap_known. destruct (String.eqb c "sync") eqn:E.
  - apply String.eqb_eq in E. subst. split; [reflexivity|discriminate].
  - apply String.eqb_neq in E. split; [congruence|]. intros <-. congruence.
Qed.

Lemma Forall_known_conv (toks : list string) :
  Forall (fun c => map_lookup convMap c <> None) toks
  <-> Forall (eq "notrunc") toks.
Proof. split; apply Forall_impl; intros c; apply conv_known_iff. Qed.

Lemma Forall_known_flag (toks : list string) :
  Forall (fun c => map_lookup flagMap c <> None) toks
  <-> Forall (eq "sync") toks.
Proof. split; apply Forall_impl; intros c; apply flag_known_iff. Qed.

(** X11.  The mode parser accepts two lists exactly when the conversion
    list is [none] or made of [notrunc] tokens only, and the flag list
    is [none] or made of [sync] tokens only; the bitmask is then 0 for
    the flag list [none] and [O_SYNC] otherwise.  (An empty list is the
    one empty token, so it is rejected, and [none] is accepted only as
    the whole list.) *)
Theorem parseConvOflag_accepts (convStr oflagStr : string) (flags : Z) :
  parseConvOflag convStr oflagStr = Ok flags
  <->
  (convStr = "none" \/ Forall (eq "notrunc") (strings_Split comma convStr)) /\
  (oflagStr = "none" \/ Forall (eq "sync") (strings_Split comma oflagStr)) /\
  flags = (if String.eqb oflagStr "none" then 0 else O_SYNC).
Proof.
  unfold parseConvOflag. split.
  - intros H.
    assert (Hc : (convStr = "none" \/
                  Forall (eq "notrunc") (strings_Split comma convStr)) /\
                 (if String.eqb oflagStr "none" then Ok 0
                  else apply_tokens flagMap "unknown oflag="
                         (strings_Split comma oflagStr) 0) = Ok flags).
    { destruct (String.eqb convStr "none") eqn:E.
      - apply String.eqb_eq in E. split; [now left|exact H].
      - destruct (apply_tokens convMap _ _ 0) as [f1|e1] eqn:E1; [|discriminate].
        pose proof (apply_conv_zero _ _ _ E1) as ->.
        split; [|exact H]. right.
        apply Forall_known_conv. eapply apply_tokens_ok_all; eauto. }
    destruct Hc as (Hc & Ho). split; [exact Hc|].
    destruct (String.eqb oflagStr "none") eqn:E.
    + apply String.eqb_eq in E. split; [now left|]. congruence.
    + pose proof (apply_tokens_ok_all _ _ _ _ _ Ho) as Hall.
      apply Forall_known_flag in Hall. split; [now right|].
      rewrite apply_oflag_all in Ho by (auto).
      pose proof (strings_Split_not_nil comma oflagStr).
      destruct (strings_Split comma oflagStr); congruence.
  - intros (Hc & Ho & ->).
    assert (E1 : (if String.eqb convStr "none" then Ok 0
                  else apply_tokens convMap "unknown conv="
                         (strings_Split comma convStr) 0) = Ok 0).
    { destruct (String.eqb convStr "none") eqn:E; [reflexivity|].
      destruct Hc as [->|Hc]; [discriminate|]. now apply apply_conv_all. }
    rewrite E1.
    destruct (String.eqb oflagStr "none") eqn:E; [reflexivity|].
    destruct Ho as [->|Ho]; [discriminate|].
    rewrite apply_oflag_all by auto.
    pose proof (strings_Split_not_nil comma oflagStr).
    destruct (strings_Split comma oflagStr); congruence.
Qed.

(** X12.  The error of the mode parser names the first token that the
    tables do not hold: the first such token of the conversion list,
    whatever the flag list is, and the first such token of the flag
    list when the conversion list is accepted. *)
Theorem parseConvOflag_first_unknown
        (convStr oflagStr : string) (pre post : list string) (tok : string) :
  (convStr <> "none" ->
   strings_Split comma convStr = pre ++ tok :: post ->
   Forall (eq "notrunc") pre -> tok <> "notrunc" ->
   parseConvOflag convStr oflagStr = Err (Errorf ("unknown conv=" ++ tok))) /\
  (convStr = "none" \/ Forall (eq "notrunc") (strings_Split comma convStr) ->
   oflagStr <> "none" ->
   strings_Split comma oflagStr = pre ++ tok :: post ->
   Forall (eq "sync") pre -> tok <> "sync" ->
   parseConvOflag convStr oflagStr = Err (Errorf ("unknown oflag=" ++ tok))).
Proof.
  unfold parseConvOflag. split.
  - intros Hn Hs Hpre Htok.
    apply String.eqb_neq in Hn. rewrite Hn, Hs.
    rewrite apply_tokens_first_unknown; [reflexivity| |].
    + now apply Forall_known_conv.
    + rewrite convMap_known. destruct (String.eqb tok "notrunc") eqn:E;
        [apply String.eqb_eq in E; congruence|reflexivity].
  - intros Hc Hn Hs Hpre Htok.
    assert (E1 : (if String.eqb convStr "none" then Ok 0
                  else apply_tokens convMap "unknown conv="
                         (strings_Split comma convStr) 0) = Ok 0).
    { destruct (String.eqb convStr "none") eqn:E; [reflexivity|].
      destruct Hc as [->|Hc]; [discriminate|]. now apply apply_conv_all. }
    rewrite E1. apply String.eqb_neq in Hn. rewrite Hn, Hs.
    rewrite apply_tokens_first_unknown; [reflexivity| |].
    + now apply Forall_known_flag.
    + rewrite flagMap_known. destruct (String.eqb tok "sync") eqn:E;
        [apply String.eqb_eq in E; congruence|reflexivity].
Qed.

(** X13.  Whatever the bitmask of the transfer, the open mode [outFile]
    builds holds [O_CREATE] and [O_WRONLY], and no bit outside
    [O_CREATE], [O_WRONLY], [O_TRUNC] and [O_SYNC]. *)
Theorem outFile_mode_bits (flags : Z) :
  Z.land (outFile_perm flags) (Z.lor O_CREATE O_WRONLY)
  = Z.lor O_CREATE O_WRONLY /\
  Z.land (outFile_perm flags)
         (Z.lnot (Z.lor (Z.lor O_CREATE O_WRONLY) (Z.lor O_TRUNC O_SYNC))) = 0.
Proof.
  unfold outFile_perm, allowedFlags.
  repeat split; apply Z.bits_inj'; intros n Hn;
    rewrite ?Z.land_spec, ?Z.lor_spec, ?Z.lnot_spec, ?Z.land_spec,
            ?Z.lor_spec, ?Z.bits_0 by lia;
    destruct (Z.testbit O_CREATE n), (Z.testbit O_WRONLY n),
             (Z.testbit O_TRUNC n), (Z.testbit O_SYNC n),
             (Z.testbit flags n); reflexivity.
Qed.
End ModeParserFacts.

(** ** Signed block sizes *)

Lemma ParseUint_digits (ds : string) :
  ds <> "" -> all_digits ds = true -> ParseUint ds = Ok (digits_value ds).
Proof.
  intros Hne Hd. unfold ParseUint. destruct ds as [|c ds]; [congruence|].
  rewrite parse_digits_value by exact Hd. reflexivity.
Qed.

Lemma ParseInt_plus (ds : string) :
  ds <> "" -> all_digits ds = true -> digits_value ds <= MaxInt64 ->
  ParseInt (String "+" ds) = Ok (digits_value ds).
Proof.
  intros Hne Hd Hv. cbn [ParseInt]. change (Ascii.eqb "+" "+") with true.
  cbv iota. unfold ParseInt_signed. rewrite ParseUint_digits by assumption.
  cbn [negb andb]. destruct (digits_value ds >=? 2 ^ 63) eqn:E; [|reflexivity].
  unfold MaxInt64 in Hv. lia.
Qed.

Lemma ParseInt_minus (ds : string) :
  ds <> "" -> all_digits ds = true -> digits_value ds <= MaxInt64 ->
  ParseInt (String "-" ds) = Ok (- digits_value ds).
Proof.
  intros Hne Hd Hv. cbn [ParseInt]. change (Ascii.eqb "-" "+") with false.
  change (Ascii.eqb "-" "-") with true.
  cbv iota. unfold ParseInt_signed. rewrite ParseUint_digits by assumption.
  cbn [negb andb]. destruct (digits_value ds >? 2 ^ 63) eqn:E; [|reflexivity].
  unfold MaxInt64 in Hv. lia.
Qed.

Lemma split_last_cons (c : ascii) (s init : string) (l : ascii) :
  split_last (String c s) = Some (init, l) ->
  s <> "" -> exists init', split_last s = Some (init', l).
Proof.
  cbn [split_last]. intros H Hs.
  destruct (split_last s) as [[i' l']|] eqn:E.
  - injection H as _ <-. now exists i'.
  - destruct s; [congruence|]. cbn in E.
    destruct (split_last s) as [[? ?]|]; discriminate.
Qed.

Lemma parseBlockSize_sign (c : ascii) (ds : string) (d : Z) :
  ds <> "" -> all_digits ds = true ->
  parseBlockSize (String c ds) d
  = match ParseInt (String c ds) with
    | Err _ => Fatal ("Invalid block size: " ++ String c ds)
    | Ok val => Value (mul64 val 1)
    end.
Proof.
  intros Hne Hd. apply parseBlockSize_no_unit; [discriminate|].
  intros init l H. destruct (split_last_cons _ _ _ _ H Hne) as (init' & H').
  apply digit_not_unit. eapply split_last_digits; eauto.
Qed.

Lemma dd_negative (fuel : nat) (r : reader) (w : writer) (bs bw : Z) :
  bs < 0 ->
  dd fuel r w bs bw = dd_start r w bw (Panic "makeslice: len out of range").
Proof.
  intros H. unfold dd. destruct (bs =? 0) eqn:E; [lia|].
  destruct (bs <? 0) eqn:E2; [reflexivity|lia].
Qed.

(** X14.  [parseBlockSize] accepts a sign before the digits: a plus
    sign changes nothing, a minus sign gives the negated value, also
    under a unit.  With such a negative block size the copy loop panics
    when it makes its buffer, before any read. *)
Theorem parseBlockSize_signed (ds : string) (d : Z) :
  ds <> "" -> all_digits ds = true -> digits_value ds <= MaxInt64 ->
  let v := digits_value ds in
  parseBlockSize (String "+" ds) d = Value v /\
  parseBlockSize (String "-" ds) d = Value (- v) /\
  (forall u m, unit_multiplier u = Some m ->
     parseBlockSize (snoc (String "-" ds) u) d = Value (mul64 (- v) m)) /\
  (0 < v ->
   forall fuel r w bw,
     dd fuel r w (- v) bw
     = dd_start r w bw (Panic "makeslice: len out of range")).
Proof.
  intros Hne Hd Hv v. pose proof (digits_value_nonneg ds Hd) as H0.
  assert (Hp : 0 < 2 ^ 63) by (apply Z.pow_pos_nonneg; lia).
  assert (Hr : in_int64 v /\ in_int64 (- v))
    by (unfold in_int64, MaxInt64, MinInt64 in *; subst v; lia).
  split; [|split; [|split]].
  - rewrite parseBlockSize_sign, ParseInt_plus by assumption.
    unfold mul64. rewrite Z.mul_1_r, wrap64_small; tauto.
  - rewrite parseBlockSize_sign, ParseInt_minus by assumption.
    unfold mul64. rewrite Z.mul_1_r, wrap64_small; tauto.
  - intros u m Hu. rewrite (parseBlockSize_unit _ u m d Hu).
    now rewrite ParseInt_minus by assumption.
  - intros Hpos fuel r w bw. apply dd_negative. lia.
Qed.

Lemma parseBlockSize_signed_witness :
  parseBlockSize "-4k" 512 = Value (-4096).
Proof.
  exact (proj1 (proj2 (proj2
    (parseBlockSize_signed "4" 512 ltac:(discriminate) eq_refl
       ltac:(vm_compute; discriminate)))) "k"%char 1024 eq_refl).
Defined.

(** ** The configuration *)

Section ConfigurationOutcome.
Context {os : OsConsts}.

Lemma build_transfers_started (l : list nat) (args : list TransferArgs)
      (clock : nat -> Z) (logged logged' : list string)
      (ts ts' : list Transfer) :
  build_transfers l args clock logged ts = Started logged' ts' ->
  block_sizes_parse args l.
Proof.
  revert logged ts. induction l as [|i l IH]; intros logged ts H.
  - intros j [].
  - cbn [build_transfers] in H.
    fold (is_skipped (nth (i - 1) args default_args)) in H.
    destruct (is_skipped (nth (i - 1) args default_args)) eqn:Hsk.
    + intros j [<-|Hj]; [cbv zeta; congruence|]. eapply IH; eauto.
    + destruct (parseBlockSize _ _) as [bsVal|msg] eqn:Hb; [|discriminate].
      assert (Hl : block_sizes_parse args l).
      { destruct (parseConvOflag _ _); eapply IH; eauto. }
      intros j [<-|Hj]; [|now apply Hl].
      cbv zeta. intros _. now exists bsVal.
Qed.

Lemma length_flat_map_le {A B : Type} (f : A -> list B) (l : list A) :
  (forall a, List.length (f a) <= 1)%nat ->
  (List.length (flat_map f l) <= List.length l)%nat.
Proof.
  intros H. induction l as [|a l IH]; [reflexivity|].
  cbn [flat_map]. rewrite length_app. cbn [List.length].
  specialize (H a). lia.
Qed.

Lemma accepted_or_complaint (args : list TransferArgs) (clock : nat -> Z)
      (l : list nat) :
  (List.length (flat_map (accepted_of args clock) l)
   + List.length (flat_map (complaint_of args) l) <= List.length l)%nat.
Proof.
  induction l as [|i l IH]; [reflexivity|].
  cbn [flat_map]. rewrite !length_app. cbn [List.length].
  assert (List.length (accepted_of args clock i)
          + List.length (complaint_of args i) <= 1)%nat.
  { unfold accepted_of, complaint_of.
    destruct (is_skipped _); [cbn; lia|].
    destruct (parseBlockSize _ _); destruct (parseConvOflag _ _); cbn; lia. }
  lia.
Qed.

Lemma accepted_fresh (args : list TransferArgs) (clock : nat -> Z)
      (l : list nat) :
  Forall fresh (flat_map (accepted_of args clock) l).
Proof.
  apply Forall_flat_map. apply Forall_forall. intros i _.
  unfold accepted_of. destruct (is_skipped _); [constructor|].
  destruct (parseBlockSize _ _); [|constructor].
  destruct (parseConvOflag _ _); [|constructor].
  constructor; [|constructor]. repeat split.
Qed.

(** X15.  The configuration starts workers exactly when [numTransfers]
    is between 1 and 50, the block size of every configured transfer
    among the first [numTransfers] parses, and at least one of them has
    lists the mode parser accepts.  The transfers started are then the
    accepted ones, in the order of their indices, and what is logged is
    one line for each configured transfer whose lists are rejected. *)
Theorem configure_started
        (numTransfers : Z) (args : list TransferArgs) (clock : nat -> Z)
        (logged : list string) (ts : list Transfer) :
  let l := seq 1 (Z.to_nat numTransfers) in
  configure numTransfers args clock = Started logged ts
  <->
  1 <= numTransfers <= MaxTransfers /\
  block_sizes_parse args l /\
  ts <> [] /\
  ts = flat_map (accepted_of args clock) l /\
  logged = flat_map (complaint_of args) l.
Proof.
  intros l. split.
  - intros H.
    assert (Hn : 1 <= numTransfers <= MaxTransfers).
    { unfold configure in H.
      destruct (numTransfers <=? 0) eqn:E1; [discriminate|].
      destruct (numTransfers >? MaxTransfers) eqn:E2; [discriminate|]. lia. }
    assert (Hbs : block_sizes_parse args l).
    { unfold configure in H.
      destruct ((numTransfers <=? 0) || (numTransfers >? MaxTransfers));
        [discriminate|].
      fold l in H.
      destruct (build_transfers l args clock [] []) as [lg msg|lg ts0] eqn:E;
        [discriminate|].
      eapply build_transfers_started; eauto. }
    rewrite (configure_spec numTransfers args clock Hn Hbs) in H.
    fold l in H.
    destruct (flat_map (accepted_of args clock) l) as [|t0 ts0]; [discriminate|].
    injection H as <- <-.
    split; [exact Hn|]. split; [exact Hbs|]. split; [discriminate|].
    split; reflexivity.
  - intros (Hn & Hbs & Hne & -> & ->).
    rewrite (configure_spec numTransfers args clock Hn Hbs). fold l.
    destruct (flat_map (accepted_of args clock) l); congruence.
Qed.

(** X16.  When the configuration starts workers, it starts at least one
    and, with the lines it has logged, at most [numTransfers] of them,
    which is at most 50; every transfer it starts has nothing resolved
    and nothing transferred, is not finished and has no end time. *)
Theorem configure_started_bounds
        (numTransfers : Z) (args : list TransferArgs) (clock : nat -> Z)
        (logged : list string) (ts : list Transfer) :
  configure numTransfers args clock = Started logged ts ->
  1 <= Z.of_nat (List.length ts) /\
  Z.of_nat (List.length ts) + Z.of_nat (List.length logged) <= numTransfers /\
  numTransfers <= MaxTransfers /\
  Forall fresh ts.
Proof.
  intros H.
  assert (Hn : 1 <= numTransfers <= MaxTransfers).
  { unfold configure in H.
    destruct (numTransfers <=? 0) eqn:E1; [discriminate|].
    destruct (numTransfers >? MaxTransfers) eqn:E2; [discriminate|]. lia. }
  assert (Hbs : block_sizes_parse args (seq 1 (Z.to_nat numTransfers))).
  { unfold configure in H.
    destruct ((numTransfers <=? 0) || (numTransfers >? MaxTransfers));
      [discriminate|].
    destruct (build_transfers _ args clock [] []) as [lg msg|lg ts0] eqn:E;
      [discriminate|].
    eapply build_transfers_started; eauto. }
  rewrite (configure_spec numTransfers args clock Hn Hbs) in H.
  pose proof (accepted_or_complaint args clock (seq 1 (Z.to_nat numTransfers)))
    as Hlen.
  pose proof (accepted_fresh args clock (seq 1 (Z.to_nat numTransfers))) as Hf.
  rewrite length_seq in Hlen.
  destruct (flat_map (accepted_of args clock) _) as [|t0 ts0]; [discriminate|].
  injection H as <- <-. cbn [List.length] in *.
  repeat split; auto; lia.
Qed.

Lemma build_transfers_ext (l : list nat) (args args' : list TransferArgs)
      (clock : nat -> Z) (logged : list string) (ts : list Transfer) :
  (forall i, In i l ->
     nth (i - 1) args default_args = nth (i - 1) args' default_args) ->
  build_transfers l args clock logged ts
  = build_transfers l args' clock logged ts.
Proof.
  revert logged ts. induction l as [|i l IH]; intros logged ts H; [reflexivity|].
  cbn [build_transfers]. rewrite <- (H i (or_introl eq_refl)).
  assert (Hl : forall j, In j l ->
             nth (j - 1) args default_args = nth (j - 1) args' default_args)
    by (intros j Hj; apply H; now right).
  destruct (_ && _); [now apply IH|].
  destruct (parseBlockSize _ _); [|reflexivity].
  destruct (parseConvOflag _ _); now apply IH.
Qed.

(** X17.  The configuration reads the arguments of the first
    [numTransfers] indices only: two command lines that agree on them
    are configured alike, whatever they say for higher indices. *)
Theorem configure_ignores_rest
        (numTransfers : Z) (args args' : list TransferArgs) (clock : nat -> Z) :
  firstn (Z.to_nat numTransfers) args = firstn (Z.to_nat numTransfers) args' ->
  configure numTransfers args clock = configure numTransfers args' clock.
Proof.
  intros H. unfold configure.
  destruct ((numTransfers <=? 0) || (numTransfers >? MaxTransfers));
    [reflexivity|].
  rewrite (build_transfers_ext _ args args'); [reflexivity|].
  intros i Hi. apply in_seq in Hi.
  assert (Hlt : (i - 1 <? Z.to_nat numTransfers)%nat = true)
    by (apply Nat.ltb_lt; lia).
  pose proof (nth_firstn (Z.to_nat numTransfers) args (i - 1) default_args) as H1.
  pose proof (nth_firstn (Z.to_nat numTransfers) args' (i - 1) default_args) as H2.
  rewrite Hlt in H1, H2. rewrite <- H1, <- H2, H. reflexivity.
Qed.
End ConfigurationOutcome.

(** ** Errors of [inFile] *)

Lemma inFile_sequential_error (what : string) (s : stream)
      (bs size skip count : Z) (e : error) :
  fst (inFile_sequential what s bs size skip count) = Err e ->
  snd (inFile_sequential what s bs size skip count) = None /\
  exists inner, e = Wrap what inner.
Proof.
  unfold inFile_sequential.
  destruct (if skip >? 0 then _ else _) as [[m [err|]] s'].
  - cbn. intros H. injection H as <-. split; [reflexivity|]. eexists. reflexivity.
  - destruct (negb (count =? MaxInt64)); [discriminate|].
    destruct (size >? 0); discriminate.
Qed.

(** X6.  Whenever [inFile] fails it has stored nothing in [*totalOut],
    and its error is an error of one of its steps wrapped with a
    message. *)
Theorem inFile_error_keeps_total
        (stdin : stream) (open : string -> result os_file) (name : string)
        (bs size skip count : Z) (e : error) :
  fst (inFile stdin open name bs size skip count) = Err e ->
  snd (inFile stdin open name bs size skip count) = None /\
  exists what inner, e = Wrap what inner.
Proof.
  unfold inFile. destruct (String.eqb name "").
  - intros H. destruct (inFile_sequential_error _ _ _ _ _ _ _ H) as (H1 & i & H2).
    split; [exact H1|]. eexists _, i. exact H2.
  - destruct (open name) as [f|err].
    + destruct (f_stat_err f) as [err|].
      * cbn. intros H. injection H as <-. split; [reflexivity|]. eexists _, _. reflexivity.
      * destruct (f_node f) as [c|s].
        -- destruct (mul64 skip bs <? 0).
           ++ cbn. intros H. injection H as <-. split; [reflexivity|].
              eexists _, _. reflexivity.
           ++ destruct (negb (count =? MaxInt64)); [discriminate|].
              destruct (size >? 0); discriminate.
        -- intros H.
           destruct (inFile_sequential_error _ _ _ _ _ _ _ H) as (H1 & i & H2).
           split; [exact H1|]. eexists _, i. exact H2.
    + cbn. intros H. injection H as <-. split; [reflexivity|]. eexists _, _. reflexivity.
Qed.

Lemma inFile_error_keeps_total_witness :
  snd (inFile [] (fun _ => Err ENOENT) "gone.img" 512 0 0 MaxInt64) = None.
Proof.
  exact (proj1 (inFile_error_keeps_total [] (fun _ => Err ENOENT) "gone.img"
                  512 0 0 MaxInt64 _ eq_refl)).
Defined.

(** X5.  A negative skip is ignored on a sequential source and refused
    on a regular file: on standard input or a special file [inFile]
    does what it does with a skip of zero, and on a regular file a
    negative offset [skip * bs] makes the seek fail, so [inFile] returns
    the seek error and stores no total. *)
Theorem negative_skip
        (stdin : stream) (open : string -> result os_file) (name : string)
        (bs size skip count : Z) :
  skip < 0 ->
  (forall s, sequential_source stdin open name s ->
     inFile stdin open name bs size skip count
     = inFile stdin open name bs size 0 count) /\
  (forall c, regular_source open name c -> mul64 skip bs < 0 ->
     inFile stdin open name bs size skip count
     = (Err (Wrap ("error seeking " ++ quoted name) EINVAL), None)).
Proof.
  intros Hs. split.
  - intros s [[-> ->]|(Hn & f & Ho & Hst & Hnode)]; unfold inFile.
    + cbn [String.eqb]. unfold inFile_sequential.
      destruct (skip >? 0) eqn:E; [lia|]. reflexivity.
    + rewrite (eqb_name name Hn), Ho, Hst, Hnode. unfold inFile_sequential.
      destruct (skip >? 0) eqn:E; [lia|]. reflexivity.
  - intros c (Hn & f & Ho & Hst & Hnode) Hoff. unfold inFile.
    rewrite (eqb_name name Hn), Ho, Hst, Hnode.
    destruct (mul64 skip bs <? 0) eqn:E; [reflexivity|lia].
Qed.

Lemma negative_skip_witness :
  inFile [] open_2048 "src.img" 512 0 (-1) MaxInt64
  = (Err (Wrap ("error seeking " ++ quoted "src.img") EINVAL), None).
Proof.
  apply (proj2 (negative_skip [] open_2048 "src.img" 512 0 (-1) MaxInt64
                  ltac:(lia)) file_2048 open_2048_regular).
  vm_compute. reflexivity.
Defined.

(** ** A regular file copied to its end *)


Section CompleteCopy.
Context {os : OsConsts}.

End CompleteCopy.


(** ** The line at the start and at the end *)

Lemma SFdiv_zero_positive (y : float64) :
  SFltb f_zero y = true -> SFdiv prec emax f_zero y = f_zero.
Proof.
  unfold SFltb, f_zero. destruct y as [s|s| |s m e]; cbn; try discriminate.
  - destruct s; [discriminate|reflexivity].
  - destruct s; [discriminate|reflexivity].
Qed.

Lemma pct_at_zero (total : Z) :
  total <= MaxInt64 -> pct_of 0 total = f_zero.
Proof.
  intros H. unfold pct_of. destruct (total >? 0) eqn:E; [|reflexivity].
  destruct (float64_of_int_finite total) as (m & e & Hf & _);
    [unfold MaxInt64 in H; lia|].
  rewrite Hf. reflexivity.
Qed.

Lemma rate_at_zero (elapsed : float64) : rate_of 0 elapsed = f_zero.
Proof.
  unfold rate_of. destruct (SFltb f_zero elapsed) eqn:E; [|reflexivity].
  change (SFdiv prec emax (float64_of_int 0) fMiB) with f_zero.
  now apply SFdiv_zero_positive.
Qed.

(** X27.  As long as nothing is transferred, the line of a transfer
    shows a rate of zero, a percentage of zero, no filled cell and the
    placeholder as its timer, finished or not. *)
Theorem line_before_first_byte (s : snapshot) (now : Z) :
  s_transferred s = 0 -> s_total s <= MaxInt64 ->
  let v := printAll_values s now in
  v_rate v = f_zero /\ v_pct v = f_zero /\ v_filled v = 0 /\
  v_timer v = placeholder.
Proof.
  intros Ht Htot. unfold printAll_values. cbn [v_rate v_pct v_filled v_timer].
  rewrite Ht, rate_at_zero, (pct_at_zero _ Htot).
  repeat split. unfold timer_of.
  change (SFleb f100 f_zero) with false. rewrite andb_false_r.
  unfold computeETA. reflexivity.
Qed.

Lemma line_before_first_byte_witness :
  v_timer (printAll_values
             {| s_transferred := 0; s_total := 50; s_finished := false;
                s_start := 0; s_end := 0 |} 1000000000) = placeholder.
Proof.
  exact (proj2 (proj2 (proj2
    (line_before_first_byte
       {| s_transferred := 0; s_total := 50; s_finished := false;
          s_start := 0; s_end := 0 |} 1000000000 eq_refl
       ltac:(vm_compute; discriminate))))).
Defined.

Lemma SFleb_same_finite (m : positive) (e : Z) :
  SFleb (S754_finite false m e) (S754_finite false m e) = true.
Proof.
  unfold SFleb, SFcompare. rewrite Z.compare_refl, Pos.compare_cont_refl.
  reflexivity.
Qed.

(** X28.  When the transferred count equals a total above zero, the
    percentage is 100 and all 50 cells are filled; the timer is the
    elapsed time once the transfer is finished, and the placeholder as
    long as it is not. *)
Theorem line_at_total (s : snapshot) (now : Z) :
  0 < s_total s <= MaxInt64 -> s_transferred s = s_total s ->
  let v := printAll_values s now in
  v_pct v = f100 /\ v_filled v = barWidth /\
  v_timer v = if s_finished s then hms (v_elapsed v) else placeholder.
Proof.
  intros Htot Ht. unfold printAll_values. cbn [v_pct v_filled v_timer v_elapsed].
  rewrite Ht. destruct (pct_at_total _ Htot) as (Hp & Hf).
  rewrite Hp. split; [reflexivity|]. split; [exact (eq_trans (f_equal _ (eq_sym Hp)) Hf)|].
  unfold timer_of. change (SFleb f100 f100) with true. rewrite andb_true_r.
  destruct (s_finished s); [reflexivity|].
  unfold computeETA.
  destruct (float64_of_int_finite (s_total s)) as (m & e & Hfl & _);
    [unfold MaxInt64 in Htot; lia|].
  rewrite Hfl, SFleb_same_finite, orb_true_r. reflexivity.
Qed.

Lemma line_at_total_witness :
  v_filled (printAll_values
              {| s_transferred := 50; s_total := 50; s_finished := true;
                 s_start := 0; s_end := 0 |} 0) = barWidth.
Proof.
  exact (proj1 (proj2
    (line_at_total
       {| s_transferred := 50; s_total := 50; s_finished := true;
          s_start := 0; s_end := 0 |} 0
       ltac:(vm_compute; split; [reflexivity|discriminate]) eq_refl))).
Defined.

(** ** The lines [printAll] prints *)

Lemma centerText_eq (s : string) (width : Z) :
  centerText s width
  = Some (blanks (Z.max 0 ((width - slen s) / 2)) ++ s)%string.
Proof.
  pose proof (slen_nonneg s) as Hs.
  unfold centerText. destruct (slen s >=? width) eqn:E.
  - replace (Z.max 0 ((width - slen s) / 2)) with 0.
    + reflexivity.
    + assert ((width - slen s) / 2 <= 0)
        by (apply Z.div_le_upper_bound; lia). lia.
  - rewrite Z.quot_div_nonneg by lia.
    assert (0 <= (width - slen s) / 2) by (apply Z.div_pos; lia).
    rewrite Repeat_blank by lia. rewrite Z.max_r by lia. reflexivity.
Qed.

Lemma filled_in_bar (s : snapshot) (now : Z) :
  0 <= s_transferred s <= MaxInt64 -> s_total s <= MaxInt64 ->
  0 <= v_filled (printAll_values s now) <= barWidth.
Proof.
  intros Ht Htot.
  destruct (pct_and_fill (s_transferred s) (s_total s) Ht Htot)
    as (_ & _ & _ & _ & z & _ & Hf & Hz).
  unfold printAll_values. cbn [v_filled]. rewrite Hf. exact Hz.
Qed.

(** X25.  For every snapshot with a transferred count in
    [[0, MaxInt64]] and an [int64] total, and every rate text with no
    escape byte, the progress line is printed without a panic.  Its
    timer is at least 8 bytes long, so [padRight] adds nothing to it,
    and the line shows the timer, a space, 50 dashes, a space, the rate
    text padded to 12 columns and the fill of the terminal width. *)
Theorem progress_line_of_snapshot
        (s : snapshot) (now : Z) (rateStr : string) (TermCols : Z) :
  0 <= s_transferred s <= MaxInt64 -> s_total s <= MaxInt64 ->
  plain rateStr ->
  let v := printAll_values s now in
  8 <= slen (v_timer v) /\
  exists line,
    render_line (v_timer v) rateStr (v_filled v) TermCols = Some line /\
    stripANSI line
    = (v_timer v ++ " " ++ repeat_string "-" 50 ++ " "
       ++ blanks (12 - slen rateStr) ++ rateStr
       ++ blanks (TermCols
                  - (slen (v_timer v) + 52 + Z.max (slen rateStr) 12)))%string.
Proof.
  intros Ht Htot Hr v.
  destruct (timer_bytes s now) as (_ & Hlen). fold v in Hlen.
  split; [exact Hlen|].
  destruct (render_line_visible (v_timer v) rateStr (v_filled v) TermCols
              (timer_plain s now) Hr (filled_in_bar s now Ht Htot))
    as (line & Hline & Hvis & _).
  exists line. split; [exact Hline|]. rewrite Hvis.
  unfold visible_line, used_columns, barWidth.
  replace (blanks (8 - slen (v_timer v))) with ""
    by (unfold blanks; replace (Z.to_nat (8 - slen (v_timer v))) with 0%nat by lia;
        reflexivity).
  cbn [append]. do 6 f_equal. f_equal. lia.
Qed.

Lemma progress_line_of_snapshot_witness :
  8 <= slen (v_timer (printAll_values half_snapshot 1000000000)).
Proof.
  exact (proj1 (progress_line_of_snapshot half_snapshot 1000000000
                  "27.66 MB/s" 80
                  ltac:(vm_compute; split; discriminate)
                  ltac:(vm_compute; discriminate) eq_refl)).
Defined.

Lemma print_transfer_two_lines (fmt_rate : float64 -> string)
      (TermCols : Z) (t : Transfer) (now : Z) :
  (forall r, has_byte LF (fmt_rate r) = false) ->
  printable t ->
  exists out,
    print_transfer fmt_rate TermCols t now = Some out /\
    count_byte LF out = 2.
Proof.
  intros Hrate (Htr & Htot & Hin & Hout).
  unfold print_transfer. rewrite centerText_eq. unfold and_then at 1.
  set (v := printAll_values (snapshot_of t) now).
  destruct (render_line (v_timer v) (fmt_rate (v_rate v)) (v_filled v) TermCols)
    as [line|] eqn:Hline.
  - unfold and_then. eexists. split; [reflexivity|].
    assert (HLF : has_byte LF line = false).
    { apply (render_line_no_LF _ _ _ _ _ ) with (3 := Hline).
      - apply (all_bytes_has_byte timer_byte); [|reflexivity].
        apply timer_bytes.
      - apply Hrate. }
    rewrite !count_byte_append.
    rewrite (count_byte_absent LF (blanks _)) by (now apply has_byte_blanks).
    rewrite (count_byte_absent LF (InputFilename t)) by exact Hin.
    rewrite (count_byte_absent LF (OutputFilename t)) by exact Hout.
    cbn [count_byte]. rewrite count_byte_append.
    rewrite (count_byte_absent LF line) by exact HLF.
    reflexivity.
  - exfalso.
    pose proof (filled_in_bar (snapshot_of t) now Htr Htot) as Hf. fold v in Hf.
    rewrite render_line_some in Hline by exact Hf. discriminate.
Qed.

(** X26.  When no name of a transfer and no rate text holds a line
    feed and the counts of the transfers are as in X25, [printAll] does
    not panic and prints exactly two line feeds for each transfer:
    [totalLines], the number of lines [startProgress] moves the cursor
    up before it prints again. *)
Theorem printAll_line_count
        (fmt_rate : float64 -> string) (TermCols : Z) (ts : list Transfer)
        (clock : nat -> Z) (i : nat) :
  (forall r, has_byte LF (fmt_rate r) = false) ->
  Forall printable ts ->
  exists out,
    printAll fmt_rate TermCols ts clock i = Some out /\
    count_byte LF out = totalLines ts.
Proof.
  intros Hrate Hts. revert i.
  induction Hts as [|t ts Ht _ IH]; intros i.
  - exists "". split; reflexivity.
  - cbn [printAll].
    destruct (print_transfer_two_lines fmt_rate TermCols t (clock i) Hrate Ht)
      as (out & -> & Hout).
    destruct (IH (S i)) as (outs & -> & Houts).
    unfold and_then. eexists. split; [reflexivity|].
    rewrite count_byte_append, Hout, Houts. unfold totalLines.
    cbn [List.length]. lia.
Qed.

Lemma ten_byte_transfer_printable : printable ten_byte_transfer.
Proof.
  repeat split; try reflexivity; vm_compute; discriminate.
Qed.

Lemma printAll_line_count_witness :
  exists out,
    printAll zero_rate 80 [ten_byte_transfer; ten_byte_transfer] (fun _ => 5) 0
    = Some out /\
    count_byte LF out = 4.
Proof.
  exact (printAll_line_count zero_rate 80 [ten_byte_transfer; ten_byte_transfer]
           (fun _ => 5) 0%nat (fun _ => eq_refl)
           (Forall_cons _ ten_byte_transfer_printable
              (Forall_cons _ ten_byte_transfer_printable (Forall_nil _)))).
Defined.

(** ** Witnesses *)



Lemma render_line_spec_witness :
  exists line,
    render_line "00:00:07" "12.50 MB/s" 20 80 = Some line /\
    stripANSI line = visible_line "00:00:07" "12.50 MB/s" 80 /\
    slen (stripANSI line) = Z.max 80 (used_columns "00:00:07" "12.50 MB/s").
Proof.
  exact (render_line_spec "00:00:07" "12.50 MB/s" 20 80 eq_refl eq_refl
           ltac:(unfold barWidth; lia)).
Defined.

Lemma configure_started_bounds_witness :
  1 <= Z.of_nat (List.length [new_transfer plain_args 512 0 0]) /\
  Z.of_nat (List.length [new_transfer plain_args 512 0 0])
  + Z.of_nat (List.length
                ["Error parsing conv/oflag for transfer #1: unknown conv=bogus"])
  <= 2 /\
  2 <= MaxTransfers /\
  Forall fresh [new_transfer plain_args 512 0 0].
Proof.
  exact (configure_started_bounds (os := linux_amd64) 2
           [bogus_args; plain_args] (fun _ => 0) _ _ eq_refl).
Defined.

Lemma configure_ignores_rest_witness :
  configure (os := linux_amd64) 1 [plain_args; bogus_args] (fun _ => 0)
  = configure (os := linux_amd64) 1 [plain_args; zero_args] (fun _ => 0).
Proof.
  exact (configure_ignores_rest (os := linux_amd64) 1
           [plain_args; bogus_args] [plain_args; zero_args] (fun _ => 0)
           eq_refl).
Defined.

(** ** A counted copy *)

Section CountedCopy.
Context {os : OsConsts}.

End CountedCopy.


(** ** The properties at work *)

Lemma parseConvOflag_accepts_witness :
  parseConvOflag (os := linux_amd64) "notrunc,notrunc" "sync,sync"
  = Ok (O_SYNC (OsConsts := linux_amd64)).
Proof.
  apply (proj2 (parseConvOflag_accepts (os := linux_amd64)
                  "notrunc,notrunc" "sync,sync" _)).
  split; [right; repeat constructor|].
  split; [right; repeat constructor|reflexivity].
Defined.

Lemma parseConvOflag_first_unknown_witness :
  parseConvOflag (os := linux_amd64) "notrunc,bogus,worse" "sink"
  = Err (Errorf "unknown conv=bogus").
Proof.
  apply (proj1 (parseConvOflag_first_unknown (os := linux_amd64)
                  "notrunc,bogus,worse" "sink" ["notrunc"] ["worse"] "bogus")).
  - discriminate.
  - reflexivity.
  - repeat constructor.
  - discriminate.
Defined.

Lemma configure_started_witness :
  configure (os := linux_amd64) 2 [bogus_args; plain_args] (fun _ => 0)
  = Started ["Error parsing conv/oflag for transfer #1: unknown conv=bogus"]
            [new_transfer plain_args 512 0 0].
Proof.
  apply (proj2 (configure_started (os := linux_amd64) 2
                  [bogus_args; plain_args] (fun _ => 0) _ _)).
  split; [unfold MaxTransfers; lia|].
  split; [exact bogus_block_sizes_parse|].
  split; [discriminate|]. split; reflexivity.
Defined.

Lemma convertArgs_spec_witness :
  convertArgs ["if1=a=b"] = ["-if1"; "a=b"].
Proof.
  exact (proj1 (proj2 (proj2 convertArgs_spec)) "if1" "a=b" eq_refl).
Defined.

Lemma stripANSI_spec_witness :
  stripANSI (Grey ++ "ab") = "ab".
Proof.
  exact (proj2 (proj2 (proj2 stripANSI_spec)) "90" "ab" eq_refl).
Defined.

Lemma centerText_spec_witness :
  centerText "abc" 10 = Some "   abc" /\ 3 <= 10 - 3 - 3 <= 3 + 1.
Proof.
  destruct (centerText_spec "abc" 10) as (H1 & H2).
  split; [exact H1|]. exact (H2 ltac:(vm_compute; reflexivity)).
Defined.
